(** * Onomatoparty server: the room registry and the round state machine

    A shallow embedding of [server/index.js]: the global [rooms] object, the
    socket.io event handlers registered on every connection and [endGame].
    Handlers are pure functions from the registry (and the inputs the
    environment supplies: the directory listing, the values of
    [Math.random()], the set of live sockets) to an [outcome]: the new
    registry with the events emitted, or an uncaught [TypeError].

    ([server/db.js] only opens the Firestore handle.)

    Conventions of the embedding:
    - a plain JavaScript object used as a dictionary under client-supplied
      string keys is a [JsObject.obj]: own properties in creation order,
      enumerated as the language prescribes (array indices first, ascending),
      and read through [Object.prototype];
    - socket ids are minted by the transport and are opaque here;
    - room ids, names and answers are strings;
    - counters are unbounded naturals; [Math.random()] yields a double of
      [0, 1), and its product with a length is rounded as doubles are;
    - the callback that [chooseOnomatopoeia] hands to [.finally] is an event
      of its own: it runs when the Firestore promise has settled, any number
      of events after the handler. *)

From stdpp Require Import base list strings gmap sorting.
From Stdlib Require Import NArith Lia Ascii.

Open Scope string_scope.
Open Scope list_scope.

(** ** JavaScript objects as dictionaries *)

Module JsObject.

(** Numeric value of a decimal digit *)
Definition digit_of (c : ascii) : option N :=
  let n := N_of_ascii c in
  if ((48 <=? n) && (n <=? 57))%N then Some (n - 48)%N else None.

Fixpoint digits_value (s : string) (acc : N) : option N :=
  match s with
  | EmptyString => Some acc
  | String c s' =>
      match digit_of c with
      | Some d => digits_value s' (10 * acc + d)%N
      | None => None
      end
  end.

(** A property key is an array index when it is the canonical decimal
    spelling of an integer between 0 and 2^32 - 2. *)
Definition array_index (k : string) : option N :=
  match k with
  | EmptyString => None
  | String c rest =>
      if Ascii.eqb c "0" && negb (String.eqb rest "") then None
      else match digits_value k 0 with
           | Some n => if (n <=? 4294967294)%N then Some n else None
           | None => None
           end
  end.

Fixpoint insert_index (e : N * string) (l : list (N * string)) : list (N * string) :=
  match l with
  | [] => [e]
  | e' :: l' => if (e.1 <=? e'.1)%N then e :: l else e' :: insert_index e l'
  end.

Definition tag_index (k : string) : option (N * string) :=
  (λ n, (n, k)) <$> array_index k.

(** The array-index keys among [ks], in ascending numeric order *)
Definition index_keys (ks : list string) : list string :=
  (foldr insert_index [] (omap tag_index ks)).*2.

(** The other keys, left in the order of [ks] *)
Definition named_keys (ks : list string) : list string :=
  filter (λ k, array_index k = None) ks.

(** Order in which [Object.keys] and [Object.entries] enumerate own
    properties created in the order [ks] *)
Definition enumeration (ks : list string) : list string :=
  index_keys ks ++ named_keys ks.

(** Property names every plain object inherits from [Object.prototype] *)
Definition object_prototype : list string :=
  [ "constructor"; "__defineGetter__"; "__defineSetter__"; "hasOwnProperty";
    "__lookupGetter__"; "__lookupSetter__"; "isPrototypeOf";
    "propertyIsEnumerable"; "toString"; "valueOf"; "__proto__";
    "toLocaleString" ].

Definition inherited (k : string) : bool :=
  existsb (String.eqb k) object_prototype.

(** An object: its own properties, in creation order *)
Abbreviation obj V := (list (string * V)).

Section Obj.
Context {V : Type}.

Definition empty : obj V := [].

Fixpoint own (o : obj V) (k : string) : option V :=
  match o with
  | [] => None
  | (k', v) :: o' => if String.eqb k' k then Some v else own o' k
  end.

(** [o[k] = v]: an existing property keeps its place, a new one goes last *)
Fixpoint put (k : string) (v : V) (o : obj V) : obj V :=
  match o with
  | [] => [(k, v)]
  | (k', v') :: o' =>
      if String.eqb k' k then (k', v) :: o' else (k', v') :: put k v o'
  end.

(** [delete o[k]] *)
Definition remove (k : string) (o : obj V) : obj V :=
  filter (λ e, e.1 ≠ k) o.

(** What reading [o[k]] yields *)
Inductive slot :=
| Own (v : V)
| Inherited
| Undefined.

Definition get (o : obj V) (k : string) : slot :=
  match own o k with
  | Some v => Own v
  | None => if inherited k then Inherited else Undefined
  end.

(** [Object.keys(o)] *)
Definition keys (o : obj V) : list string := enumeration o.*1.

(** [Object.entries(o)] *)
Definition entries (o : obj V) : list (string * V) :=
  omap (λ k, (λ v, (k, v)) <$> own o k) (keys o).
End Obj.

Arguments slot : clear implicits.
End JsObject.

Import JsObject.

(** ** [Math.random] and the shuffle *)

(** A value of [Math.random()]: a double of [0, 1), the dyadic fraction
    [mantissa / 2^exponent] with a mantissa of 53 bits at most and an
    exponent of 1074 at most *)
Record fraction := Fraction {
  mantissa : N;
  exponent : N;
  mantissa_bits : (mantissa <? 2 ^ 53)%N = true;
  below_one : (mantissa <? 2 ^ exponent)%N = true;
  exponent_max : (exponent <=? 1074)%N = true
}.

(** The product of two doubles is the double nearest to the exact product,
    the even one of two that are equally near. For a product [m / 2^e] this
    keeps the 53 leading bits of [m]; the result is [round_double m / 2^e]. *)
Definition round_double (m : N) : N :=
  let s := (N.size m - 53)%N in
  let q := N.shiftr m s in
  let twice := (2 * (m mod 2 ^ s))%N in
  let up := (2 ^ s <? twice)%N || ((twice =? 2 ^ s)%N && N.odd q) in
  ((if up then q + 1 else q) * 2 ^ s)%N.

(** [Math.floor(r * n)], for a length [n] (a double as it is: lengths stay
    below 2^32) *)
Definition floor_mul (r : fraction) (n : nat) : nat :=
  N.to_nat (round_double (mantissa r * N.of_nat n) / 2 ^ exponent r).

Section Shuffle.
Context {A : Type}.

(** [[a[i], a[j]] = [a[j], a[i]]] for two positions of the array *)
Definition swap (i j : nat) (a : list A) : list A :=
  match a !! i, a !! j with
  | Some x, Some y => <[j:=x]> (<[i:=y]> a)
  | _, _ => a
  end.

(** The loop [for (let i = ...; i > 0; i--)] entered at index [i], the
    next value of [Math.random()] being [rand k] *)
Fixpoint shuffle_from (i : nat) (rand : nat → fraction) (k : nat) (a : list A) : list A :=
  match i with
  | 0 => a
  | S i' =>
      let j := floor_mul (rand k) (i + 1) in
      shuffle_from i' rand (S k) (swap i j a)
  end.

Definition shuffle (rand : nat → fraction) (allCards : list A) : list A :=
  shuffle_from (length allCards - 1) rand 0 allCards.
End Shuffle.

(** ** The data model *)

(** [socket.id] *)
Inductive socket_id := Socket (n : nat).

Global Instance socket_id_eq_dec : EqDecision socket_id.
Proof. solve_decision. Defined.

Global Instance socket_id_countable : Countable socket_id.
Proof. exact (inj_countable' (λ '(Socket n), n) Socket (λ '(Socket n), eq_refl)). Defined.

Record player := Player {
  id : socket_id;
  name : string;
  points : nat
}.

(** An entry of [onomatopoeiaList] *)
Record group := Group {
  onomatopoeia : string;
  playerIds : list socket_id
}.

(** What [stats[socketId]] holds under a word: a count, or the string that
    [+ 1] makes out of a member of [Object.prototype] (it reads as [NaN]
    wherever a number is expected). *)
Inductive tally :=
| Count (n : nat)
| Text.

(** [currentTurnPlayerIndex]: [x % 0] is [NaN] *)
Inductive turn_index :=
| Idx (n : nat)
| NaN.

Record room := Room {
  players : list player;
  deck : list string;
  currentTurnPlayerIndex : turn_index;
  onomatopoeiaList : list group;
  deckName : string;
  currentCard : option string;
  roundCount : nat;
  stats : gmap socket_id (obj tally)
}.

Definition with_players (ps : list player) (r : room) : room :=
  Room ps (deck r) (currentTurnPlayerIndex r) (onomatopoeiaList r) (deckName r)
       (currentCard r) (roundCount r) (stats r).

Definition with_deck (d : list string) (r : room) : room :=
  Room (players r) d (currentTurnPlayerIndex r) (onomatopoeiaList r) (deckName r)
       (currentCard r) (roundCount r) (stats r).

Definition with_currentTurnPlayerIndex (i : turn_index) (r : room) : room :=
  Room (players r) (deck r) i (onomatopoeiaList r) (deckName r)
       (currentCard r) (roundCount r) (stats r).

Definition with_onomatopoeiaList (l : list group) (r : room) : room :=
  Room (players r) (deck r) (currentTurnPlayerIndex r) l (deckName r)
       (currentCard r) (roundCount r) (stats r).

Definition with_currentCard (c : option string) (r : room) : room :=
  Room (players r) (deck r) (currentTurnPlayerIndex r) (onomatopoeiaList r) (deckName r)
       c (roundCount r) (stats r).

Definition with_roundCount (n : nat) (r : room) : room :=
  Room (players r) (deck r) (currentTurnPlayerIndex r) (onomatopoeiaList r) (deckName r)
       (currentCard r) n (stats r).

Definition with_stats (s : gmap socket_id (obj tally)) (r : room) : room :=
  Room (players r) (deck r) (currentTurnPlayerIndex r) (onomatopoeiaList r) (deckName r)
       (currentCard r) (roundCount r) s.

(** [players[index]] *)
Definition player_at (ps : list player) (i : turn_index) : option player :=
  match i with
  | Idx n => ps !! n
  | NaN => None
  end.

(** [(index + 1) % players.length] *)
Definition next_index (i : turn_index) (len : nat) : turn_index :=
  match i, len with
  | Idx n, S _ => Idx ((n + 1) `mod` len)
  | _, _ => NaN
  end.

(** ** What the server sends *)

Record usage_summary := UsageSummary {
  topWord : option string;
  topCount : nat
}.

Module Event.
Inductive t :=
| error (reason : string)
| roomsList (roomIds : list string)
| updatePlayers (ps : list player)
| updateRoomInfo (deckName : string)
| gameStarted (parent : option player)
| cardDrawn (card : string)
| onomatopoeiaList (groups : list group)
| onomatopoeiaChosen (chosenPlayers : list string) (updatedPlayers : list player)
| newTurn (parent : option player)
| gameOver (winners finalPlayers : list player)
           (usageStats : gmap socket_id usage_summary)
(* documents added to the "answers" collection *)
| answerDoc (roomId : string) (round : nat) (cardName : option string)
            (text : string) (playerId : socket_id) (playerName : string)
| choiceDoc (roomId : string) (round : nat) (parentId : socket_id)
            (parentName chosen : string) (chosenPlayers : list string)
            (cardName : option string).
End Event.

Inductive target :=
| ToSender                      (* socket.emit *)
| ToEveryone                    (* io.emit *)
| ToRoom (roomId : string)      (* io.to(roomId).emit *)
| ToSocket (sid : socket_id)    (* io.to(socketId).emit *)
| ToFirestore.                  (* db.collection("answers").add *)

Definition emission : Type := target * Event.t.

(** A handler runs to completion, or dies on an uncaught [TypeError]. *)
Inductive outcome :=
| Done (rooms : obj room) (out : list emission)
| Throws.

(** ** Deck loading *)

Definition lower (c : ascii) : ascii :=
  let n := nat_of_ascii c in
  if ((65 <=? n) && (n <=? 90))%nat then ascii_of_nat (n + 32) else c.

Fixpoint lowercase (s : string) : string :=
  match s with
  | EmptyString => EmptyString
  | String c s' => String (lower c) (lowercase s')
  end.

Definition ends_with (ext s : string) : bool :=
  String.prefix (String.rev ext) (String.rev s).

(** [/\.(jpg|jpeg|png|gif)$/i.test(file)] *)
Definition is_image (file : string) : bool :=
  existsb (λ ext, ends_with ext (lowercase file)) [".jpg"; ".jpeg"; ".png"; ".gif"].

(** ** Game end *)

(** One round of the [Object.entries(usage).forEach] loop *)
Definition scan_usage (best : usage_summary) (e : string * tally) : usage_summary :=
  match e.2 with
  | Count count =>
      if (topCount best <? count)%nat then UsageSummary (Some e.1) count else best
  | Text => best
  end.

Definition top_usage (usage : obj tally) : usage_summary :=
  foldl scan_usage (UsageSummary None 0) (entries usage).

(** [Math.max(...)] of the points; of no points at all it is [-Infinity],
    which no player reaches either. *)
Definition maxPoints (finalPlayers : list player) : nat :=
  max_list (points <$> finalPlayers).

Definition summarize (r : room) (acc : gmap socket_id usage_summary) (p : player)
    : gmap socket_id usage_summary :=
  <[id p := top_usage (default empty (stats r !! id p))]> acc.

Definition endGame (roomId : string) (rooms : obj room) : outcome :=
  match get rooms roomId with
  | Undefined => Done rooms []
  | Inherited => Throws
  | Own r =>
      let finalPlayers := players r in
      let winners := filter (λ p, points p = maxPoints finalPlayers) finalPlayers in
      let usageStats := foldl (summarize r) ∅ finalPlayers in
      Done (remove roomId rooms)
           [(ToRoom roomId, Event.gameOver winners finalPlayers usageStats)]
  end.

(** ** The event handlers

    [sid] is the id of the socket the event arrived on. *)

Definition createRoom (sid : socket_id) (roomId playerName deckName : string)
    (listing : option (list string)) (rand : nat → fraction)
    (rooms : obj room) : outcome :=
  match get rooms roomId with
  | Own _ | Inherited => Done rooms [(ToSender, Event.error "Room already exists")]
  | Undefined =>
      (* [listing] is what [fs.readdirSync(deckFolder)] returns, [None] when it throws *)
      match listing with
      | None => Done rooms [(ToSender, Event.error "Failed to load deck images")]
      | Some files =>
          let allCards := shuffle rand (List.filter is_image files) in
          let r := Room [Player sid playerName 0] allCards (Idx 0) [] deckName None 1 ∅ in
          let rooms := put roomId r rooms in
          Done rooms [(ToEveryone, Event.roomsList (keys rooms));
                      (ToRoom roomId, Event.updatePlayers (players r))]
      end
  end.

Definition joinRoom (sid : socket_id) (roomId playerName : string)
    (rooms : obj room) : outcome :=
  match get rooms roomId with
  | Undefined => Done rooms [(ToSender, Event.error "Room does not exist")]
  | Inherited => Throws
  | Own r =>
      if existsb (λ p, String.eqb (name p) playerName) (players r)
      then Done rooms [(ToSender, Event.error "Name already taken in this room")]
      else
        let r := with_players (players r ++ [Player sid playerName 0]) r in
        Done (put roomId r rooms) [(ToRoom roomId, Event.updatePlayers (players r))]
  end.

Definition startGame (roomId : string) (random : fraction) (rooms : obj room) : outcome :=
  match get rooms roomId with
  | Undefined => Done rooms []
  | Inherited => Throws
  | Own r =>
      let r := with_currentTurnPlayerIndex
                 (Idx (floor_mul random (length (players r)))) r in
      Done (put roomId r rooms)
           [(ToRoom roomId, Event.updateRoomInfo (deckName r));
            (ToRoom roomId,
             Event.gameStarted (player_at (players r) (currentTurnPlayerIndex r)))]
  end.

Definition drawCard (sid : socket_id) (roomId : string) (rooms : obj room) : outcome :=
  match get rooms roomId with
  | Undefined => Done rooms []
  | Inherited => Throws
  | Own r =>
      match player_at (players r) (currentTurnPlayerIndex r) with
      | None => Throws
      | Some currentPlayer =>
          if bool_decide (sid ≠ id currentPlayer) then Done rooms []
          else
            (* deck.length > 0 ? deck.pop() : null *)
            match last (deck r) with
            | None => endGame roomId rooms
            | Some card =>
                let r := with_deck (removelast (deck r)) r in
                (* !card *)
                if String.eqb card "" then endGame roomId (put roomId r rooms)
                else
                  let r := with_currentCard (Some card) r in
                  Done (put roomId r rooms) [(ToRoom roomId, Event.cardDrawn card)]
            end
      end
  end.

(** [usage[word] = (usage[word] || 0) + 1]; the [__proto__] setter
    ignores a primitive. *)
Definition bump (word : string) (usage : obj tally) : obj tally :=
  let next :=
    match get usage word with
    | Own (Count n) => Count (n + 1)
    | Own Text | Inherited => Text
    | Undefined => Count 1
    end in
  if String.eqb word "__proto__" then usage else put word next usage.

(** Lines 147-151: the usage count *)
Definition record_usage (sid : socket_id) (word : string) (r : room) : room :=
  with_stats (<[sid := bump word (default empty (stats r !! sid))]> (stats r)) r.

Definition find_group (word : string) (groups : list group) : option (nat * group) :=
  list_find (λ g, onomatopoeia g = word) groups.

(** Lines 153-161: the grouping *)
Definition record_group (sid : socket_id) (word : string) (r : room) : room :=
  let groups := onomatopoeiaList r in
  match find_group word groups with
  | Some (i, g) =>
      if bool_decide (sid ∈ playerIds g) then r
      else with_onomatopoeiaList
             (<[i := Group (onomatopoeia g) (playerIds g ++ [sid])]> groups) r
  | None => with_onomatopoeiaList (groups ++ [Group word [sid]]) r
  end.

(** Lines 147-161: what a submission records in the room *)
Definition record_submission (sid : socket_id) (word : string) (r : room) : room :=
  record_group sid word (record_usage sid word r).

Definition totalSubmissions (groups : list group) : nat :=
  foldl (λ sum g, sum + length (playerIds g)) 0 groups.

(** [live] is [io.sockets.sockets.has]. *)
Definition submitOnomatopoeia (sid : socket_id) (roomId word playerName : string)
    (live : socket_id → bool) (rooms : obj room) : outcome :=
  match get rooms roomId with
  | Undefined => Done rooms []
  | Inherited => Throws
  | Own r =>
      let r := record_submission sid word r in
      let docData :=
        (ToFirestore,
         Event.answerDoc roomId (roundCount r) (currentCard r) word sid playerName) in
      let rooms := put roomId r rooms in
      (* totalSubmissions === players.length - 1 *)
      if (totalSubmissions (onomatopoeiaList r) + 1 =? length (players r))%nat then
        match player_at (players r) (currentTurnPlayerIndex r) with
        | None => Throws
        | Some parentPlayer =>
            if live (id parentPlayer)
            then Done rooms [docData;
                             (ToSocket (id parentPlayer),
                              Event.onomatopoeiaList (onomatopoeiaList r))]
            else Done rooms [docData]
        end
      else Done rooms [docData]
  end.

Definition add_point (p : player) : player :=
  Player (id p) (name p) (points p + 1).

(** One round of [group.playerIds.forEach] *)
Definition award (acc : list player * list string) (playerId : socket_id)
    : list player * list string :=
  match list_find (λ p, id p = playerId) acc.1 with
  | Some (i, p) => (<[i := add_point p]> acc.1, acc.2 ++ [name p])
  | None => acc
  end.

(** Lines 198-210: the players after scoring, and [chosenNames] *)
Definition score (selected : string) (r : room) : list player * list string :=
  match find_group selected (onomatopoeiaList r) with
  | Some (_, g) => foldl award (players r, []) (playerIds g)
  | None => (players r, [])
  end.

(** The handler of [chooseOnomatopoeia], lines 194-228: it scores, reads the
    parent and hands the choice to Firestore. What it passes to [.finally]
    is [chooseOnomatopoeia_finally] below, with the [chosenNames] computed
    here. *)
Definition chooseOnomatopoeia (roomId selected : string) (rooms : obj room) : outcome :=
  match get rooms roomId with
  | Undefined => Done rooms []
  | Inherited => Throws
  | Own r =>
      let scored := score selected r in
      let chosenNames := scored.2 in
      let r := with_players scored.1 r in
      match player_at (players r) (currentTurnPlayerIndex r) with
      | None => Throws
      | Some parentPlayer =>
          Done (put roomId r rooms)
               [(ToFirestore,
                 Event.choiceDoc roomId (roundCount r) (id parentPlayer) (name parentPlayer)
                                 selected chosenNames (currentCard r))]
      end
  end.

(** The object that the callback holds as [room]. The handler read it from
    [rooms[roomId]]; when the callback runs it is still registered there, or
    it has been deleted from [rooms] since (its game ended or its last
    player left), and [rooms[roomId]] is then undefined or a newer room. *)
Inductive captured :=
| Registered
| Detached (r : room).

(** The callback of lines 229-249. It runs once the Firestore promise has
    settled, other events having been handled in between. It reads and
    writes the room it holds, and [endGame(roomId)] looks [roomId] up in
    [rooms] again. *)
Definition chooseOnomatopoeia_finally (roomId : string) (chosenNames : list string)
    (held : captured) (rooms : obj room) : outcome :=
  let room := match held with
              | Registered => own rooms roomId
              | Detached r => Some r
              end in
  let store r rooms := match held with
                       | Registered => put roomId r rooms
                       | Detached _ => rooms
                       end in
  match room with
  | None => Done rooms []
  | Some r =>
      let chosen :=
        (ToRoom roomId, Event.onomatopoeiaChosen chosenNames (players r)) in
      let r := with_onomatopoeiaList [] r in
      if (length (deck r) =? 0)%nat then
        match endGame roomId (store r rooms) with
        | Done rooms out => Done rooms (chosen :: out)
        | Throws => Throws
        end
      else
        let r := with_currentTurnPlayerIndex
                   (next_index (currentTurnPlayerIndex r) (length (players r))) r in
        let r := with_roundCount (roundCount r + 1) r in
        Done (store r rooms)
             [chosen;
              (ToRoom roomId,
               Event.newTurn (player_at (players r) (currentTurnPlayerIndex r)))]
  end.

Definition nextTurn (roomId : string) (rooms : obj room) : outcome :=
  match get rooms roomId with
  | Undefined => Done rooms []
  | Inherited => Throws
  | Own r =>
      let r := with_onomatopoeiaList [] r in
      let r := with_currentTurnPlayerIndex
                 (next_index (currentTurnPlayerIndex r) (length (players r))) r in
      let r := with_roundCount (roundCount r + 1) r in
      Done (put roomId r rooms)
           [(ToRoom roomId,
             Event.newTurn (player_at (players r) (currentTurnPlayerIndex r)))]
  end.

Definition getRooms (rooms : obj room) : outcome :=
  Done rooms [(ToSender, Event.roomsList (keys rooms))].

(** One round of [Object.keys(rooms).forEach] in the disconnect handler.
    The keys of an object are distinct and a round deletes no room but its
    own, so the room of the round is there. *)
Definition leave (sid : socket_id) (acc : obj room * list emission) (roomId : string)
    : obj room * list emission :=
  match own acc.1 roomId with
  | None => acc
  | Some r =>
      let r := with_players (filter (λ p, id p ≠ sid) (players r)) r in
      if (length (players r) =? 0)%nat then
        let rooms := remove roomId acc.1 in
        (rooms, acc.2 ++ [(ToEveryone, Event.roomsList (keys rooms))])
      else
        (put roomId r acc.1, acc.2 ++ [(ToRoom roomId, Event.updatePlayers (players r))])
  end.

Definition disconnect (sid : socket_id) (rooms : obj room) : outcome :=
  let acc := foldl (leave sid) (rooms, []) (keys rooms) in
  Done acc.1 acc.2.

(** ** The server as a transition system *)

Module Request.
Inductive t :=
| createRoom (roomId playerName deckName : string)
             (listing : option (list string)) (rand : nat → fraction)
| joinRoom (roomId playerName : string)
| startGame (roomId : string) (random : fraction)
| drawCard (roomId : string)
| submitOnomatopoeia (roomId word playerName : string) (live : socket_id → bool)
| chooseOnomatopoeia (roomId selected : string)
| nextTurn (roomId : string)
| getRooms
| disconnect
(* the Firestore promise of an earlier [chooseOnomatopoeia] settles *)
| choiceSettled (roomId : string) (chosenNames : list string) (held : captured).
End Request.

Definition handle (sid : socket_id) (req : Request.t) (rooms : obj room) : outcome :=
  match req with
  | Request.createRoom roomId playerName deckName listing rand =>
      createRoom sid roomId playerName deckName listing rand rooms
  | Request.joinRoom roomId playerName => joinRoom sid roomId playerName rooms
  | Request.startGame roomId random => startGame roomId random rooms
  | Request.drawCard roomId => drawCard sid roomId rooms
  | Request.submitOnomatopoeia roomId word playerName live =>
      submitOnomatopoeia sid roomId word playerName live rooms
  | Request.chooseOnomatopoeia roomId selected => chooseOnomatopoeia roomId selected rooms
  | Request.nextTurn roomId => nextTurn roomId rooms
  | Request.getRooms => getRooms rooms
  | Request.disconnect => disconnect sid rooms
  | Request.choiceSettled roomId chosenNames held =>
      chooseOnomatopoeia_finally roomId chosenNames held rooms
  end.

(** The registry after a sequence of events, unless one of them throws
    (an uncaught exception ends the process). The events are those of the
    sockets and the settlements of promises, in the order in which the
    server handles them; a trace may also hold a settlement that no choice
    has scheduled, so that the traces of the server are among these. *)
Fixpoint run (trace : list (socket_id * Request.t)) (rooms : obj room)
    : option (obj room) :=
  match trace with
  | [] => Some rooms
  | (sid, req) :: trace =>
      match handle sid req rooms with
      | Done rooms _ => run trace rooms
      | Throws => None
      end
  end.

(** What the last event of a trace makes the server send *)
Definition reply (trace : list (socket_id * Request.t)) (sid : socket_id)
    (req : Request.t) : option (list emission) :=
  match run trace empty with
  | Some rooms =>
      match handle sid req rooms with
      | Done _ out => Some out
      | Throws => None
      end
  | None => None
  end.

(** ** Observations on outcomes *)

(** The sender is told [reason]. *)
Definition answers_error (reason : string) (o : outcome) : Prop :=
  match o with
  | Done _ out => (ToSender, Event.error reason) ∈ out
  | Throws => False
  end.

(** The handler completes and reports no error to the sender. *)
Definition succeeds (o : outcome) : Prop :=
  match o with
  | Done _ out => ∀ reason, (ToSender, Event.error reason) ∉ out
  | Throws => False
  end.

Definition registry_after (rooms : obj room) (o : outcome) : obj room :=
  match o with
  | Done rooms' _ => rooms'
  | Throws => rooms
  end.

(** Two [createRoom] events for the same room id, one right after the
    other: one of them succeeds, the other is answered "Room already
    exists" and leaves the registry as it was. *)
Definition exclusive_creation (rooms : obj room) (first second : obj room → outcome) : Prop :=
  let o1 := first rooms in
  let rooms1 := registry_after rooms o1 in
  let o2 := second rooms1 in
  (succeeds o1 ∧ answers_error "Room already exists" o2 ∧ registry_after rooms1 o2 = rooms1)
  ∨ (answers_error "Room already exists" o1 ∧ rooms1 = rooms ∧ succeeds o2).

(** ** Sockets and random values of the scenarios *)

Definition Ann : socket_id := Socket 1.
Definition Bob : socket_id := Socket 2.
Definition Cyd : socket_id := Socket 3.

(** The doubles [0], [0.5] and [0.9] *)
Definition zero : fraction := Fraction 0 0 eq_refl eq_refl eq_refl.
Definition half : fraction := Fraction 1 1 eq_refl eq_refl eq_refl.
Definition nine_tenths : fraction := Fraction 8106479329266893 53 eq_refl eq_refl eq_refl.

Definition everyone (_ : socket_id) : bool := true.

(** ** The current parent *)

(** [currentTurnPlayerIndex] designates a player of the room. *)
Definition has_parent (r : room) : Prop :=
  is_Some (player_at (players r) (currentTurnPlayerIndex r)).

(** The invariant of the data model: a valid index whenever there are players *)
Definition index_valid (r : room) : Prop :=
  players r ≠ [] → has_parent r.

Definition registry_valid (rooms : obj room) : Prop :=
  ∀ roomId r, own rooms roomId = Some r → index_valid r.

(** Every room has players and a parent among them. *)
Definition registry_sound (rooms : obj room) : Prop :=
  ∀ roomId r, own rooms roomId = Some r → has_parent r.

(** Ann opens a room on a deck of two cards, Bob joins, and the draw of
    [startGame] makes Bob the parent. *)
Definition two_player_game : list (socket_id * Request.t) :=
  [ (Ann, Request.createRoom "r" "Ann" "animals" (Some ["c1.png"; "c2.jpg"]) (λ _, zero));
    (Bob, Request.joinRoom "r" "Bob");
    (Ann, Request.startGame "r" half) ].

(** ** Submissions of a round *)

(** The [onomatopoeiaList] events among what a handler sent, with their
    addressees *)
Definition deliveries (out : list emission) : list (socket_id * list group) :=
  omap (λ e, match e with
             | (ToSocket sid, Event.onomatopoeiaList groups) => Some (sid, groups)
             | _ => None
             end) out.

(** The players who have contributed to a group, each once *)
Definition contributors (groups : list group) : list socket_id :=
  remove_dups (concat (playerIds <$> groups)).

(** Ann opens a room on a deck of two cards, Bob and Cyd join, Ann is drawn
    as the parent and reveals a card. *)
Definition three_player_round : list (socket_id * Request.t) :=
  [ (Ann, Request.createRoom "r" "Ann" "animals" (Some ["c1.png"; "c2.jpg"]) (λ _, zero));
    (Bob, Request.joinRoom "r" "Bob");
    (Cyd, Request.joinRoom "r" "Cyd");
    (Ann, Request.startGame "r" zero);
    (Ann, Request.drawCard "r") ].

Definition submits (sid : socket_id) (playerName word : string) : socket_id * Request.t :=
  (sid, Request.submitOnomatopoeia "r" word playerName everyone).

(** Three players on the deck [cards]; Cyd, the last to join, is drawn as
    the parent and reveals a card; Ann and Bob both answer "x"; then Bob's
    connection drops. *)
Definition parent_last_round (cards : list string) : list (socket_id * Request.t) :=
  [ (Ann, Request.createRoom "r" "Ann" "animals" (Some cards) (λ _, zero));
    (Bob, Request.joinRoom "r" "Bob");
    (Cyd, Request.joinRoom "r" "Cyd");
    (Ann, Request.startGame "r" nine_tenths);
    (Cyd, Request.drawCard "r");
    submits Ann "Ann" "x";
    submits Bob "Bob" "x";
    (Bob, Request.disconnect) ].

(** ** Scoring *)

(** The position of the first player of [ps], in join order, whose id is
    [pid]: the player [players.find(p => p.id === pid)] returns *)
Definition seat (ps : list player) (pid : socket_id) : option nat :=
  fst <$> list_find (λ p, id p = pid) ps.

(** The scoring rule in the spec's words: the chosen group gives one point
    to every player whose id is among its submitters and nothing to the
    others; a text that matches no group changes no points. *)
Definition scored_as_specified (r : room) (selected : string) : Prop :=
  match find_group selected (onomatopoeiaList r) with
  | Some (_, g) =>
      ∀ j p, players r !! j = Some p →
             (score selected r).1 !! j
             = Some (if bool_decide (id p ∈ playerIds g) then add_point p else p)
  | None => (score selected r).1 = players r
  end.

(** Bob's socket joins Ann's room twice, as "Bob" and as "Bobby", and
    answers "x" once the card is revealed. *)
Definition two_seats : list (socket_id * Request.t) :=
  [ (Ann, Request.createRoom "r" "Ann" "animals" (Some ["c1.png"; "c2.jpg"]) (λ _, zero));
    (Bob, Request.joinRoom "r" "Bob");
    (Bob, Request.joinRoom "r" "Bobby");
    (Ann, Request.startGame "r" zero);
    (Ann, Request.drawCard "r");
    submits Bob "Bob" "x" ].

(** A round in which Bob and Cyd have both answered "x" to Ann's card *)
Definition answered_round : room :=
  Room [Player Ann "Ann" 0; Player Bob "Bob" 0; Player Cyd "Cyd" 0]
       ["c2.jpg"] (Idx 0) [Group "x" [Bob; Cyd]] "animals" (Some "c1.png") 1 ∅.

(** ** Usage counts and groups *)

(** The number stored for [word] in [stats[sid]]: 0 when nothing is stored,
    none when what is stored is not a number *)
Definition usageCount (r : room) (sid : socket_id) (word : string) : option nat :=
  match own (default empty (stats r !! sid)) word with
  | None => Some 0
  | Some (Count n) => Some n
  | Some Text => None
  end.

(** One group per text, and a player at most once in a group *)
Definition groups_distinct (groups : list group) : Prop :=
  NoDup (onomatopoeia <$> groups) ∧ Forall (λ g, NoDup (playerIds g)) groups.

(** A player submits the same text twice, in the spec's words: the usage
    count goes up by one each time, the text has a group with the player in
    it, and the second submission leaves the groups as the first made
    them. *)
Definition counted_twice_grouped_once (r : room) (sid : socket_id) (word : string) : Prop :=
  let r1 := record_submission sid word r in
  let r2 := record_submission sid word r1 in
  ∃ c, usageCount r sid word = Some c
       ∧ usageCount r1 sid word = Some (c + 1)
       ∧ usageCount r2 sid word = Some (c + 2)
       ∧ (∃ i g, find_group word (onomatopoeiaList r1) = Some (i, g) ∧ sid ∈ playerIds g)
       ∧ onomatopoeiaList r2 = onomatopoeiaList r1.

(** ** The usage summary *)

(** The entries that hold a number *)
Definition counted (es : list (string * tally)) : list (string * nat) :=
  omap (λ e, match e.2 with Count n => Some (e.1, n) | Text => None end) es.

(** The first text of [cs] whose count is [m] *)
Fixpoint first_with (m : nat) (cs : list (string * nat)) : option string :=
  match cs with
  | [] => None
  | (w, c) :: cs => if decide (c = m) then Some w else first_with m cs
  end.

(** The spec's summary of the counts [cs]: the highest count and the first
    text that reaches it; no text when no count is positive. *)
Definition first_best (cs : list (string * nat)) : usage_summary :=
  let m := max_list cs.*2 in
  UsageSummary (if decide (m = 0) then None else first_with m cs) m.

(** The texts of [words], each once, in the order in which they first
    appear *)
Definition first_seen (words : list string) : list string :=
  foldl (λ seen w, if decide (w ∈ seen) then seen else seen ++ [w]) [] words.

(** How many times [w] appears in [words] *)
Definition times (w : string) (words : list string) : nat :=
  length (filter (λ w', w' = w) words).

(** The spec's summary of a player who submitted [words], in this order:
    the text submitted most often, the first-seen one among equals. *)
Definition first_seen_best (words : list string) : usage_summary :=
  first_best ((λ w, (w, times w words)) <$> first_seen words).

(** [stats[socketId]] of a player whose submissions were [words] *)
Definition usage_of (words : list string) : obj tally :=
  foldl (λ usage w, bump w usage) empty words.

(** Texts that are neither array indices nor names inherited from
    [Object.prototype] *)
Definition plain (w : string) : Prop :=
  array_index w = None ∧ inherited w = false.

(** The tie rule in the spec's words, for a player who submitted [words] *)
Definition first_seen_wins (words : list string) : Prop :=
  top_usage (usage_of words) = first_seen_best words.

(** Bob answers "b" and then "7" to Ann's card; Ann chooses "b" and the
    choice is saved; Bob, the next parent, draws the last card. *)
Definition game_with_a_number : list (socket_id * Request.t) :=
  three_player_round ++
  [ submits Bob "Bob" "b";
    submits Bob "Bob" "7";
    (Ann, Request.chooseOnomatopoeia "r" "b");
    (Ann, Request.choiceSettled "r" ["Bob"] Registered);
    (Bob, Request.drawCard "r") ].

(** ** The order of the room list *)

(** The id of the room an event creates, if it creates one; [before] and
    [after] are the registries around the event. *)
Definition created (req : Request.t) (before after : obj room) : list string :=
  match req with
  | Request.createRoom roomId _ _ _ _ =>
      if bool_decide (own before roomId = None ∧ is_Some (own after roomId))
      then [roomId] else []
  | _ => []
  end.

(** The room ids in insertion order of creation, in the spec's words: an
    id is appended when its room is created and struck out when its room is
    deleted. *)
Definition track (req : Request.t) (before after : obj room) (order : list string)
    : list string :=
  filter (λ k, is_Some (own after k)) (order ++ created req before after).

Fixpoint creation_order (trace : list (socket_id * Request.t)) (rooms : obj room)
    (order : list string) : list string :=
  match trace with
  | [] => order
  | (sid, req) :: trace =>
      match handle sid req rooms with
      | Done rooms' _ => creation_order trace rooms' (track req rooms rooms' order)
      | Throws => order
      end
  end.

(** After [trace], [getRooms] answers with the room ids in creation order. *)
Definition listed_in_creation_order (trace : list (socket_id * Request.t)) : Prop :=
  ∀ rooms, run trace empty = Some rooms →
           getRooms rooms
           = Done rooms [(ToSender, Event.roomsList (creation_order trace empty []))].

(** [ks'] is [ks] with some keys struck out. *)
Definition kept (ks ks' : list string) : Prop :=
  ks' = filter (λ k, k ∈ ks') ks.

(** Ann opens room "b", then Bob opens room "1". *)
Definition letter_then_number : list (socket_id * Request.t) :=
  [ (Ann, Request.createRoom "b" "Ann" "animals" (Some ["c1.png"]) (λ _, zero));
    (Bob, Request.createRoom "1" "Bob" "animals" (Some ["c1.png"]) (λ _, zero)) ].

(** ** Reachable registries *)

(** The room an event is addressed to *)
Definition addressed (req : Request.t) : option string :=
  match req with
  | Request.createRoom roomId _ _ _ _
  | Request.joinRoom roomId _
  | Request.startGame roomId _
  | Request.drawCard roomId
  | Request.submitOnomatopoeia roomId _ _ _
  | Request.chooseOnomatopoeia roomId _
  | Request.nextTurn roomId
  | Request.choiceSettled roomId _ _ => Some roomId
  | Request.getRooms | Request.disconnect => None
  end.

(** Every text that is not inherited has a number, or nothing, in every
    usage object of the room. *)
Definition usage_numeric (r : room) : Prop :=
  ∀ sid word, inherited word = false → is_Some (usageCount r sid word).

Definition registry_where (P : room → Prop) (rooms : obj room) : Prop :=
  ∀ roomId r, own rooms roomId = Some r → P r.

(** ** The scenario of the spec *)

(** Three players on a deck of one card: Ann opens the room, Bob and Cyd
    join, Ann is drawn as the parent and reveals the card, Bob answers
    "boing". *)
Definition boing_round : list (socket_id * Request.t) :=
  [ (Ann, Request.createRoom "r" "Ann" "animals" (Some ["card1.png"]) (λ _, zero));
    (Bob, Request.joinRoom "r" "Bob");
    (Cyd, Request.joinRoom "r" "Cyd");
    (Ann, Request.startGame "r" zero);
    (Ann, Request.drawCard "r");
    submits Bob "Bob" "boing" ].

(** ** How an event changes a room *)

(** What the disconnection of [sid] leaves of a room: the players of other
    sockets, and no room at all when there is none *)
Definition without (sid : socket_id) (r : room) : option room :=
  let ps := filter (λ p, id p ≠ sid) (players r) in
  if (length ps =? 0)%nat then None else Some (with_players ps r).

(** The room [createRoom] stores *)
Definition new_room (sid : socket_id) (playerName deckName : string)
    (files : list string) (rand : nat → fraction) : room :=
  Room [Player sid playerName 0] (shuffle rand (List.filter is_image files))
       (Idx 0) [] deckName None 1 ∅.

(** The next turn of a room whose players are now [ps] *)
Definition turned (ps : list player) (r : room) : room :=
  Room ps (deck r) (next_index (currentTurnPlayerIndex r) (length ps)) []
       (deckName r) (currentCard r) (roundCount r + 1) (stats r).

(** The ways in which an event from the socket [sid] changes a room that
    is there before and after it; a settled choice turns the room as
    [nextTurn] does *)
Inductive room_step (sid : socket_id) (r : room) : room → Prop :=
| step_none : room_step sid r r
| step_join playerName :
    playerName ∉ name <$> players r →
    room_step sid r (with_players (players r ++ [Player sid playerName 0]) r)
| step_start random :
    room_step sid r
      (with_currentTurnPlayerIndex (Idx (floor_mul random (length (players r)))) r)
| step_draw cards card parent :
    player_at (players r) (currentTurnPlayerIndex r) = Some parent →
    sid = id parent →
    deck r = cards ++ [card] →
    card ≠ "" →
    room_step sid r (with_currentCard (Some card) (with_deck cards r))
| step_submit word :
    room_step sid r (record_submission sid word r)
| step_choose selected :
    has_parent r →
    room_step sid r (with_players (score selected r).1 r)
| step_next :
    room_step sid r (turned (players r) r)
| step_leave r' :
    without sid r = Some r' →
    room_step sid r r'.

(** The registries the server can be in *)
Definition reachable (rooms : obj room) : Prop :=
  ∃ trace, run trace empty = Some rooms.

(** ** Registries of the examples *)

(** Ann's room once Bob has joined and been drawn as the parent *)
Definition opened_room : room :=
  Room [Player Ann "Ann" 0; Player Bob "Bob" 0] ["c2.jpg"; "c1.png"] (Idx 1) []
       "animals" None 1 ∅.

Definition opened : obj room := [("r", opened_room)].

(** The invariant of the players of a room: there is one, and the index of
    the parent is a number *)
Definition alive (r : room) : Prop :=
  players r ≠ [] ∧ ∃ n, currentTurnPlayerIndex r = Idx n.

(** The cards of a room are image files *)
Definition cards_are_images (r : room) : Prop :=
  Forall (λ c, is_image c = true) (deck r)
  ∧ ∀ c, currentCard r = Some c → is_image c = true.

(** The events of a game in progress: their handlers begin with
    [const room = rooms[roomId]; if (!room) return;]. *)
Definition plays (req : Request.t) : bool :=
  match req with
  | Request.startGame _ _ | Request.drawCard _ | Request.submitOnomatopoeia _ _ _ _
  | Request.chooseOnomatopoeia _ _ | Request.nextTurn _ => true
  | _ => false
  end.

(** The points of all players together *)
Definition total_points (ps : list player) : nat := sum_list (points <$> ps).

(** ** Scenarios with several rooms and several answers *)

Definition Dan : socket_id := Socket 4.
Definition Eve : socket_id := Socket 5.

(** Ann opens room "b", Bob room "10", Cyd room "2", Dan room "a" and Eve
    room "4294967295"; then Ann's connection drops and her room is
    deleted. *)
Definition many_rooms : list (socket_id * Request.t) :=
  [ (Ann, Request.createRoom "b" "Ann" "animals" (Some ["c1.png"]) (λ _, zero));
    (Bob, Request.createRoom "10" "Bob" "animals" (Some ["c1.png"]) (λ _, zero));
    (Cyd, Request.createRoom "2" "Cyd" "animals" (Some ["c1.png"]) (λ _, zero));
    (Dan, Request.createRoom "a" "Dan" "animals" (Some ["c1.png"]) (λ _, zero));
    (Eve, Request.createRoom "4294967295" "Eve" "animals" (Some ["c1.png"]) (λ _, zero));
    (Ann, Request.disconnect) ].

(** Bob answers Ann's card "b", "a", "a", "b" and "c"; Cyd answers it "b",
    "10", "2", "2", "10" and "b". *)
Definition tied_answers : list (socket_id * Request.t) :=
  three_player_round ++
  [ submits Bob "Bob" "b"; submits Bob "Bob" "a"; submits Bob "Bob" "a";
    submits Bob "Bob" "b"; submits Bob "Bob" "c";
    submits Cyd "Cyd" "b"; submits Cyd "Cyd" "10"; submits Cyd "Cyd" "2";
    submits Cyd "Cyd" "2"; submits Cyd "Cyd" "10"; submits Cyd "Cyd" "b" ].

(** Bob and Cyd both answer "x" to Ann's card, and Bob answers "y" too. *)
Definition grouped_answers : list (socket_id * Request.t) :=
  three_player_round ++
  [ submits Bob "Bob" "x"; submits Cyd "Cyd" "x"; submits Bob "Bob" "y" ].

(** * Properties *)

(** ** The shuffle *)

(** Rounding moves a product of a 53-bit mantissa and [n] by less than [n]. *)
Lemma round_double_close (m n : N) :
  (0 < n)%N → (m < 2 ^ 53 * n)%N →
  (round_double m < m + n)%N ∧ (m < round_double m + n)%N.
Proof.
  intros Hn Hm. unfold round_double.
  set (s := (N.size m - 53)%N).
  assert (m = N.shiftr m s * 2 ^ s + m mod 2 ^ s)%N as Hdiv.
  { rewrite N.shiftr_div_pow2. rewrite N.mul_comm. apply N.div_mod. apply N.pow_nonzero. lia. }
  assert (m mod 2 ^ s < 2 ^ s)%N as Hrem by (apply N.mod_lt, N.pow_nonzero; lia).
  set (q := N.shiftr m s) in *. set (rem := (m mod 2 ^ s)%N) in *.
  destruct (decide (s = 0%N)) as [Hs|Hs].
  { rewrite Hs in *. change (2 ^ 0)%N with 1%N in *.
    assert (rem = 0%N) as -> by lia. simpl. rewrite N.mul_1_r. lia. }
  assert (2 ^ s = 2 * 2 ^ (s - 1))%N as Hpow.
  { rewrite <-N.pow_succ_r'. f_equal. lia. }
  assert (2 ^ (s - 1) < n)%N as Hhalf.
  { assert (m ≠ 0%N) as Hm0 by (intros ->; simpl in s; lia).
    pose proof (N.size_log2 m Hm0) as Hsize.
    pose proof (N.log2_spec m ltac:(lia)) as [Hlog _].
    assert (N.log2 m = 53 + (s - 1))%N as Hl by lia.
    rewrite Hl, N.pow_add_r in Hlog. nia. }
  destruct (_ || _) eqn:Hup.
  - assert (2 ^ s ≤ 2 * rem)%N as Hge.
    { apply orb_true_iff in Hup as [H|H].
      - apply N.ltb_lt in H. lia.
      - apply andb_true_iff in H as [H _]. apply N.eqb_eq in H. lia. }
    nia.
  - assert (2 * rem ≤ 2 ^ s)%N as Hle.
    { apply orb_false_iff in Hup as [H _]. apply N.ltb_ge in H. lia. }
    nia.
Qed.

(** [Math.floor(Math.random() * n)] is an index below [n]: the product of
    a double below 1 and [n] is never rounded up to [n]. *)
Lemma floor_mul_lt (r : fraction) (n : nat) : 0 < n → floor_mul r n < n.
Proof.
  intros Hn. unfold floor_mul.
  pose proof (mantissa_bits r) as Hbits. apply N.ltb_lt in Hbits.
  pose proof (below_one r) as Hone. apply N.ltb_lt in Hone.
  destruct (round_double_close (mantissa r * N.of_nat n) (N.of_nat n)) as [Hup _]; [lia|nia|].
  assert (round_double (mantissa r * N.of_nat n) / 2 ^ exponent r < N.of_nat n)%N; [|lia].
  apply N.Div0.div_lt_upper_bound. nia.
Qed.

(** Rounding is seen: for the double [2573485501354569 / 2^52] the exact
    product with 7 is [4 - 2^-52], and the double nearest to it is 4. *)
Lemma floor_mul_rounds :
  floor_mul (Fraction 2573485501354569 52 eq_refl eq_refl eq_refl) 7 = 4
  ∧ (2573485501354569 * 7 / 2 ^ 52 = 3)%N.
Proof. split; vm_compute; reflexivity. Qed.

Section ShuffleFacts.
Context {A : Type}.
Implicit Types a : list A.

Lemma swap_perm i j a : swap i j a ≡ₚ a.
Proof.
  unfold swap.
  destruct (a !! i) as [x|] eqn:Hi; [|done].
  destruct (a !! j) as [y|] eqn:Hj; [|done].
  by apply Permutation_insert_swap.
Qed.

Lemma swap_length i j a : length (swap i j a) = length a.
Proof. apply Permutation_length, swap_perm. Qed.

(** Inside the loop both positions exist, so [swap] does exchange them. *)
Lemma swap_exchanges (r : fraction) i a :
  i < length a →
  ∃ x y, a !! i = Some x ∧ a !! floor_mul r (i + 1) = Some y ∧
         swap i (floor_mul r (i + 1)) a = <[floor_mul r (i + 1) := x]> (<[i := y]> a).
Proof.
  intros Hi.
  assert (floor_mul r (i + 1) < i + 1) as Hj by (apply floor_mul_lt; lia).
  destruct (lookup_lt_is_Some_2 a i Hi) as [x Hx].
  destruct (lookup_lt_is_Some_2 a (floor_mul r (i + 1)) ltac:(lia)) as [y Hy].
  exists x, y. unfold swap. by rewrite Hx, Hy.
Qed.

Lemma shuffle_from_perm i rand k a : shuffle_from i rand k a ≡ₚ a.
Proof.
  revert k a. induction i as [|i IH]; intros k a; simpl; [done|].
  rewrite IH. apply swap_perm.
Qed.
End ShuffleFacts.

(** C5. Whatever the deck and whatever [Math.random] returns, the shuffled
    deck has the length of the deck and is a permutation of it: the same
    cards, each as many times. *)
Theorem shuffle_is_permutation (rand : nat → fraction) (D : list string) :
  length (shuffle rand D) = length D ∧ shuffle rand D ≡ₚ D.
Proof.
  assert (shuffle rand D ≡ₚ D) as H by apply shuffle_from_perm.
  split; [by apply Permutation_length|done].
Qed.

(** ** Objects *)

Section ObjFacts.
Context {V : Type}.
Implicit Types (o : obj V) (k : string) (v : V).

Lemma own_put_eq o k v : own (put k v o) k = Some v.
Proof.
  induction o as [|[k' v'] o IH]; simpl.
  - by rewrite String.eqb_refl.
  - destruct (String.eqb k' k) eqn:E; simpl; rewrite E; [done|apply IH].
Qed.

Lemma own_put_ne o k k' v : k ≠ k' → own (put k v o) k' = own o k'.
Proof.
  intros Hne. induction o as [|[k0 v0] o IH]; simpl.
  - by apply String.eqb_neq in Hne as ->.
  - destruct (String.eqb k0 k) eqn:E; simpl; [|by rewrite IH].
    apply String.eqb_eq in E as ->. by apply String.eqb_neq in Hne as ->.
Qed.

Lemma own_remove_eq o k : own (remove k o) k = None.
Proof.
  unfold remove. induction o as [|[k' v'] o IH]; [done|].
  rewrite filter_cons. simpl. case_decide as Hk; [|done].
  simpl. by apply String.eqb_neq in Hk as ->.
Qed.

Lemma own_remove_ne o k k' : k ≠ k' → own (remove k o) k' = own o k'.
Proof.
  intros Hne. unfold remove. induction o as [|[k0 v0] o IH]; [done|].
  rewrite filter_cons. simpl. case_decide as Hk; simpl.
  - by rewrite IH.
  - assert (k0 = k) as -> by (destruct (decide (k0 = k)); done).
    by apply String.eqb_neq in Hne as ->.
Qed.

Lemma own_is_Some o k : is_Some (own o k) ↔ k ∈ o.*1.
Proof.
  induction o as [|[k' v'] o IH]; csimpl.
  - split; [by intros [? ?]|by intros ?%elem_of_nil].
  - rewrite elem_of_cons. destruct (String.eqb k' k) eqn:E.
    + apply String.eqb_eq in E as ->. split; eauto.
    + apply String.eqb_neq in E. rewrite IH. split; [by right|].
      intros [->|?]; done.
Qed.

Lemma own_None o k : own o k = None ↔ k ∉ o.*1.
Proof. rewrite <-own_is_Some, eq_None_not_Some. done. Qed.

Lemma put_keys_present o k v : is_Some (own o k) → (put k v o).*1 = o.*1.
Proof.
  induction o as [|[k' v'] o IH]; csimpl; [by intros [? ?]|].
  destruct (String.eqb k' k) eqn:E; csimpl; [done|].
  intros H. by rewrite IH.
Qed.

Lemma put_keys_absent o k v : own o k = None → (put k v o).*1 = o.*1 ++ [k].
Proof.
  induction o as [|[k' v'] o IH]; csimpl; [done|].
  destruct (String.eqb k' k) eqn:E; csimpl; [done|].
  intros H. by rewrite IH.
Qed.

Lemma remove_keys o k : (remove k o).*1 = filter (λ k', k' ≠ k) o.*1.
Proof.
  unfold remove. induction o as [|[k' v'] o IH]; [done|].
  rewrite filter_cons. simpl. rewrite filter_cons.
  case_decide; csimpl; by rewrite IH.
Qed.

Lemma get_Own o k v : get o k = Own v ↔ own o k = Some v.
Proof.
  unfold get. destruct (own o k); [split; congruence|].
  destruct (inherited k); split; congruence.
Qed.

Lemma get_Undefined o k : get o k = Undefined ↔ own o k = None ∧ inherited k = false.
Proof.
  unfold get. destruct (own o k); [split; [|intros []]; congruence|].
  destruct (inherited k); split; try congruence; by intros [].
Qed.
End ObjFacts.

(** ** Room creation *)

(** [createRoom] either answers with one error and leaves the registry as
    it was, or stores the new room under [roomId]. *)
Lemma createRoom_outcomes sid roomId playerName deckName listing rand rooms :
  (∃ reason,
     createRoom sid roomId playerName deckName listing rand rooms
     = Done rooms [(ToSender, Event.error reason)]
     ∧ (get rooms roomId ≠ Undefined ∨ listing = None))
  ∨ (∃ files r,
       get rooms roomId = Undefined ∧ listing = Some files
       ∧ r = Room [Player sid playerName 0] (shuffle rand (List.filter is_image files))
                  (Idx 0) [] deckName None 1 ∅
       ∧ createRoom sid roomId playerName deckName listing rand rooms
         = Done (put roomId r rooms)
                [(ToEveryone, Event.roomsList (keys (put roomId r rooms)));
                 (ToRoom roomId, Event.updatePlayers [Player sid playerName 0])]).
Proof.
  unfold createRoom. destruct (get rooms roomId) as [r| |].
  - left. eexists. split; [done|]. by left.
  - left. eexists. split; [done|]. by left.
  - destruct listing as [files|].
    + right. by eexists _, _.
    + left. eexists. split; [done|]. by right.
Qed.

(** C7, as amended. When [rooms[roomId]] reads as undefined and the deck
    folder can be listed, the first of two back-to-back [createRoom] events
    for [roomId] succeeds and stores the new room; the second one, whatever
    it carries, is answered "Room already exists" and leaves the registry,
    the new room included, as it was. *)
Theorem createRoom_exclusive (rooms : obj room) (roomId : string)
    (sid1 : socket_id) (name1 deck1 : string) (files : list string) (rand1 : nat → fraction)
    (sid2 : socket_id) (name2 deck2 : string) (listing2 : option (list string))
    (rand2 : nat → fraction) :
  get rooms roomId = Undefined →
  let created := Room [Player sid1 name1 0] (shuffle rand1 (List.filter is_image files))
                      (Idx 0) [] deck1 None 1 ∅ in
  let rooms1 := put roomId created rooms in
  createRoom sid1 roomId name1 deck1 (Some files) rand1 rooms
    = Done rooms1 [(ToEveryone, Event.roomsList (keys rooms1));
                   (ToRoom roomId, Event.updatePlayers [Player sid1 name1 0])]
  ∧ own rooms1 roomId = Some created
  ∧ createRoom sid2 roomId name2 deck2 listing2 rand2 rooms1
    = Done rooms1 [(ToSender, Event.error "Room already exists")]
  ∧ exclusive_creation rooms
      (createRoom sid1 roomId name1 deck1 (Some files) rand1)
      (createRoom sid2 roomId name2 deck2 listing2 rand2).
Proof.
  intros Hget created rooms1.
  assert (createRoom sid1 roomId name1 deck1 (Some files) rand1 rooms
          = Done rooms1 [(ToEveryone, Event.roomsList (keys rooms1));
                         (ToRoom roomId, Event.updatePlayers [Player sid1 name1 0])]) as H1.
  { unfold createRoom. by rewrite Hget. }
  assert (own rooms1 roomId = Some created) as Hown by apply own_put_eq.
  assert (createRoom sid2 roomId name2 deck2 listing2 rand2 rooms1
          = Done rooms1 [(ToSender, Event.error "Room already exists")]) as H2.
  { unfold createRoom. apply get_Own in Hown. by rewrite Hown. }
  repeat split; try done.
  left. unfold exclusive_creation. rewrite H1. simpl. rewrite H2. simpl.
  repeat split; [|apply list_elem_of_here].
  intros reason Hin. apply elem_of_cons in Hin as [Hin|Hin]; [done|].
  apply elem_of_cons in Hin as [Hin|Hin]; [done|]. by apply elem_of_nil in Hin.
Qed.

Lemma createRoom_exclusive_witness :
  get (empty : obj room) "r" = Undefined ∧
  exclusive_creation empty
    (createRoom Ann "r" "Ann" "animals" (Some ["c1.png"; "c2.jpg"]) (λ _, zero))
    (createRoom Bob "r" "Bob" "animals" (Some ["c1.png"; "c2.jpg"]) (λ _, zero)).
Proof.
  split; [reflexivity|].
  apply (createRoom_exclusive empty "r" Ann "Ann" "animals" ["c1.png"; "c2.jpg"]
           (λ _, zero) Bob "Bob" "animals" (Some ["c1.png"; "c2.jpg"]) (λ _, zero)).
  reflexivity.
Defined.

(** C7, as stated, fails on the empty registry when the deck folder cannot
    be listed: both events are answered "Failed to load deck images". *)
Lemma createRoom_twice_without_deck :
  ¬ exclusive_creation empty
      (createRoom Ann "r" "Ann" "nowhere" None (λ _, zero))
      (createRoom Ann "r" "Ann" "nowhere" None (λ _, zero)).
Proof.
  unfold exclusive_creation. simpl. intros [(H & _)|(H & _)].
  - apply (H "Failed to load deck images"), list_elem_of_here.
  - apply elem_of_cons in H as [H|H]; [done|]. by apply elem_of_nil in H.
Qed.

(** ** The turn index *)

Lemma registry_sound_valid rooms : registry_sound rooms → registry_valid rooms.
Proof. intros H roomId r Hr _. by eapply H. Qed.

Lemma registry_sound_put rooms roomId r :
  registry_sound rooms → has_parent r → registry_sound (put roomId r rooms).
Proof.
  intros Hs Hr k r'. destruct (decide (roomId = k)) as [->|Hne].
  - rewrite own_put_eq. by intros [= <-].
  - rewrite own_put_ne by done. apply Hs.
Qed.

Lemma registry_sound_remove rooms roomId :
  registry_sound rooms → registry_sound (remove roomId rooms).
Proof.
  intros Hs k r'. destruct (decide (roomId = k)) as [->|Hne].
  - by rewrite own_remove_eq.
  - rewrite own_remove_ne by done. apply Hs.
Qed.

Lemma endGame_sound roomId rooms rooms' out :
  registry_sound rooms → endGame roomId rooms = Done rooms' out → registry_sound rooms'.
Proof.
  intros Hs. unfold endGame. destruct (get rooms roomId); intros [= <- <-]; [|done].
  by apply registry_sound_remove.
Qed.

Lemma award_length acc playerId : length (award acc playerId).1 = length acc.1.
Proof.
  unfold award. destruct (list_find _ _) as [[i p]|]; [|done].
  simpl. by rewrite length_insert.
Qed.

Lemma foldl_award_length acc playerIds :
  length (foldl award acc playerIds).1 = length acc.1.
Proof.
  revert acc. induction playerIds as [|pid pids IH]; intros acc; [done|].
  simpl. rewrite IH. apply award_length.
Qed.

Lemma score_length selected r : length (score selected r).1 = length (players r).
Proof.
  unfold score. destruct (find_group _ _) as [[i g]|]; [|done].
  apply foldl_award_length.
Qed.

Lemma player_at_is_Some ps i :
  is_Some (player_at ps i) ↔ ∃ n, i = Idx n ∧ n < length ps.
Proof.
  destruct i as [n|]; simpl.
  - rewrite lookup_lt_is_Some. split; [by exists n|]. by intros (? & [= <-] & ?).
  - split; [by intros [? ?]|]. by intros (? & ? & ?).
Qed.

Lemma next_index_is_Some ps i n :
  i = Idx n → ps ≠ [] → is_Some (player_at ps (next_index i (length ps))).
Proof.
  intros -> Hps. destruct ps as [|p ps]; [done|].
  apply player_at_is_Some. eexists. split; [done|].
  apply Nat.mod_upper_bound. done.
Qed.

(** X7. Every event but a disconnection keeps each room with a parent:
    when every room has a player at its parent index before the event, every
    room has one after it. *)
Theorem handle_keeps_parent sid req rooms rooms' out :
  req ≠ Request.disconnect →
  registry_sound rooms →
  handle sid req rooms = Done rooms' out →
  registry_sound rooms'.
Proof.
  intros Hreq Hs. destruct req; simpl; try done.
  - (* createRoom *)
    unfold createRoom. destruct (get rooms roomId); try by intros [= <- <-].
    destruct listing; intros [= <- <-]; [|done].
    apply registry_sound_put; [done|]. by eexists.
  - (* joinRoom *)
    unfold joinRoom. destruct (get rooms roomId) as [r| |] eqn:Hget; try by intros [= <- <-].
    apply get_Own in Hget. apply Hs in Hget.
    destruct (existsb _ _); intros [= <- <-]; [done|].
    apply registry_sound_put; [done|].
    unfold has_parent in *. simpl.
    apply player_at_is_Some in Hget as (n & Hn & Hlt).
    apply player_at_is_Some. exists n. rewrite length_app. split; [done|lia].
  - (* startGame *)
    unfold startGame. destruct (get rooms roomId) as [r| |] eqn:Hget; try by intros [= <- <-].
    apply get_Own in Hget. apply Hs in Hget. intros [= <- <-].
    apply registry_sound_put; [done|].
    apply player_at_is_Some in Hget as (n & Hn & Hlt).
    apply player_at_is_Some. eexists. split; [done|].
    apply floor_mul_lt. simpl. lia.
  - (* drawCard *)
    unfold drawCard. destruct (get rooms roomId) as [r| |] eqn:Hget; try by intros [= <- <-].
    apply get_Own in Hget. apply Hs in Hget.
    destruct (player_at _ _) as [p|] eqn:Hp; [|done].
    case_bool_decide; [by intros [= <- <-]|].
    destruct (last (deck r)) as [card|]; [|by apply endGame_sound].
    assert (registry_sound (put roomId (with_deck (removelast (deck r)) r) rooms)) as Hs'.
    { apply registry_sound_put; [done|]. exact Hget. }
    destruct (String.eqb card ""); [by apply endGame_sound|].
    intros [= <- <-]. apply registry_sound_put; [done|]. exact Hget.
  - (* submitOnomatopoeia *)
    unfold submitOnomatopoeia.
    destruct (get rooms roomId) as [r| |] eqn:Hget; try by intros [= <- <-].
    apply get_Own in Hget. apply Hs in Hget.
    set (r' := record_submission sid word r).
    assert (players r' = players r ∧ currentTurnPlayerIndex r' = currentTurnPlayerIndex r)
      as [Hps Hidx].
    { unfold r', record_submission, record_group, record_usage. destruct (find_group _ _) as [[i g]|]; [|done].
      by case_bool_decide. }
    assert (registry_sound (put roomId r' rooms)) as Hs'.
    { apply registry_sound_put; [done|]. unfold has_parent. by rewrite Hps, Hidx. }
    destruct (_ =? _)%nat; [|by intros [= <- <-]].
    destruct (player_at _ _); [|done].
    by destruct (live _); intros [= <- <-].
  - (* chooseOnomatopoeia *)
    unfold chooseOnomatopoeia.
    destruct (get rooms roomId) as [r| |] eqn:Hget; try by intros [= <- <-].
    apply get_Own in Hget. apply Hs in Hget. simpl.
    destruct (player_at (score selected r).1 _) as [p|] eqn:Hp; [|done].
    intros [= <- <-]. apply registry_sound_put; [done|].
    unfold has_parent. simpl. by rewrite Hp.
  - (* nextTurn *)
    unfold nextTurn. destruct (get rooms roomId) as [r| |] eqn:Hget; try by intros [= <- <-].
    apply get_Own in Hget. apply Hs in Hget. intros [= <- <-].
    apply registry_sound_put; [done|].
    apply player_at_is_Some in Hget as (n & Hn & Hlt).
    eapply next_index_is_Some; [done|]. intros Hnil. simpl in Hnil. rewrite Hnil in Hlt.
    simpl in Hlt. lia.
  - (* getRooms *)
    by intros [= <- <-].
  - (* the callback of chooseOnomatopoeia *)
    unfold chooseOnomatopoeia_finally. destruct held as [|r0].
    + destruct (own rooms roomId) as [r|] eqn:Hown; [|by intros [= <- <-]].
      pose proof (Hs _ _ Hown) as Hparent. simpl.
      destruct (_ =? _)%nat.
      * destruct (endGame _ _) as [rooms1 out1|] eqn:Hend; [|done].
        intros [= <- <-]. eapply endGame_sound; [|done].
        by apply registry_sound_put.
      * intros [= <- <-]. apply registry_sound_put; [done|].
        apply player_at_is_Some in Hparent as (n & Hn & Hlt).
        eapply next_index_is_Some; [done|]. intros Hnil. simpl in Hnil.
        rewrite Hnil in Hlt. simpl in Hlt. lia.
    + simpl. destruct (_ =? _)%nat; [|by intros [= <- <-]].
      destruct (endGame _ _) as [rooms1 out1|] eqn:Hend; [|done].
      intros [= <- <-]. by eapply endGame_sound.
Qed.

(** C2 fails on a disconnection. In a room of Ann and Bob with Bob the
    parent (index 1, the invariant holding), Bob disconnects: the handler
    filters him out of [players] and leaves [currentTurnPlayerIndex] at 1,
    past the one player who remains; the next [drawCard] throws. *)
Theorem disconnect_leaves_index_dangling :
  ∃ rooms rooms' out r',
    run two_player_game empty = Some rooms
    ∧ registry_valid rooms
    ∧ handle Bob Request.disconnect rooms = Done rooms' out
    ∧ own rooms' "r" = Some r'
    ∧ players r' = [Player Ann "Ann" 0]
    ∧ currentTurnPlayerIndex r' = Idx 1
    ∧ ¬ index_valid r'
    ∧ handle Ann (Request.drawCard "r") rooms' = Throws.
Proof.
  eexists _, _, _, _. split; [vm_compute; reflexivity|].
  split.
  { intros roomId r Hr _. cbn [own] in Hr.
    destruct (String.eqb _ _); [|done]. injection Hr as <-. by eexists. }
  split; [vm_compute; reflexivity|]. split; [vm_compute; reflexivity|].
  split; [reflexivity|]. split; [reflexivity|].
  split; [|vm_compute; reflexivity].
  intros H. destruct H as [p Hp]; [done|]. discriminate Hp.
Qed.

(** ** The completion check *)

(** C1 fails: the check of [submitOnomatopoeia] compares the number of
    group memberships with [players.length - 1] after every submission.
    With Ann the parent of Bob and Cyd:
    - Bob answers "x" and then "y": the list goes to Ann although Bob is the
      only contributor, and when Cyd then answers "z", the second
      contributor of two, nothing is sent;
    - Bob and Cyd both answer "x": the list goes to Ann once Cyd has
      answered, and again when Cyd repeats "x". *)
Theorem completion_check_counts_memberships :
  let early := three_player_round ++ [submits Bob "Bob" "x"] in
  let both := [ {| onomatopoeia := "x"; playerIds := [Bob] |};
                {| onomatopoeia := "y"; playerIds := [Bob] |} ] in
  let full := three_player_round ++ [submits Bob "Bob" "x"; submits Cyd "Cyd" "x"] in
  let same := [ {| onomatopoeia := "x"; playerIds := [Bob; Cyd] |} ] in
  (deliveries <$> reply three_player_round Bob (submits Bob "Bob" "x").2) = Some []
  ∧ (deliveries <$> reply early Bob (submits Bob "Bob" "y").2) = Some [(Ann, both)]
  ∧ contributors both = [Bob]
  ∧ (deliveries <$> reply (early ++ [submits Bob "Bob" "y"]) Cyd (submits Cyd "Cyd" "z").2)
    = Some []
  ∧ (deliveries <$> reply (three_player_round ++ [submits Bob "Bob" "x"])
                          Cyd (submits Cyd "Cyd" "x").2) = Some [(Ann, same)]
  ∧ (deliveries <$> reply full Cyd (submits Cyd "Cyd" "x").2) = Some [(Ann, same)].
Proof. repeat split; vm_compute; reflexivity. Qed.

(** ** Choosing after a disconnection *)

(** C10 fails: with Cyd the parent at index 2 and a group "x" of Ann and
    Bob, Bob's disconnection leaves two players and the index at 2. Bob's id
    in the group is stale, and [chooseOnomatopoeia] does not complete: it
    reads [parentPlayer.id] of a player that does not exist. *)
Theorem chooseOnomatopoeia_throws_on_stale_round :
  ∃ rooms r g,
    run (parent_last_round ["c1.png"; "c2.jpg"]) empty = Some rooms
    ∧ own rooms "r" = Some r
    ∧ find_group "x" (onomatopoeiaList r) = Some (0, g)
    ∧ playerIds g = [Ann; Bob]
    ∧ id <$> players r = [Ann; Cyd]
    ∧ currentTurnPlayerIndex r = Idx 2
    ∧ handle Cyd (Request.chooseOnomatopoeia "r" "x") rooms = Throws.
Proof.
  eexists _, _, _. split; [vm_compute; reflexivity|].
  repeat split; vm_compute; reflexivity.
Qed.

(** C4 fails in the same way once the deck is empty: the one card of the
    deck has been drawn, Bob has left, and Cyd's choice neither announces
    the end of the game nor removes the room; the handler throws. *)
Theorem chooseOnomatopoeia_throws_on_empty_deck :
  ∃ rooms r,
    run (parent_last_round ["c1.png"]) empty = Some rooms
    ∧ own rooms "r" = Some r
    ∧ deck r = []
    ∧ id <$> players r = [Ann; Cyd]
    ∧ currentTurnPlayerIndex r = Idx 2
    ∧ handle Cyd (Request.chooseOnomatopoeia "r" "x") rooms = Throws.
Proof.
  eexists _, _. split; [vm_compute; reflexivity|].
  repeat split; vm_compute; reflexivity.
Qed.

(** ** Scoring *)

Lemma seat_Some ps pid j :
  seat ps pid = Some j ↔
  ∃ p, ps !! j = Some p ∧ id p = pid ∧ ∀ i q, ps !! i = Some q → i < j → id q ≠ pid.
Proof.
  unfold seat. split.
  - destruct (list_find _ ps) as [[i p]|] eqn:Hfind; [|done].
    intros [= <-]. apply list_find_Some in Hfind. by exists p.
  - intros (p & Hp & Hid & Hfirst).
    assert (list_find (λ p, id p = pid) ps = Some (j, p)) as ->; [|done].
    by apply list_find_Some.
Qed.

Lemma seat_add_point ps pid i q :
  ps !! i = Some q → seat (<[i := add_point q]> ps) pid = seat ps pid.
Proof.
  intros Hq. unfold seat.
  assert (∀ l, fst <$> list_find (λ p, id p = pid) l
               = fst <$> list_find (λ x, x = pid) (id <$> l)) as Hids.
  { intros l. rewrite list_find_fmap. by destruct (list_find _ l) as [[? ?]|]. }
  rewrite !Hids, list_fmap_insert. simpl.
  rewrite list_insert_id; [done|]. by rewrite list_lookup_fmap, Hq.
Qed.

Lemma foldl_award_lookup ids ps names j p :
  NoDup ids →
  ps !! j = Some p →
  (foldl award (ps, names) ids).1 !! j
  = Some (if bool_decide (id p ∈ ids ∧ seat ps (id p) = Some j) then add_point p else p).
Proof.
  revert ps names p. induction ids as [|pid ids IH]; intros ps names p Hnd Hp.
  { simpl. by rewrite Hp. }
  apply NoDup_cons in Hnd as [Hpid Hnd]. simpl. unfold award at 2. simpl.
  destruct (list_find (λ p0, id p0 = pid) ps) as [[i q]|] eqn:Hfind.
  - pose proof Hfind as Hseat.
    apply list_find_Some in Hfind as (Hq & Hidq & Hfirst).
    assert (seat ps pid = Some i) as Hsi by (apply seat_Some; eauto).
    destruct (decide (j = i)) as [->|Hne].
    + assert (p = q) as <- by congruence.
      erewrite IH; [|done|apply list_lookup_insert_eq; by eapply lookup_lt_Some].
      simpl. rewrite Hidq.
      rewrite bool_decide_eq_false_2 by (by intros [? _]).
      rewrite bool_decide_eq_true_2; [done|].
      split; [apply list_elem_of_here|done].
    + erewrite IH; [|done|by rewrite list_lookup_insert_ne].
      rewrite seat_add_point by done.
      erewrite bool_decide_ext; [done|].
      rewrite elem_of_cons. split; [intros [? ?]; eauto|].
      intros [[Heq|?] Hs]; [|done]. rewrite Heq, Hsi in Hs. congruence.
  - erewrite IH by done.
    erewrite bool_decide_ext; [done|].
    rewrite elem_of_cons. split; [intros [? ?]; eauto|].
    intros [[Heq|?] Hs]; [|done].
    apply list_find_None in Hfind. rewrite Forall_lookup in Hfind.
    by destruct (Hfind j p Hp).
Qed.

Lemma omap_pointwise {A B} (f g : A → option B) (l : list A) :
  (∀ x, f x = g x) → omap f l = omap g l.
Proof.
  intros Hfg. induction l as [|x l IH]; [done|]. csimpl. by rewrite Hfg, IH.
Qed.

(** [chosenNames]: the names of the players found for the submitter ids, in
    the order of the ids; an id that no player holds adds none. *)
Lemma foldl_award_names ids ps names :
  (foldl award (ps, names) ids).2
  = names ++ omap (λ pid, name <$> (seat ps pid ≫= (ps !!.))) ids.
Proof.
  revert ps names. induction ids as [|pid ids IH]; intros ps names.
  { simpl. by rewrite app_nil_r. }
  cbn [foldl]. csimpl.
  assert (seat ps pid = fst <$> list_find (λ p0, id p0 = pid) ps) as -> by done.
  unfold award. cbn [fst snd].
  destruct (list_find (λ p0, id p0 = pid) ps) as [[i q]|] eqn:Hfind; csimpl.
  - apply list_find_Some in Hfind as (Hq & _).
    rewrite IH, Hq. csimpl. rewrite <-app_assoc. csimpl. do 2 f_equal.
    apply omap_pointwise. intros pid'.
    rewrite seat_add_point by done.
    destruct (seat ps pid') as [k|]; [|done]. csimpl.
    destruct (decide (i = k)) as [<-|Hne].
    + rewrite list_lookup_insert_eq by (by eapply lookup_lt_Some). by rewrite Hq.
    + by rewrite list_lookup_insert_ne.
  - by rewrite IH.
Qed.

(** ** What [chooseOnomatopoeia] does to a room with a parent *)

Lemma remove_put {V} (o : obj V) k v : remove k (put k v o) = remove k o.
Proof.
  unfold remove. induction o as [|[k' v'] o IH]; simpl.
  - rewrite filter_cons. simpl. by rewrite decide_False by (by intros ?).
  - destruct (String.eqb k' k) eqn:E.
    + apply String.eqb_eq in E as ->. rewrite !filter_cons. simpl.
      by rewrite !decide_False by (by intros ?).
    + rewrite !filter_cons. simpl. by rewrite IH.
Qed.

Lemma endGame_Own rooms roomId r :
  own rooms roomId = Some r →
  endGame roomId rooms
  = Done (remove roomId rooms)
         [(ToRoom roomId,
           Event.gameOver (filter (λ p, points p = maxPoints (players r)) (players r))
                          (players r) (foldl (summarize r) ∅ (players r)))].
Proof. intros Hown. unfold endGame. apply get_Own in Hown. by rewrite Hown. Qed.

Lemma score_keeps_parent selected r :
  has_parent r →
  is_Some (player_at (score selected r).1 (currentTurnPlayerIndex r)).
Proof.
  intros (n & Hn & Hlt)%player_at_is_Some. apply player_at_is_Some.
  exists n. by rewrite score_length.
Qed.

Lemma score_needs_parent selected r :
  is_Some (player_at (score selected r).1 (currentTurnPlayerIndex r)) → has_parent r.
Proof.
  intros (n & Hn & Hlt)%player_at_is_Some. apply player_at_is_Some.
  exists n. by rewrite <-(score_length selected r).
Qed.

Lemma award_ids_names acc playerId :
  id <$> (award acc playerId).1 = id <$> acc.1
  ∧ name <$> (award acc playerId).1 = name <$> acc.1.
Proof.
  unfold award. destruct (list_find _ _) as [[i p]|] eqn:Hfind; [|done].
  apply list_find_Some in Hfind as (Hp & _). simpl.
  rewrite !list_fmap_insert. simpl.
  split; (rewrite list_insert_id; [done|]; by rewrite list_lookup_fmap, Hp).
Qed.

Lemma foldl_award_ids_names ids acc :
  id <$> (foldl award acc ids).1 = id <$> acc.1
  ∧ name <$> (foldl award acc ids).1 = name <$> acc.1.
Proof.
  revert acc. induction ids as [|pid ids IH]; intros acc; [done|].
  simpl. destruct (IH (award acc pid)) as [-> ->]. apply award_ids_names.
Qed.

Lemma score_ids_names selected r :
  id <$> (score selected r).1 = id <$> players r
  ∧ name <$> (score selected r).1 = name <$> players r.
Proof.
  unfold score. destruct (find_group _ _) as [[i g]|]; [|done].
  apply (foldl_award_ids_names (playerIds g) (players r, [])).
Qed.

Lemma put_put {V} (o : obj V) k v v' : put k v' (put k v o) = put k v' o.
Proof.
  induction o as [|[k0 v0] o IH]; simpl.
  - by rewrite String.eqb_refl.
  - destruct (String.eqb k0 k) eqn:E; simpl; rewrite E; [done|by rewrite IH].
Qed.

(** The handler, in a room with a parent *)
Lemma chooseOnomatopoeia_spec rooms roomId selected r :
  own rooms roomId = Some r →
  has_parent r →
  ∃ parent,
    player_at (score selected r).1 (currentTurnPlayerIndex r) = Some parent ∧
    chooseOnomatopoeia roomId selected rooms
    = Done (put roomId (with_players (score selected r).1 r) rooms)
           [(ToFirestore,
             Event.choiceDoc roomId (roundCount r) (id parent) (name parent) selected
                             (score selected r).2 (currentCard r))].
Proof.
  intros Hown Hparent.
  destruct (score_keeps_parent selected r Hparent) as [parent Hp].
  exists parent. split; [done|].
  unfold chooseOnomatopoeia. apply get_Own in Hown. rewrite Hown. simpl. by rewrite Hp.
Qed.

(** The handler completes in a room with a parent, and in no other room. *)
Lemma chooseOnomatopoeia_outcome rooms roomId selected r :
  own rooms roomId = Some r →
  match chooseOnomatopoeia roomId selected rooms with
  | Done rooms' _ =>
      has_parent r ∧ rooms' = put roomId (with_players (score selected r).1 r) rooms
  | Throws => ¬ has_parent r
  end.
Proof.
  intros Hown. unfold chooseOnomatopoeia. pose proof Hown as Hget.
  apply get_Own in Hget. rewrite Hget. simpl.
  destruct (player_at (score selected r).1 _) as [p|] eqn:Hp.
  - split; [|done]. apply (score_needs_parent selected). by rewrite Hp.
  - intros Hparent. apply (score_keeps_parent selected) in Hparent as [p' Hp']. congruence.
Qed.

(** The callback, on a room that is still registered *)
Lemma chooseOnomatopoeia_finally_spec rooms roomId chosenNames r :
  own rooms roomId = Some r →
  chooseOnomatopoeia_finally roomId chosenNames Registered rooms
  = match deck r with
    | [] =>
        Done (remove roomId rooms)
             [(ToRoom roomId, Event.onomatopoeiaChosen chosenNames (players r));
              (ToRoom roomId,
               Event.gameOver (filter (λ p, points p = maxPoints (players r)) (players r))
                              (players r) (foldl (summarize r) ∅ (players r)))]
    | _ :: _ =>
        Done (put roomId (turned (players r) r) rooms)
             [(ToRoom roomId, Event.onomatopoeiaChosen chosenNames (players r));
              (ToRoom roomId,
               Event.newTurn
                 (player_at (players r)
                    (next_index (currentTurnPlayerIndex r) (length (players r)))))]
    end.
Proof.
  intros Hown. unfold chooseOnomatopoeia_finally. rewrite Hown.
  destruct (deck r) as [|card cards] eqn:Hdeck; simpl; rewrite Hdeck; simpl; [|done].
  erewrite endGame_Own by apply own_put_eq. simpl. by rewrite remove_put.
Qed.




(** The ids of a room have to be different for this: [joinRoom] lets a
    socket sit twice, and of the two players with Bob's id only the first
    gains the point of Bob's answer. *)
Lemma second_seat_scores_nothing :
  ∃ rooms r,
    run two_seats empty = Some rooms
    ∧ own rooms "r" = Some r
    ∧ id <$> players r = [Ann; Bob; Bob]
    ∧ points <$> (score "x" r).1 = [0; 1; 0]
    ∧ ¬ scored_as_specified r "x".
Proof.
  eexists _, _. split; [vm_compute; reflexivity|].
  split; [vm_compute; reflexivity|].
  split; [reflexivity|]. split; [reflexivity|].
  intros H. specialize (H 2 (Player Bob "Bobby" 0) eq_refl). vm_compute in H. discriminate H.
Qed.

(** The winners announced by [endGame] are the players no one outscores. *)
Lemma winners_are_the_best (ps : list player) (p : player) :
  p ∈ filter (λ q, points q = maxPoints ps) ps ↔
  p ∈ ps ∧ ∀ q, q ∈ ps → (points q ≤ points p)%nat.
Proof.
  rewrite list_elem_of_filter. unfold maxPoints. split.
  - intros [Hmax Hin]. split; [done|]. intros q Hq. rewrite Hmax.
    apply max_list_elem_of_le, list_elem_of_fmap. eauto.
  - intros [Hin Hbest]. split; [|done].
    apply Nat.le_antisymm.
    + apply max_list_elem_of_le, list_elem_of_fmap. eauto.
    + assert (points <$> ps ≠ []) as Hne by (destruct ps; [by apply elem_of_nil in Hin|done]).
      apply max_list_elem_of, list_elem_of_fmap in Hne as (q & -> & Hq). by apply Hbest.
Qed.

(** X14. The parent draws from an empty deck: the game is over, the room
    is told the winners, and the room is removed. *)
Lemma drawCard_on_empty_deck rooms roomId r parent :
  own rooms roomId = Some r →
  player_at (players r) (currentTurnPlayerIndex r) = Some parent →
  deck r = [] →
  drawCard (id parent) roomId rooms
  = Done (remove roomId rooms)
         [(ToRoom roomId,
           Event.gameOver (filter (λ p, points p = maxPoints (players r)) (players r))
                          (players r) (foldl (summarize r) ∅ (players r)))]
  ∧ own (remove roomId rooms) roomId = None.
Proof.
  intros Hown Hparent Hdeck. split; [|apply own_remove_eq].
  unfold drawCard. pose proof Hown as Hget. apply get_Own in Hget. rewrite Hget, Hparent.
  rewrite bool_decide_eq_false_2 by (by intros ?). rewrite Hdeck. simpl.
  by apply endGame_Own.
Qed.

(** X15. When the promise of a choice settles on a room that is still
    registered and whose deck is empty, the callback announces the chosen
    players with the players of the room as they are by then, ends the
    game and deletes the room. When no event is handled between the handler
    and its callback, these are the players the handler has just scored. *)
Lemma chooseOnomatopoeia_on_empty_deck rooms roomId chosenNames r :
  own rooms roomId = Some r →
  deck r = [] →
  chooseOnomatopoeia_finally roomId chosenNames Registered rooms
  = Done (remove roomId rooms)
         [(ToRoom roomId, Event.onomatopoeiaChosen chosenNames (players r));
          (ToRoom roomId,
           Event.gameOver (filter (λ p, points p = maxPoints (players r)) (players r))
                          (players r) (foldl (summarize r) ∅ (players r)))]
  ∧ own (remove roomId rooms) roomId = None
  ∧ (∀ selected,
       has_parent r →
       let scored := score selected r in
       ∃ choiceData rooms1,
         chooseOnomatopoeia roomId selected rooms = Done rooms1 [(ToFirestore, choiceData)]
         ∧ chooseOnomatopoeia_finally roomId scored.2 Registered rooms1
           = Done (remove roomId rooms)
                  [(ToRoom roomId, Event.onomatopoeiaChosen scored.2 scored.1);
                   (ToRoom roomId,
                    Event.gameOver (filter (λ p, points p = maxPoints scored.1) scored.1)
                                   scored.1 (foldl (summarize r) ∅ scored.1))]).
Proof.
  intros Hown Hdeck. split; [|split; [apply own_remove_eq|]].
  - rewrite (chooseOnomatopoeia_finally_spec rooms roomId chosenNames r Hown).
    by rewrite Hdeck.
  - intros selected Hparent scored.
    destruct (chooseOnomatopoeia_spec rooms roomId selected r Hown Hparent)
      as (parent & _ & Hchoose).
    eexists _, _. split; [exact Hchoose|].
    rewrite (chooseOnomatopoeia_finally_spec _ roomId _ (with_players scored.1 r))
      by apply own_put_eq.
    cbn [deck with_players]. rewrite Hdeck. by rewrite remove_put.
Qed.

(** X16. A choice in a room with a parent completes; the ids of the chosen
    group that no player holds give no point and no name: the handler
    stores the players so scored and logs the names, and the callback, when
    it runs before any other event, broadcasts both. *)
Lemma chooseOnomatopoeia_skips_stale_ids rooms roomId selected r i g :
  own rooms roomId = Some r →
  has_parent r →
  find_group selected (onomatopoeiaList r) = Some (i, g) →
  ∃ parent rooms1 updatedPlayers chosenNames rooms2 rest,
    chooseOnomatopoeia roomId selected rooms
    = Done rooms1
           [(ToFirestore,
             Event.choiceDoc roomId (roundCount r) (id parent) (name parent) selected
                             chosenNames (currentCard r))]
    ∧ own rooms1 roomId = Some (with_players updatedPlayers r)
    ∧ chooseOnomatopoeia_finally roomId chosenNames Registered rooms1
      = Done rooms2
             ((ToRoom roomId, Event.onomatopoeiaChosen chosenNames updatedPlayers) :: rest)
    ∧ chosenNames
      = omap (λ pid, name <$> (seat (players r) pid ≫= (players r !!.))) (playerIds g)
    ∧ (NoDup (playerIds g) →
       ∀ j p, players r !! j = Some p →
              updatedPlayers !! j
              = Some (if bool_decide (id p ∈ playerIds g ∧ seat (players r) (id p) = Some j)
                      then add_point p else p)).
Proof.
  intros Hown Hparent Hfind.
  destruct (chooseOnomatopoeia_spec rooms roomId selected r Hown Hparent)
    as (parent & _ & Hchoose).
  assert ((score selected r).2
          = omap (λ pid, name <$> (seat (players r) pid ≫= (players r !!.))) (playerIds g))
    as Hnames.
  { unfold score. rewrite Hfind. by rewrite foldl_award_names. }
  assert (NoDup (playerIds g) →
          ∀ j p, players r !! j = Some p →
                 (score selected r).1 !! j
                 = Some (if bool_decide (id p ∈ playerIds g ∧ seat (players r) (id p) = Some j)
                         then add_point p else p)) as Hpoints.
  { intros Hnd j p Hp. unfold score. rewrite Hfind. by apply foldl_award_lookup. }
  pose proof (chooseOnomatopoeia_finally_spec
                (put roomId (with_players (score selected r).1 r) rooms) roomId
                (score selected r).2 (with_players (score selected r).1 r)
                (own_put_eq _ _ _)) as Hfinally.
  cbn [deck players with_players] in Hfinally.
  destruct (deck r); eexists parent, _, _, _, _, _;
    (split; [exact Hchoose|]); (split; [apply own_put_eq|]);
    (split; [exact Hfinally|]); (split; [exact Hnames|exact Hpoints]).
Qed.

(** ** Recording a submission *)

Lemma inherited_proto word : inherited word = false → String.eqb word "__proto__" = false.
Proof.
  intros Hw. destruct (String.eqb word "__proto__") eqn:E; [|done].
  apply String.eqb_eq in E as ->. done.
Qed.

Lemma bump_count word usage :
  inherited word = false →
  own (bump word usage) word
  = match own usage word with
    | None => Some (Count 1)
    | Some (Count n) => Some (Count (n + 1))
    | Some Text => Some Text
    end.
Proof.
  intros Hw. unfold bump, get. rewrite (inherited_proto word Hw), Hw, own_put_eq.
  by destruct (own usage word) as [[n|]|].
Qed.

Lemma usageCount_record_submission r sid word c :
  inherited word = false →
  usageCount r sid word = Some c →
  usageCount (record_submission sid word r) sid word = Some (c + 1).
Proof.
  intros Hw. unfold usageCount.
  assert (stats (record_submission sid word r)
          = <[sid := bump word (default empty (stats r !! sid))]> (stats r)) as ->.
  { unfold record_submission, record_group.
    destruct (find_group _ _) as [[i g]|]; [|done]. by case_bool_decide. }
  rewrite lookup_insert_eq. simpl. rewrite bump_count by done.
  destruct (own _ word) as [[n|]|]; [|done|]; by intros [= <-].
Qed.

Lemma find_group_Some word groups i g :
  find_group word groups = Some (i, g) ↔
  groups !! i = Some g ∧ onomatopoeia g = word
  ∧ ∀ j g', groups !! j = Some g' → j < i → onomatopoeia g' ≠ word.
Proof. unfold find_group. by rewrite list_find_Some. Qed.

Lemma record_group_onomatopoeiaList sid word r :
  onomatopoeiaList (record_group sid word r)
  = match find_group word (onomatopoeiaList r) with
    | Some (i, g) =>
        if bool_decide (sid ∈ playerIds g) then onomatopoeiaList r
        else <[i := Group (onomatopoeia g) (playerIds g ++ [sid])]> (onomatopoeiaList r)
    | None => onomatopoeiaList r ++ [Group word [sid]]
    end.
Proof.
  unfold record_group. destruct (find_group _ _) as [[i g]|]; [|done]. by case_bool_decide.
Qed.

(** After a submission the text has a group and the submitter is in it. *)
Lemma record_group_member sid word r :
  ∃ i g, find_group word (onomatopoeiaList (record_group sid word r)) = Some (i, g)
         ∧ sid ∈ playerIds g.
Proof.
  rewrite record_group_onomatopoeiaList.
  destruct (find_group word (onomatopoeiaList r)) as [[i g]|] eqn:Hfind.
  - case_bool_decide as Hin; [by exists i, g|].
    exists i, (Group (onomatopoeia g) (playerIds g ++ [sid])).
    apply find_group_Some in Hfind as (Hg & Hword & Hfirst).
    split; [|simpl; apply elem_of_app; right; apply list_elem_of_here].
    apply find_group_Some. split; [|split; [done|]].
    + apply list_lookup_insert_eq. by eapply lookup_lt_Some.
    + intros j g' Hj Hlt. rewrite list_lookup_insert_ne in Hj by lia. by eapply Hfirst.
  - exists (length (onomatopoeiaList r)), (Group word [sid]).
    split; [|apply list_elem_of_here].
    unfold find_group in *. rewrite list_find_app_r by done. simpl.
    by rewrite decide_True by done.
Qed.

(** A submission that finds its submitter in the group of the text leaves
    the groups alone. *)
Lemma record_group_again sid word r i g :
  find_group word (onomatopoeiaList r) = Some (i, g) →
  sid ∈ playerIds g →
  record_group sid word r = r.
Proof.
  intros Hfind Hin. unfold record_group. rewrite Hfind.
  by rewrite bool_decide_eq_true_2.
Qed.

Lemma record_group_distinct sid word r :
  groups_distinct (onomatopoeiaList r) →
  groups_distinct (onomatopoeiaList (record_group sid word r)).
Proof.
  intros [Htexts Hids]. rewrite record_group_onomatopoeiaList.
  destruct (find_group word (onomatopoeiaList r)) as [[i g]|] eqn:Hfind.
  - case_bool_decide as Hin; [done|].
    apply find_group_Some in Hfind as (Hg & Hword & Hfirst). split.
    + rewrite list_fmap_insert. simpl.
      rewrite list_insert_id; [done|]. by rewrite list_lookup_fmap, Hg.
    + apply Forall_insert; [done|]. simpl.
      apply NoDup_app. split; [by eapply (Forall_lookup_1 _ _ _ _ Hids)|].
      split; [|apply NoDup_singleton].
      intros x Hx ->%list_elem_of_singleton. done.
  - apply list_find_None in Hfind. split.
    + rewrite fmap_app. simpl. apply NoDup_app. split; [done|].
      split; [|apply NoDup_singleton].
      intros x Hx ->%list_elem_of_singleton.
      apply list_elem_of_fmap in Hx as (g & Hword & Hg).
      rewrite Forall_forall in Hfind. by apply (Hfind g Hg).
    + apply Forall_app. split; [done|].
      apply Forall_singleton. simpl. apply NoDup_singleton.
Qed.

Lemma record_submission_frame sid word r :
  players (record_submission sid word r) = players r
  ∧ currentTurnPlayerIndex (record_submission sid word r) = currentTurnPlayerIndex r
  ∧ deck (record_submission sid word r) = deck r.
Proof.
  unfold record_submission, record_group, record_usage.
  destruct (find_group _ _) as [[i g]|]; [|done]. by case_bool_decide.
Qed.

Lemma submitOnomatopoeia_records sid roomId word playerName live rooms r rooms' out :
  own rooms roomId = Some r →
  submitOnomatopoeia sid roomId word playerName live rooms = Done rooms' out →
  rooms' = put roomId (record_submission sid word r) rooms
  ∧ own rooms' roomId = Some (record_submission sid word r).
Proof.
  intros Hown%get_Own. unfold submitOnomatopoeia. rewrite Hown.
  assert (∀ rooms', rooms' = put roomId (record_submission sid word r) rooms →
                    rooms' = put roomId (record_submission sid word r) rooms
                    ∧ own rooms' roomId = Some (record_submission sid word r)) as Hput.
  { intros ? ->. split; [done|apply own_put_eq]. }
  destruct (_ =? _)%nat; [|intros [= <- <-]; by apply Hput].
  destruct (player_at _ _); [|done].
  destruct (live _); intros [= <- <-]; by apply Hput.
Qed.

Lemma submitOnomatopoeia_completes sid roomId word playerName live rooms r :
  own rooms roomId = Some r →
  has_parent r →
  ∃ out, submitOnomatopoeia sid roomId word playerName live rooms
         = Done (put roomId (record_submission sid word r) rooms) out.
Proof.
  intros Hown%get_Own [parent Hparent]. unfold submitOnomatopoeia. rewrite Hown.
  assert (players (record_submission sid word r) = players r
          ∧ currentTurnPlayerIndex (record_submission sid word r)
            = currentTurnPlayerIndex r) as [-> ->].
  { unfold record_submission, record_group, record_usage.
    destruct (find_group _ _) as [[i g]|]; [|done]. by case_bool_decide. }
  rewrite Hparent.
  destruct (_ =? _)%nat; [|by eexists]. destruct (live _); by eexists.
Qed.

(** X28. When the list goes to the parent: after a submission that leaves
    as many group memberships as there are players but one, the parent's
    socket being live; the answer goes to Firestore either way. *)
Lemma submitOnomatopoeia_delivers sid roomId word playerName live rooms r parent :
  own rooms roomId = Some r →
  player_at (players r) (currentTurnPlayerIndex r) = Some parent →
  let r1 := record_submission sid word r in
  submitOnomatopoeia sid roomId word playerName live rooms
  = Done (put roomId r1 rooms)
         ((ToFirestore,
           Event.answerDoc roomId (roundCount r1) (currentCard r1) word sid playerName)
          :: if (totalSubmissions (onomatopoeiaList r1) + 1 =? length (players r))%nat
                && live (id parent)
             then [(ToSocket (id parent), Event.onomatopoeiaList (onomatopoeiaList r1))]
             else []).
Proof.
  intros Hown%get_Own Hparent r1. unfold submitOnomatopoeia. rewrite Hown. fold r1.
  destruct (record_submission_frame sid word r) as (Hps & Hidx & _). fold r1 in Hps, Hidx.
  rewrite Hps, Hidx, Hparent.
  destruct (_ =? _)%nat; [|done]. by destruct (live _).
Qed.

(** A text that does not name a member of [Object.prototype] is counted
    every time and grouped once. When a player submits such a text twice and
    its usage entry, if there is one, holds a number [c] (0 if there is
    none), the count is [c + 1] after the first submission and [c + 2] after
    the second; the text has a group with the player in it after the first
    submission and the second leaves all groups as they were, so that, the
    groups being distinct before, they still are. In a room with a parent
    both [submitOnomatopoeia] events complete and store these rooms. *)
Theorem repeated_submission_counts_twice_groups_once
    (r : room) (sid : socket_id) (word : string) (c : nat) :
  inherited word = false →
  usageCount r sid word = Some c →
  let r1 := record_submission sid word r in
  let r2 := record_submission sid word r1 in
  usageCount r1 sid word = Some (c + 1)
  ∧ usageCount r2 sid word = Some (c + 2)
  ∧ (∃ i g, find_group word (onomatopoeiaList r1) = Some (i, g) ∧ sid ∈ playerIds g)
  ∧ onomatopoeiaList r2 = onomatopoeiaList r1
  ∧ (groups_distinct (onomatopoeiaList r) →
     groups_distinct (onomatopoeiaList r1) ∧ groups_distinct (onomatopoeiaList r2))
  ∧ (∀ rooms roomId playerName live,
       own rooms roomId = Some r → has_parent r →
       ∃ out1 out2,
         submitOnomatopoeia sid roomId word playerName live rooms
         = Done (put roomId r1 rooms) out1
         ∧ submitOnomatopoeia sid roomId word playerName live (put roomId r1 rooms)
           = Done (put roomId r2 (put roomId r1 rooms)) out2).
Proof.
  intros Hw Hc r1 r2.
  assert (usageCount r1 sid word = Some (c + 1)) as H1
    by (by apply usageCount_record_submission).
  assert (usageCount r2 sid word = Some (c + 2)) as H2.
  { replace (c + 2) with (c + 1 + 1) by lia. by apply usageCount_record_submission. }
  destruct (record_group_member sid word (record_usage sid word r)) as (i & g & Hfind & Hin).
  assert (onomatopoeiaList r2 = onomatopoeiaList r1) as Hsame.
  { unfold r2, record_submission at 1.
    by erewrite (record_group_again sid word (record_usage sid word r1)). }
  split; [done|]. split; [done|]. split; [by exists i, g|]. split; [done|].
  split.
  - intros Hd.
    assert (groups_distinct (onomatopoeiaList r1)) as Hd1
      by (by apply (record_group_distinct sid word (record_usage sid word r))).
    split; [done|]. by rewrite Hsame.
  - intros rooms roomId playerName live Hown Hparent.
    destruct (submitOnomatopoeia_completes sid roomId word playerName live rooms r
                Hown Hparent) as [out1 Hout1].
    assert (has_parent r1) as Hparent1.
    { unfold has_parent, r1.
      destruct (record_submission_frame sid word r) as (-> & -> & _). done. }
    destruct (submitOnomatopoeia_completes sid roomId word playerName live
                (put roomId r1 rooms) r1 (own_put_eq _ _ _) Hparent1) as [out2 Hout2].
    by exists out1, out2.
Qed.

Lemma repeated_submission_counts_twice_groups_once_witness :
  inherited "boing" = false
  ∧ usageCount answered_round Bob "boing" = Some 0
  ∧ usageCount (record_submission Bob "boing"
                  (record_submission Bob "boing" answered_round)) Bob "boing" = Some 2.
Proof.
  split; [reflexivity|]. split; [reflexivity|].
  exact (proj1 (proj2 (repeated_submission_counts_twice_groups_once
                         answered_round Bob "boing" 0 eq_refl eq_refl))).
Defined.

(** C6 fails on the text "constructor". Bob submits it twice to Ann's
    card: [usage["constructor"]] reads the function every object inherits,
    [(... || 0) + 1] makes a string of it, and what line 151 stores under
    the text is that string, where the count 2 should be; no submission ever
    stores a number for that text. The grouping is as the claim says. *)
Lemma constructor_is_never_counted :
  ∃ rooms rooms2 r r2,
    run three_player_round empty = Some rooms
    ∧ own rooms "r" = Some r
    ∧ run (three_player_round ++ [submits Bob "Bob" "constructor";
                                  submits Bob "Bob" "constructor"]) empty = Some rooms2
    ∧ own rooms2 "r" = Some r2
    ∧ r2 = record_submission Bob "constructor" (record_submission Bob "constructor" r)
    ∧ stats r2 !! Bob = Some [("constructor", Text)]
    ∧ ¬ counted_twice_grouped_once r Bob "constructor".
Proof.
  eexists _, _, _, _. split; [vm_compute; reflexivity|].
  split; [vm_compute; reflexivity|]. split; [vm_compute; reflexivity|].
  split; [vm_compute; reflexivity|]. split; [vm_compute; reflexivity|].
  split; [vm_compute; reflexivity|].
  intros (c & _ & H1 & _). vm_compute in H1. discriminate H1.
Qed.

(** ** The order of [Object.keys] *)

Lemma insert_index_perm e l : insert_index e l ≡ₚ e :: l.
Proof.
  induction l as [|e' l IH]; simpl; [done|].
  destruct (_ <=? _)%N; [done|]. rewrite IH. apply Permutation_swap.
Qed.

Lemma insert_index_sorted e l :
  StronglySorted (λ a b, (a.1 ≤ b.1)%N) l →
  StronglySorted (λ a b, (a.1 ≤ b.1)%N) (insert_index e l).
Proof.
  induction 1 as [|e' l Hsorted IH Hle]; simpl.
  - repeat constructor.
  - destruct (N.leb_spec e.1 e'.1) as [Hee'|Hee'].
    + constructor; [by constructor|].
      constructor; [done|]. eapply Forall_impl; [done|]. simpl. intros; lia.
    + constructor; [done|].
      rewrite insert_index_perm. constructor; [lia|done].
Qed.

Lemma tagged_keys ks : (omap tag_index ks).*2 = filter (λ k, is_Some (array_index k)) ks.
Proof.
  induction ks as [|k ks IH]; [done|]. csimpl. rewrite filter_cons. unfold tag_index at 1.
  case_decide as Hk.
  - destruct Hk as [n ->]. csimpl. by rewrite IH.
  - destruct (array_index k) as [n|]; [by destruct Hk|done].
Qed.

Lemma foldr_insert_index_perm l : foldr insert_index [] l ≡ₚ l.
Proof.
  induction l as [|e l IH]; [done|]. simpl. by rewrite insert_index_perm, IH.
Qed.

Lemma foldr_insert_index_sorted l :
  StronglySorted (λ a b, (a.1 ≤ b.1)%N) (foldr insert_index [] l).
Proof.
  induction l as [|e l IH]; simpl; [constructor|]. by apply insert_index_sorted.
Qed.

Lemma tag_index_Forall ks :
  Forall (λ e, array_index e.2 = Some e.1) (omap tag_index ks).
Proof.
  induction ks as [|k ks IH]; [done|]. csimpl. unfold tag_index at 1.
  destruct (array_index k) as [n|] eqn:Hk; csimpl; [|done]. by constructor.
Qed.

Lemma omap_array_index_tagged (l : list (N * string)) :
  Forall (λ e, array_index e.2 = Some e.1) l → omap array_index l.*2 = l.*1.
Proof. induction 1 as [|e l He _ IH]; [done|]. csimpl. by rewrite He, IH. Qed.

Lemma StronglySorted_fst (l : list (N * string)) :
  StronglySorted (λ a b, (a.1 ≤ b.1)%N) l → StronglySorted N.le l.*1.
Proof.
  induction 1 as [|e l _ IH Hle]; csimpl; [constructor|].
  constructor; [done|]. by apply Forall_fmap.
Qed.

(** The array indices come out as they went in, each once per occurrence. *)
Lemma index_keys_perm ks :
  index_keys ks ≡ₚ filter (λ k, is_Some (array_index k)) ks.
Proof.
  unfold index_keys. by rewrite foldr_insert_index_perm, tagged_keys.
Qed.

(** They come out in ascending numeric order. *)
Lemma index_keys_ascending ks :
  StronglySorted N.le (omap array_index (index_keys ks)).
Proof.
  unfold index_keys. rewrite omap_array_index_tagged.
  - apply StronglySorted_fst, foldr_insert_index_sorted.
  - rewrite foldr_insert_index_perm. apply tag_index_Forall.
Qed.

(** [Object.keys] loses no key and invents none. *)
Lemma enumeration_perm ks : enumeration ks ≡ₚ ks.
Proof.
  unfold enumeration, named_keys. rewrite index_keys_perm.
  induction ks as [|k ks IH]; [done|]. rewrite !filter_cons.
  case_decide as Hk; case_decide as Hk'.
  - destruct Hk as [n Hn]. congruence.
  - simpl. by rewrite IH.
  - rewrite <-Permutation_middle. by rewrite IH.
  - destruct (array_index k); [by destruct Hk|done].
Qed.

Lemma digit_of_Some c d : digit_of c = Some d → (N_of_ascii c = d + 48 ∧ d < 10)%N.
Proof.
  unfold digit_of. cbv zeta. destruct (_ && _) eqn:E; [|done]. intros [= <-].
  apply andb_true_iff in E as [H1 H2]. apply N.leb_le in H1, H2. lia.
Qed.

Lemma digit_of_inj c1 c2 d : digit_of c1 = Some d → digit_of c2 = Some d → c1 = c2.
Proof.
  intros [H1 _]%digit_of_Some [H2 _]%digit_of_Some.
  rewrite <-(ascii_N_embedding c1), <-(ascii_N_embedding c2). by rewrite H1, H2.
Qed.

Lemma digits_value_bounds s acc n :
  digits_value s acc = Some n →
  (acc * 10 ^ N.of_nat (String.length s) ≤ n < (acc + 1) * 10 ^ N.of_nat (String.length s))%N.
Proof.
  revert acc. induction s as [|c s IH]; intros acc; simpl.
  - intros [= <-]. lia.
  - destruct (digit_of c) as [d|] eqn:Hd; [|done]. intros H%IH.
    apply digit_of_Some in Hd as [_ Hd].
    rewrite Nat2N.inj_succ, N.pow_succ_r'. nia.
Qed.

Lemma digits_value_inj s1 s2 acc1 acc2 n :
  String.length s1 = String.length s2 →
  digits_value s1 acc1 = Some n → digits_value s2 acc2 = Some n →
  acc1 = acc2 ∧ s1 = s2.
Proof.
  revert s2 acc1 acc2. induction s1 as [|c1 s1 IH]; intros [|c2 s2] acc1 acc2; simpl; try done.
  - intros _ [= <-] [= <-]. done.
  - intros [= Hlen].
    destruct (digit_of c1) as [d1|] eqn:Hd1; [|done].
    destruct (digit_of c2) as [d2|] eqn:Hd2; [|done].
    intros H1 H2. destruct (IH _ _ _ Hlen H1 H2) as [Hacc ->].
    pose proof (proj2 (digit_of_Some _ _ Hd1)). pose proof (proj2 (digit_of_Some _ _ Hd2)).
    assert (d1 = d2) as -> by lia. split; [lia|]. f_equal.
    by eapply digit_of_inj.
Qed.

(** An array index has one spelling: no sign, no leading zero. *)
Lemma array_index_inj k1 k2 n :
  array_index k1 = Some n → array_index k2 = Some n → k1 = k2.
Proof.
  assert (∀ k n, array_index k = Some n →
                 digits_value k 0 = Some n
                 ∧ (n = 0%N → String.length k = 1)
                 ∧ (n ≠ 0%N → 10 ^ N.of_nat (String.length k) ≤ 10 * n)%N) as Hspell.
  { intros [|c rest] m; simpl; [done|].
    destruct (Ascii.eqb c "0" && negb (String.eqb rest "")) eqn:E; [done|].
    destruct (digit_of c) as [d|] eqn:Hd; [|done].
    destruct (digits_value rest (10 * 0 + d)) as [v|] eqn:Hv; [|done].
    destruct (v <=? 4294967294)%N; [|done]. intros [= <-]. split; [done|].
    pose proof (digits_value_bounds _ _ _ Hv) as [Hlo Hhi].
    apply andb_false_iff in E as [E|E].
    - assert (d ≠ 0%N) as Hd0.
      { intros ->. by rewrite (digit_of_inj c "0"%char 0 Hd eq_refl) in E. }
      pose proof (N.pow_nonzero 10 (N.of_nat (String.length rest)) ltac:(lia)) as Hpos.
      change (10 * 0 + d)%N with d in Hlo, Hhi.
      rewrite Nat2N.inj_succ, N.pow_succ_r'.
      set (P := (10 ^ N.of_nat (String.length rest))%N) in *.
      assert (1 * P ≤ d * P)%N as Hone by (apply N.mul_le_mono_r; lia).
      split; [intros ->; lia|]. intros _. lia.
    - apply negb_false_iff, String.eqb_eq in E as ->. simpl in *.
      injection Hv as <-. split; [done|]. intros Hn0.
      change (10 ^ N.of_nat (String.length (String c "")))%N with 10%N. lia. }
  intros H1 H2.
  destruct (Hspell _ _ H1) as (Hv1 & Hz1 & Hn1), (Hspell _ _ H2) as (Hv2 & Hz2 & Hn2).
  assert (String.length k1 = String.length k2) as Hlen.
  { destruct (decide (n = 0%N)) as [->|Hn]; [by rewrite Hz1, Hz2|].
    pose proof (digits_value_bounds _ _ _ Hv1) as [_ Hhi1].
    pose proof (digits_value_bounds _ _ _ Hv2) as [_ Hhi2].
    specialize (Hn1 Hn). specialize (Hn2 Hn).
    destruct (Nat.lt_trichotomy (String.length k1) (String.length k2)) as [Hlt|[?|Hlt]];
      [|done|].
    - assert (10 * 10 ^ N.of_nat (String.length k1) ≤ 10 ^ N.of_nat (String.length k2))%N.
      { rewrite <-N.pow_succ_r', <-Nat2N.inj_succ. apply N.pow_le_mono_r; lia. }
      lia.
    - assert (10 * 10 ^ N.of_nat (String.length k2) ≤ 10 ^ N.of_nat (String.length k1))%N.
      { rewrite <-N.pow_succ_r', <-Nat2N.inj_succ. apply N.pow_le_mono_r; lia. }
      lia. }
  by destruct (digits_value_inj _ _ _ _ _ Hlen Hv1 Hv2).
Qed.

Lemma NoDup_omap_array_index ks : NoDup ks → NoDup (omap array_index ks).
Proof.
  induction 1 as [|k ks Hk Hnd IH]; csimpl; [constructor|].
  destruct (array_index k) as [n|] eqn:Hn; [|done].
  constructor; [|done]. intros (k' & Hk' & Hn')%list_elem_of_omap.
  by rewrite (array_index_inj k k' n Hn Hn') in Hk.
Qed.

Lemma StronglySorted_strict (l : list N) :
  StronglySorted N.le l → NoDup l → StronglySorted N.lt l.
Proof.
  induction 1 as [|x l Hsorted IH Hle]; intros Hnd; [constructor|].
  apply NoDup_cons in Hnd as [Hx Hnd]. constructor; [by apply IH|].
  rewrite Forall_forall in Hle. apply Forall_forall. intros y Hy.
  specialize (Hle y Hy). assert (x ≠ y) by (by intros ->). lia.
Qed.

(** The array indices among distinct keys come out in strictly ascending
    numeric order. *)
Lemma index_keys_strict ks :
  NoDup ks → StronglySorted N.lt (omap array_index (index_keys ks)).
Proof.
  intros Hnd. apply StronglySorted_strict; [apply index_keys_ascending|].
  apply NoDup_omap_array_index. rewrite index_keys_perm. by apply NoDup_filter.
Qed.

(** ** The summary at the end of the game *)

Lemma foldl_scan_usage es best :
  foldl scan_usage best es
  = let m := max_list (counted es).*2 in
    if decide (topCount best < m) then UsageSummary (first_with m (counted es)) m else best.
Proof.
  revert best. induction es as [|[w [c|]] es IH]; intros best.
  - done.
  - cbn [foldl]. rewrite IH. unfold scan_usage. csimpl.
    set (m' := max_list (counted es).*2).
    destruct (Nat.max_spec c m') as [[Hm ->]|[Hm ->]];
      destruct (Nat.ltb_spec (topCount best) c) as [Hlt|Hge]; simpl;
      repeat case_decide; try lia; done.
  - cbn [foldl]. by rewrite IH.
Qed.

Lemma top_usage_first_best (usage : obj tally) :
  top_usage usage = first_best (counted (entries usage)).
Proof.
  unfold top_usage, first_best. rewrite foldl_scan_usage. simpl.
  repeat case_decide; try lia; try done. by replace (max_list _) with 0 by lia.
Qed.

Lemma first_seen_snoc ws w :
  first_seen (ws ++ [w])
  = if decide (w ∈ first_seen ws) then first_seen ws else first_seen ws ++ [w].
Proof. unfold first_seen. by rewrite foldl_snoc. Qed.

Lemma first_seen_elem_of ws w : w ∈ first_seen ws ↔ w ∈ ws.
Proof.
  induction ws as [|w' ws IH] using rev_ind; [done|].
  rewrite first_seen_snoc, elem_of_app, list_elem_of_singleton.
  case_decide as Hin; [|rewrite elem_of_app, list_elem_of_singleton; by rewrite IH].
  rewrite IH. split; [by left|]. intros [?| ->]; [done|]. by apply IH.
Qed.

Lemma first_seen_NoDup ws : NoDup (first_seen ws).
Proof.
  induction ws as [|w ws IH] using rev_ind; [apply NoDup_nil_2|].
  rewrite first_seen_snoc. case_decide as Hin; [done|].
  apply NoDup_app. split; [done|]. split; [|apply NoDup_singleton].
  by intros x Hx ->%list_elem_of_singleton.
Qed.

Lemma times_snoc w' ws w :
  times w' (ws ++ [w]) = times w' ws + (if decide (w = w') then 1 else 0).
Proof.
  unfold times. rewrite filter_app, length_app. f_equal.
  rewrite filter_cons, filter_nil. by case_decide.
Qed.

Lemma times_absent w ws : w ∉ ws → times w ws = 0.
Proof.
  intros Hw. unfold times. induction ws as [|w' ws IH]; [done|].
  apply not_elem_of_cons in Hw as [Hne Hw].
  rewrite filter_cons, decide_False by done. by apply IH.
Qed.

Section Dictionary.
Context {V : Type}.
Implicit Types (f : string → V) (ks : list string).

Lemma own_fmap f ks k :
  own ((λ w, (w, f w)) <$> ks) k = if decide (k ∈ ks) then Some (f k) else None.
Proof.
  induction ks as [|k' ks IH]; [done|]. csimpl.
  destruct (String.eqb k' k) eqn:E.
  - apply String.eqb_eq in E as ->. rewrite decide_True; [done|apply list_elem_of_here].
  - apply String.eqb_neq in E. rewrite IH.
    destruct (decide (k ∈ ks)) as [Hin|Hin].
    + rewrite decide_True; [done|]. by apply elem_of_cons; right.
    + rewrite decide_False; [done|]. by intros [->|?]%elem_of_cons.
Qed.

Lemma put_absent (o : obj V) k v : own o k = None → put k v o = o ++ [(k, v)].
Proof.
  induction o as [|[k' v'] o IH]; simpl; [done|].
  destruct (String.eqb k' k); [done|]. intros H. by rewrite IH.
Qed.

Lemma put_fmap_present f ks k v :
  NoDup ks → k ∈ ks →
  put k v ((λ w, (w, f w)) <$> ks) = (λ w, (w, if decide (w = k) then v else f w)) <$> ks.
Proof.
  induction ks as [|k' ks IH]; intros Hnd Hk; [by apply elem_of_nil in Hk|].
  apply NoDup_cons in Hnd as [Hk' Hnd]. csimpl.
  destruct (String.eqb k' k) eqn:E.
  - apply String.eqb_eq in E as ->. rewrite decide_True by done. f_equal.
    apply list_fmap_ext. intros i w Hw. rewrite decide_False; [done|].
    intros ->. apply Hk'. by eapply list_elem_of_lookup_2.
  - apply String.eqb_neq in E. rewrite decide_False by done. f_equal.
    apply IH; [done|]. by apply elem_of_cons in Hk as [->|?].
Qed.

Lemma omap_own_self (o : obj V) :
  NoDup o.*1 → omap (λ k, (λ v, (k, v)) <$> own o k) o.*1 = o.
Proof.
  induction o as [|[k v] o IH]; [done|]. csimpl. intros [Hk Hnd]%NoDup_cons.
  rewrite String.eqb_refl. csimpl. f_equal. rewrite <-IH at 2 by done.
  apply list_omap_ext, Forall2_same_length_lookup_2; [done|].
  intros i k1 k2 H1 H2. assert (k2 = k1) as -> by congruence.
  assert (String.eqb k k1 = false) as ->; [|done].
  apply String.eqb_neq. intros ->. apply Hk. by eapply list_elem_of_lookup_2.
Qed.
End Dictionary.

Lemma enumeration_plain ks :
  Forall (λ k, array_index k = None) ks → enumeration ks = ks.
Proof.
  intros Hks. unfold enumeration, index_keys, named_keys.
  assert (omap tag_index ks = []) as ->.
  { induction Hks as [|k ks Hk _ IH]; [done|]. csimpl. unfold tag_index at 1.
    by rewrite Hk. }
  simpl. induction Hks as [|k ks Hk _ IH]; [done|].
  by rewrite filter_cons, decide_True, IH.
Qed.

Lemma entries_plain {V} (o : obj V) :
  NoDup o.*1 → Forall (λ k, array_index k = None) o.*1 → entries o = o.
Proof.
  intros Hnd Hplain. unfold entries, keys. rewrite enumeration_plain by done.
  by apply omap_own_self.
Qed.

Lemma usage_of_first_seen ws :
  Forall (λ w, inherited w = false) ws →
  usage_of ws = (λ w, (w, Count (times w ws))) <$> first_seen ws.
Proof.
  induction ws as [|w ws IH] using rev_ind; intros Hws; [done|].
  apply Forall_app in Hws as [Hws Hw]. rewrite Forall_singleton in Hw.
  unfold usage_of. rewrite foldl_snoc. fold (usage_of ws). rewrite IH by done.
  unfold bump, get. rewrite (inherited_proto w Hw), Hw, own_fmap, first_seen_snoc.
  destruct (decide (w ∈ first_seen ws)) as [Hin|Hin].
  - rewrite put_fmap_present by (done || apply first_seen_NoDup).
    apply list_fmap_ext. intros i w' Hw'. rewrite times_snoc.
    case_decide as Heq; [subst w'; by rewrite decide_True|].
    rewrite decide_False by done. do 2 f_equal. lia.
  - rewrite put_absent by (by rewrite own_fmap, decide_False).
    rewrite fmap_app. f_equal.
    + apply list_fmap_ext. intros i w' Hw'. rewrite times_snoc.
      rewrite decide_False; [do 2 f_equal; lia|].
      intros ->. apply Hin. by eapply list_elem_of_lookup_2.
    + simpl. rewrite times_snoc, decide_True by done.
      rewrite times_absent; [done|]. by rewrite <-first_seen_elem_of.
Qed.

Lemma counted_fmap (f : string → nat) (l : list string) :
  counted ((λ w, (w, Count (f w))) <$> l) = (λ w, (w, f w)) <$> l.
Proof. unfold counted. induction l as [|w l IH]; [done|]. csimpl. by rewrite IH. Qed.

(** With plain texts the first-seen text wins ties. *)
Lemma top_usage_first_seen ws :
  Forall plain ws → top_usage (usage_of ws) = first_seen_best ws.
Proof.
  intros Hws.
  assert (Forall (λ w, inherited w = false) ws) as Hinh
    by (eapply Forall_impl; [done|]; by intros w [_ ?]).
  assert (Forall (λ w, array_index w = None) (first_seen ws)) as Hidx.
  { apply Forall_forall. intros w Hw. apply (proj1 (first_seen_elem_of ws w)) in Hw.
    rewrite Forall_forall in Hws. by destruct (Hws w Hw). }
  rewrite top_usage_first_best, usage_of_first_seen by done.
  assert (((λ w, (w, Count (times w ws))) <$> first_seen ws).*1 = first_seen ws) as Hkeys.
  { rewrite <-list_fmap_compose. apply list_fmap_id. }
  rewrite entries_plain by (rewrite Hkeys; done || apply first_seen_NoDup).
  unfold first_seen_best. by rewrite counted_fmap.
Qed.

Lemma foldl_summarize_lookup r ps acc k :
  foldl (summarize r) acc ps !! k
  = if decide (k ∈ id <$> ps) then Some (top_usage (default empty (stats r !! k)))
    else acc !! k.
Proof.
  revert acc. induction ps as [|p ps IH]; intros acc; [done|].
  cbn [foldl]. rewrite IH. csimpl. unfold summarize.
  destruct (decide (k ∈ id <$> ps)) as [Hin|Hin].
  - rewrite decide_True; [done|]. by apply elem_of_cons; right.
  - destruct (decide (id p = k)) as [<-|Hne].
    + rewrite lookup_insert_eq, decide_True; [done|apply list_elem_of_here].
    + rewrite lookup_insert_ne by done. rewrite decide_False; [done|].
      by intros [?|?]%elem_of_cons.
Qed.

(** What a submission does to the usage object of its player *)
Lemma usage_after_submission r sid word :
  default empty (stats (record_submission sid word r) !! sid)
  = bump word (default empty (stats r !! sid)).
Proof.
  assert (stats (record_submission sid word r)
          = <[sid := bump word (default empty (stats r !! sid))]> (stats r)) as ->.
  { unfold record_submission, record_group.
    destruct (find_group _ _) as [[i g]|]; [|done]. by case_bool_decide. }
  by rewrite lookup_insert_eq.
Qed.

Lemma omap_fmap_Some {A B} (f : A → option B) (g : A → B) (l : list A) :
  (∀ x, x ∈ l → f x = Some (g x)) → omap f l = g <$> l.
Proof.
  induction l as [|x l IH]; intros Hfg; [done|]. csimpl.
  rewrite (Hfg x) by apply list_elem_of_here. csimpl. f_equal.
  apply IH. intros y Hy. apply Hfg. by apply elem_of_cons; right.
Qed.

(** The scan of [endGame] over the usage object of a player who submitted
    [words]: the texts in the order of [Object.entries], each with the
    number of its submissions *)
Lemma top_usage_enumeration words :
  Forall (λ w, inherited w = false) words →
  top_usage (usage_of words)
  = first_best ((λ w, (w, times w words)) <$> enumeration (first_seen words)).
Proof.
  intros Hwords. rewrite top_usage_first_best, usage_of_first_seen by done.
  assert (((λ w, (w, Count (times w words))) <$> first_seen words).*1 = first_seen words)
    as Hkeys by (rewrite <-list_fmap_compose; apply list_fmap_id).
  unfold entries, keys. rewrite Hkeys.
  rewrite (omap_fmap_Some _ (λ w, (w, Count (times w words)))).
  - by rewrite counted_fmap.
  - intros w Hw. rewrite enumeration_perm in Hw. by rewrite own_fmap, decide_True.
Qed.

(** C9, as amended. [endGame] reports for every player of the room the
    summary of the player's usage object. For a player whose submissions
    [words], in this order, name no member of [Object.prototype], the
    summary is the highest number of submissions of one text with the first
    text that reaches it in this order: first the texts that are array
    indices, in ascending numeric order, then the other texts as first
    submitted. When no text is an array index, this is the text submitted
    most often, the first-seen one among equals; a player without
    submissions gets no word and 0. *)
Theorem endGame_reports_top_usage (rooms : obj room) (roomId : string) (r : room) :
  own rooms roomId = Some r →
  ∃ winners usageStats,
    endGame roomId rooms
    = Done (remove roomId rooms)
           [(ToRoom roomId, Event.gameOver winners (players r) usageStats)]
    ∧ ∀ p words,
        p ∈ players r →
        Forall (λ w, inherited w = false) words →
        default empty (stats r !! id p) = usage_of words →
        ∃ indices names,
          usageStats !! id p
          = Some (first_best ((λ w, (w, times w words)) <$> (indices ++ names)))
          ∧ names = filter (λ w, array_index w = None) (first_seen words)
          ∧ indices ≡ₚ filter (λ w, is_Some (array_index w)) (first_seen words)
          ∧ StronglySorted N.lt (omap array_index indices)
          ∧ (Forall plain words → usageStats !! id p = Some (first_seen_best words))
          ∧ (words = [] → usageStats !! id p = Some (UsageSummary None 0)).
Proof.
  intros Hown. eexists _, _. split; [by apply endGame_Own|].
  intros p words Hp Hwords Husage.
  assert (foldl (summarize r) ∅ (players r) !! id p = Some (top_usage (usage_of words)))
    as Hsummary.
  { rewrite foldl_summarize_lookup, decide_True, Husage; [done|].
    apply list_elem_of_fmap. eauto. }
  exists (index_keys (first_seen words)), (named_keys (first_seen words)).
  split; [by rewrite Hsummary, top_usage_enumeration|].
  split; [done|]. split; [apply index_keys_perm|].
  split; [apply index_keys_strict, first_seen_NoDup|]. split.
  - intros Hplain. by rewrite Hsummary, top_usage_first_seen.
  - intros ->. by rewrite Hsummary.
Qed.

Lemma endGame_reports_top_usage_witness :
  ∃ rooms r,
    run tied_answers empty = Some rooms
    ∧ own rooms "r" = Some r
    ∧ Player Bob "Bob" 0 ∈ players r
    ∧ Player Cyd "Cyd" 0 ∈ players r
    ∧ default empty (stats r !! Bob) = usage_of ["b"; "a"; "a"; "b"; "c"]
    ∧ default empty (stats r !! Cyd) = usage_of ["b"; "10"; "2"; "2"; "10"; "b"]
    ∧ ∃ winners usageStats,
        endGame "r" rooms
        = Done (remove "r" rooms) [(ToRoom "r", Event.gameOver winners (players r) usageStats)]
        ∧ usageStats !! Bob = Some (UsageSummary (Some "b") 2)
        ∧ usageStats !! Cyd = Some (UsageSummary (Some "2") 2).
Proof.
  eexists _, _. split; [vm_compute; reflexivity|].
  split; [vm_compute; reflexivity|].
  assert (Forall plain ["b"; "a"; "a"; "b"; "c"]) as Hplain by (repeat constructor).
  assert (Forall (λ w, inherited w = false) ["b"; "a"; "a"; "b"; "c"]) as Hbob
    by (repeat constructor).
  assert (Forall (λ w, inherited w = false) ["b"; "10"; "2"; "2"; "10"; "b"]) as Hcyd
    by (repeat constructor).
  split; [apply elem_of_cons; right; apply list_elem_of_here|].
  split; [do 2 (apply elem_of_cons; right); apply list_elem_of_here|].
  split; [vm_compute; reflexivity|]. split; [vm_compute; reflexivity|].
  lazymatch goal with
  | |- ∃ winners usageStats, endGame "r" ?rooms = _ ∧ _ =>
      destruct (endGame_reports_top_usage rooms "r" _ eq_refl)
        as (winners & usageStats & Hend & Hsummary)
  end.
  exists winners, usageStats. split; [exact Hend|]. split.
  - destruct (Hsummary (Player Bob "Bob" 0) ["b"; "a"; "a"; "b"; "c"]) as
      (indices & names & _ & _ & _ & _ & Hbest & _).
    + apply elem_of_cons. right. apply list_elem_of_here.
    + exact Hbob.
    + vm_compute. reflexivity.
    + exact (Hbest Hplain).
  - destruct (Hsummary (Player Cyd "Cyd" 0) ["b"; "10"; "2"; "2"; "10"; "b"]) as
      (indices & names & Htop & Hnames & Hperm & Hsorted & _).
    + do 2 (apply elem_of_cons; right). apply list_elem_of_here.
    + exact Hcyd.
    + vm_compute. reflexivity.
    + assert (indices = ["2"; "10"]) as ->.
      { assert (filter (λ w, is_Some (array_index w))
                  (first_seen ["b"; "10"; "2"; "2"; "10"; "b"]) = ["10"; "2"]) as Hfilter
          by (vm_compute; reflexivity).
        rewrite Hfilter in Hperm. symmetry in Hperm.
        apply Permutation_length_2_inv in Hperm as [->| ->]; [|done].
        exfalso. apply StronglySorted_inv in Hsorted as [_ Hlt].
        apply Forall_inv in Hlt. vm_compute in Hlt. discriminate Hlt. }
      simpl in Htop. rewrite Htop, Hnames. vm_compute. reflexivity.
Defined.

(** C9, as stated, fails when a text is an array index: Bob submitted "b"
    and then "7", once each; [Object.entries] yields "7" first, and the
    summary of the game names "7", not the first-seen "b". *)
Lemma array_index_text_wins_the_tie :
  ∃ winners finalPlayers usageStats,
    reply game_with_a_number Bob (Request.drawCard "r")
    = Some [(ToRoom "r", Event.gameOver winners finalPlayers usageStats)]
    ∧ usageStats !! Bob = Some (UsageSummary (Some "7") 1)
    ∧ first_seen_best ["b"; "7"] = UsageSummary (Some "b") 1
    ∧ ¬ first_seen_wins ["b"; "7"].
Proof.
  eexists _, _, _. split; [vm_compute; reflexivity|].
  split; [vm_compute; reflexivity|]. split; [vm_compute; reflexivity|].
  intros H. vm_compute in H. discriminate H.
Qed.

(** ** The room list *)

Lemma filter_ext_in {A} (P Q : A → Prop) `{∀ x, Decision (P x), ∀ x, Decision (Q x)}
    (l : list A) :
  (∀ x, x ∈ l → P x ↔ Q x) → filter P l = filter Q l.
Proof.
  induction l as [|x l IH]; intros Hext; [done|].
  rewrite !filter_cons.
  assert (filter P l = filter Q l) as ->.
  { apply IH. intros y Hy. apply Hext. by apply elem_of_cons; right. }
  pose proof (Hext x (list_elem_of_here x l)) as Hx.
  destruct (decide (P x)) as [HP|HP]; destruct (decide (Q x)) as [HQ|HQ]; tauto.
Qed.

Lemma kept_refl ks : kept ks ks.
Proof.
  unfold kept. induction ks as [|k ks IH]; [done|].
  rewrite filter_cons, decide_True by apply list_elem_of_here. f_equal.
  rewrite IH at 1. apply filter_ext_in. intros x Hx.
  split; [by right|]. done.
Qed.

Lemma kept_filter (P : string → Prop) `{∀ k, Decision (P k)} ks : kept ks (filter P ks).
Proof.
  unfold kept. apply filter_ext_in. intros k Hk.
  rewrite list_elem_of_filter. tauto.
Qed.

Lemma kept_trans ks1 ks2 ks3 : kept ks1 ks2 → kept ks2 ks3 → kept ks1 ks3.
Proof.
  unfold kept. intros H12 H23.
  transitivity (filter (λ k, k ∈ ks3) ks2); [done|].
  rewrite H12 at 1. rewrite list_filter_filter. apply list_filter_iff.
  intros k. split; [tauto|]. intros Hk. split; [done|].
  rewrite H23 in Hk. apply list_elem_of_filter in Hk. tauto.
Qed.

Lemma kept_put rooms roomId (r r' : room) :
  own rooms roomId = Some r → kept rooms.*1 (put roomId r' rooms).*1.
Proof. intros Hown. rewrite put_keys_present by eauto. apply kept_refl. Qed.

Lemma kept_remove (rooms : obj room) roomId : kept rooms.*1 (remove roomId rooms).*1.
Proof. rewrite remove_keys. apply kept_filter. Qed.

Lemma endGame_kept roomId rooms rooms' out :
  endGame roomId rooms = Done rooms' out → kept rooms.*1 rooms'.*1.
Proof.
  unfold endGame. destruct (get rooms roomId); intros [= <- <-];
    [apply kept_remove|apply kept_refl].
Qed.

Lemma leave_kept sid acc roomId : kept acc.1.*1 (leave sid acc roomId).1.*1.
Proof.
  unfold leave. destruct (own acc.1 roomId) as [r|] eqn:Hown; [|apply kept_refl].
  simpl. destruct (_ =? _)%nat; simpl; [apply kept_remove|by eapply kept_put].
Qed.

Lemma foldl_leave_kept sid ks acc : kept acc.1.*1 (foldl (leave sid) acc ks).1.*1.
Proof.
  revert acc. induction ks as [|k ks IH]; intros acc; [apply kept_refl|].
  simpl. eapply kept_trans; [apply leave_kept|apply IH].
Qed.

Lemma track_kept req (rooms rooms' : obj room) :
  kept rooms.*1 rooms'.*1 →
  created req rooms rooms' = [] →
  rooms'.*1 = track req rooms rooms' rooms.*1.
Proof.
  intros Hkept Hcreated. unfold track. rewrite Hcreated, app_nil_r.
  etransitivity; [exact Hkept|].
  apply list_filter_iff. intros k. by rewrite own_is_Some.
Qed.

Lemma created_same req (rooms : obj room) : created req rooms rooms = [].
Proof.
  destruct req; try done. simpl. rewrite bool_decide_eq_false_2; [done|].
  intros [Hnone [r Hsome]]. congruence.
Qed.

(** Each event appends the id of the room it creates to the own keys of
    [rooms] and strikes out the ids of the rooms it deletes. *)
Lemma handle_keys sid req rooms rooms' out :
  handle sid req rooms = Done rooms' out →
  rooms'.*1 = track req rooms rooms' rooms.*1.
Proof.
  destruct req; simpl.
  - (* createRoom *)
    unfold createRoom. destruct (get rooms roomId) as [r| |] eqn:Hget;
      try (intros [= <- <-]; apply track_kept; [apply kept_refl|apply created_same]).
    destruct listing as [files|];
      [|intros [= <- <-]; apply track_kept; [apply kept_refl|apply created_same]].
    apply get_Undefined in Hget as [Hown _]. intros [= <- <-].
    set (rooms1 := put roomId _ rooms).
    assert (rooms1.*1 = rooms.*1 ++ [roomId]) as Hk by (by apply put_keys_absent).
    unfold track, created.
    rewrite bool_decide_eq_true_2
      by (split; [done|]; unfold rooms1; rewrite own_put_eq; eauto).
    rewrite <-Hk. etransitivity; [exact (kept_refl _)|].
    apply list_filter_iff. intros k. by rewrite own_is_Some.
  - (* joinRoom *)
    unfold joinRoom. destruct (get rooms roomId) as [r| |] eqn:Hget; try done;
      [|intros [= <- <-]; by apply track_kept; [apply kept_refl|]].
    apply get_Own in Hget.
    destruct (existsb _ _); intros [= <- <-]; apply track_kept; try done;
      [apply kept_refl|by eapply kept_put].
  - (* startGame *)
    unfold startGame. destruct (get rooms roomId) as [r| |] eqn:Hget; try done;
      [|intros [= <- <-]; by apply track_kept; [apply kept_refl|]].
    apply get_Own in Hget. intros [= <- <-]. apply track_kept; [by eapply kept_put|done].
  - (* drawCard *)
    intros Hdraw. apply track_kept; [|done]. revert Hdraw.
    unfold drawCard. destruct (get rooms roomId) as [r| |] eqn:Hget; try done;
      [|intros [= <- <-]; apply kept_refl].
    apply get_Own in Hget.
    destruct (player_at _ _) as [p|]; [|done].
    case_bool_decide; [intros [= <- <-]; apply kept_refl|].
    destruct (last (deck r)) as [card|]; [|apply endGame_kept].
    destruct (String.eqb card "").
    + intros Hend%endGame_kept. eapply kept_trans; [|done]. by eapply kept_put.
    + intros [= <- <-]. by eapply kept_put.
  - (* submitOnomatopoeia *)
    intros Hsubmit. apply track_kept; [|done]. revert Hsubmit.
    unfold submitOnomatopoeia.
    destruct (get rooms roomId) as [r| |] eqn:Hget; try done;
      [|intros [= <- <-]; apply kept_refl].
    apply get_Own in Hget.
    destruct (_ =? _)%nat; [|intros [= <- <-]; by eapply kept_put].
    destruct (player_at _ _); [|done].
    destruct (live _); intros [= <- <-]; by eapply kept_put.
  - (* chooseOnomatopoeia *)
    intros Hchoose. apply track_kept; [|done]. revert Hchoose.
    unfold chooseOnomatopoeia.
    destruct (get rooms roomId) as [r| |] eqn:Hget; try done;
      [|intros [= <- <-]; apply kept_refl].
    apply get_Own in Hget. simpl.
    destruct (player_at _ _); [|done].
    intros [= <- <-]. by eapply kept_put.
  - (* nextTurn *)
    unfold nextTurn. destruct (get rooms roomId) as [r| |] eqn:Hget; try done;
      [|intros [= <- <-]; by apply track_kept; [apply kept_refl|]].
    apply get_Own in Hget. intros [= <- <-]. apply track_kept; [by eapply kept_put|done].
  - (* getRooms *)
    intros [= <- <-]. apply track_kept; [apply kept_refl|done].
  - (* disconnect *)
    unfold disconnect. intros [= <- <-]. apply track_kept; [|done].
    apply (foldl_leave_kept sid (keys rooms) (rooms, [])).
  - (* the callback of chooseOnomatopoeia *)
    intros Hdone. apply track_kept; [|done]. revert Hdone.
    unfold chooseOnomatopoeia_finally. destruct held as [|r0].
    + destruct (own rooms roomId) as [r|] eqn:Hown; [|intros [= <- <-]; apply kept_refl].
      simpl. destruct (_ =? _)%nat; [|intros [= <- <-]; by eapply kept_put].
      destruct (endGame _ _) as [rooms1 out1|] eqn:Hend; [|done].
      intros [= <- <-]. apply endGame_kept in Hend.
      eapply kept_trans; [|done]. by eapply kept_put.
    + simpl. destruct (_ =? _)%nat; [|intros [= <- <-]; apply kept_refl].
      destruct (endGame _ _) as [rooms1 out1|] eqn:Hend; [|done].
      intros [= <- <-]. by apply endGame_kept in Hend.
Qed.

Lemma run_keys trace rooms0 rooms :
  run trace rooms0 = Some rooms →
  rooms.*1 = creation_order trace rooms0 rooms0.*1.
Proof.
  revert rooms0. induction trace as [|[sid req] trace IH]; intros rooms0; simpl.
  - by intros [= <-].
  - destruct (handle sid req rooms0) as [rooms1 out|] eqn:Hstep; [|done].
    intros Hrun. rewrite (IH _ Hrun). f_equal. by eapply handle_keys.
Qed.

Lemma creation_order_NoDup trace rooms0 order :
  NoDup order →
  order = rooms0.*1 →
  NoDup (creation_order trace rooms0 order).
Proof.
  revert rooms0 order. induction trace as [|[sid req] trace IH]; intros rooms0 order Hnd Hkeys;
    simpl; [done|].
  destruct (handle sid req rooms0) as [rooms1 out|] eqn:Hstep; [|done].
  pose proof (handle_keys _ _ _ _ _ Hstep) as Hkeys1. rewrite <-Hkeys in Hkeys1.
  apply (IH rooms1); [|done]. rewrite <-Hkeys1.
  assert (NoDup (track req rooms0 rooms1 order)) as Htrack; [|by rewrite Hkeys1].
  unfold track. apply NoDup_filter, NoDup_app. split; [done|]. split.
  - intros k Hk Hnew. destruct req; try (by apply elem_of_nil in Hnew). simpl in Hnew.
    case_bool_decide as Hc; [|by apply elem_of_nil in Hnew].
    apply list_elem_of_singleton in Hnew as ->. destruct Hc as [Hnone _].
    apply own_None in Hnone. by rewrite Hkeys in Hk.
  - destruct req; try apply NoDup_nil_2. simpl.
    case_bool_decide; [apply NoDup_singleton|apply NoDup_nil_2].
Qed.

(** C8, as amended. After any sequence of events that the server survives,
    [getRooms] answers the sender with the ids of the rooms in the order of
    [Object.keys]: first the ids that are array indices, each once, in
    strictly ascending numeric order, then the other ids in insertion order
    of creation. When no room id is an array index, the answer is the
    insertion order of creation. *)
Theorem getRooms_enumerates_creation_order
    (trace : list (socket_id * Request.t)) (rooms : obj room) :
  run trace empty = Some rooms →
  let order := creation_order trace empty [] in
  ∃ indices names,
    getRooms rooms = Done rooms [(ToSender, Event.roomsList (indices ++ names))]
    ∧ names = filter (λ k, array_index k = None) order
    ∧ indices ≡ₚ filter (λ k, is_Some (array_index k)) order
    ∧ StronglySorted N.lt (omap array_index indices)
    ∧ (Forall (λ k, array_index k = None) order →
       getRooms rooms = Done rooms [(ToSender, Event.roomsList order)]).
Proof.
  intros Hrun order.
  assert (keys rooms = enumeration order) as Hkeys.
  { unfold keys. by rewrite (run_keys trace empty rooms Hrun). }
  exists (index_keys order), (named_keys order).
  unfold getRooms. rewrite Hkeys. split; [done|]. split; [done|].
  split; [apply index_keys_perm|]. split.
  - apply index_keys_strict. apply (creation_order_NoDup trace empty []); [constructor|done].
  - intros Hplain. by rewrite enumeration_plain.
Qed.

Lemma getRooms_enumerates_creation_order_witness :
  ∃ rooms,
    run many_rooms empty = Some rooms
    ∧ creation_order many_rooms empty [] = ["10"; "2"; "a"; "4294967295"]
    ∧ getRooms rooms = Done rooms [(ToSender, Event.roomsList ["2"; "10"; "a"; "4294967295"])]
    ∧ ∃ indices names,
        getRooms rooms = Done rooms [(ToSender, Event.roomsList (indices ++ names))]
        ∧ names = filter (λ k, array_index k = None) (creation_order many_rooms empty [])
        ∧ indices ≡ₚ filter (λ k, is_Some (array_index k)) (creation_order many_rooms empty [])
        ∧ StronglySorted N.lt (omap array_index indices).
Proof.
  eexists. split; [vm_compute; reflexivity|].
  split; [vm_compute; reflexivity|]. split; [vm_compute; reflexivity|].
  lazymatch goal with
  | |- ∃ indices names, getRooms ?rooms = _ ∧ _ =>
      destruct (getRooms_enumerates_creation_order many_rooms rooms eq_refl)
        as (indices & names & H1 & H2 & H3 & H4 & _)
  end.
  by exists indices, names.
Defined.

(** C8, as stated, fails when a room id is an array index: room "b" is
    created before room "1", and the room list reads "1", "b". *)
Lemma number_listed_before_letter :
  creation_order letter_then_number empty [] = ["b"; "1"]
  ∧ (∃ rooms, run letter_then_number empty = Some rooms
              ∧ getRooms rooms = Done rooms [(ToSender, Event.roomsList ["1"; "b"])])
  ∧ ¬ listed_in_creation_order letter_then_number.
Proof.
  split; [vm_compute; reflexivity|]. split.
  - eexists. split; [vm_compute; reflexivity|]. vm_compute. reflexivity.
  - intros H. specialize (H _ eq_refl). vm_compute in H. discriminate H.
Qed.

(** ** When handlers complete *)

(** X8. With a parent in every room, an event that is not addressed to an
    inherited name is handled to completion: no handler throws. *)
Theorem handle_completes sid req rooms :
  registry_sound rooms →
  (∀ roomId, addressed req = Some roomId → get rooms roomId ≠ Inherited) →
  ∃ rooms' out, handle sid req rooms = Done rooms' out.
Proof.
  intros Hs Haddr.
  assert (∀ roomId, addressed req = Some roomId →
                    get rooms roomId = Undefined
                    ∨ ∃ r, get rooms roomId = Own r ∧ own rooms roomId = Some r ∧ has_parent r)
    as Hroom.
  { intros roomId Hreq. specialize (Haddr roomId Hreq).
    destruct (get rooms roomId) as [r| |] eqn:Hget; [right|done|by left].
    exists r. split; [done|]. apply get_Own in Hget. split; [done|]. by eapply Hs. }
  destruct req; simpl in *.
  - unfold createRoom. destruct (get rooms roomId); [by eexists _, _| |].
    + by eexists _, _.
    + destruct listing; by eexists _, _.
  - unfold joinRoom.
    destruct (Hroom roomId eq_refl) as [->|(r & -> & _ & _)]; [by eexists _, _|].
    destruct (existsb _ _); by eexists _, _.
  - unfold startGame.
    destruct (Hroom roomId eq_refl) as [->|(r & -> & _ & _)]; by eexists _, _.
  - unfold drawCard.
    destruct (Hroom roomId eq_refl) as [->|(r & -> & Hown & [p Hp])]; [by eexists _, _|].
    rewrite Hp. case_bool_decide; [by eexists _, _|].
    destruct (last (deck r)) as [card|].
    + destruct (String.eqb card ""); [|by eexists _, _].
      erewrite endGame_Own by apply own_put_eq. by eexists _, _.
    + erewrite endGame_Own by done. by eexists _, _.
  - destruct (Hroom roomId eq_refl) as [Hget|(r & _ & Hown & Hp)].
    + unfold submitOnomatopoeia. rewrite Hget. by eexists _, _.
    + destruct (submitOnomatopoeia_completes sid roomId word playerName live rooms r Hown Hp)
        as [out ->]. by eexists _, _.
  - destruct (Hroom roomId eq_refl) as [Hget|(r & _ & Hown & Hp)].
    + unfold chooseOnomatopoeia. rewrite Hget. by eexists _, _.
    + destruct (chooseOnomatopoeia_spec rooms roomId selected r Hown Hp)
        as (parent & _ & ->). by eexists _, _.
  - unfold nextTurn.
    destruct (Hroom roomId eq_refl) as [->|(r & -> & _ & _)]; by eexists _, _.
  - by eexists _, _.
  - by eexists _, _.
  - unfold chooseOnomatopoeia_finally. destruct held as [|r0].
    + destruct (own rooms roomId) as [r|] eqn:Hown; [|by eexists _, _]. simpl.
      destruct (_ =? _)%nat; [|by eexists _, _].
      erewrite endGame_Own by apply own_put_eq. by eexists _, _.
    + simpl. destruct (_ =? _)%nat; [|by eexists _, _].
      destruct (Hroom roomId eq_refl) as [Hget|(r & Hget & _ & _)];
        unfold endGame; rewrite Hget; by eexists _, _.
Qed.

(** ** Usage objects of reachable rooms *)

Lemma registry_where_put (P : room → Prop) rooms roomId r :
  registry_where P rooms → P r → registry_where P (put roomId r rooms).
Proof.
  intros Hs Hr k r'. destruct (decide (roomId = k)) as [->|Hne].
  - rewrite own_put_eq. by intros [= <-].
  - rewrite own_put_ne by done. apply Hs.
Qed.

Lemma registry_where_remove (P : room → Prop) rooms roomId :
  registry_where P rooms → registry_where P (remove roomId rooms).
Proof.
  intros Hs k r'. destruct (decide (roomId = k)) as [->|Hne].
  - by rewrite own_remove_eq.
  - rewrite own_remove_ne by done. apply Hs.
Qed.

Lemma endGame_where (P : room → Prop) roomId rooms rooms' out :
  registry_where P rooms → endGame roomId rooms = Done rooms' out → registry_where P rooms'.
Proof.
  intros Hs. unfold endGame. destruct (get rooms roomId); intros [= <- <-]; [|done].
  by apply registry_where_remove.
Qed.

Lemma foldl_leave_where (P : room → Prop) sid ks acc :
  (∀ r r', stats r' = stats r → P r → P r') →
  registry_where P acc.1 → registry_where P (foldl (leave sid) acc ks).1.
Proof.
  intros Hstats. revert acc. induction ks as [|k ks IH]; intros acc Hacc; [done|].
  simpl. apply IH. unfold leave.
  destruct (own acc.1 k) as [r|] eqn:Hown; [|done]. simpl.
  destruct (_ =? _)%nat; simpl; [by apply registry_where_remove|].
  apply registry_where_put; [done|]. eapply Hstats; [|by eapply Hacc]. done.
Qed.

(** A property of rooms that depends on [stats] alone, holds of a new room
    and survives a submission, holds in every room after every event. *)
Lemma handle_keeps_stats_property (P : room → Prop) sid req rooms rooms' out :
  (∀ r r', stats r' = stats r → P r → P r') →
  (∀ r, stats r = ∅ → P r) →
  (∀ sid word r, P r → P (record_submission sid word r)) →
  registry_where P rooms →
  handle sid req rooms = Done rooms' out →
  registry_where P rooms'.
Proof.
  intros Hstats Hnew Hsubmit Hs.
  assert (∀ roomId r r', own rooms roomId = Some r → stats r' = stats r →
                         registry_where P (put roomId r' rooms)) as Hput.
  { intros roomId r r' Hown Heq. apply registry_where_put; [done|].
    eapply Hstats; [done|]. by eapply Hs. }
  destruct req; simpl.
  - unfold createRoom. destruct (get rooms roomId); try by intros [= <- <-].
    destruct listing; intros [= <- <-]; [|done].
    apply registry_where_put; [done|]. by apply Hnew.
  - unfold joinRoom. destruct (get rooms roomId) as [r| |] eqn:Hget; try by intros [= <- <-].
    apply get_Own in Hget.
    destruct (existsb _ _); intros [= <- <-]; [done|]. by eapply Hput.
  - unfold startGame. destruct (get rooms roomId) as [r| |] eqn:Hget; try by intros [= <- <-].
    apply get_Own in Hget. intros [= <- <-]. by eapply Hput.
  - unfold drawCard. destruct (get rooms roomId) as [r| |] eqn:Hget; try by intros [= <- <-].
    apply get_Own in Hget.
    destruct (player_at _ _) as [p|]; [|done].
    case_bool_decide; [by intros [= <- <-]|].
    destruct (last (deck r)) as [card|]; [|by apply endGame_where].
    destruct (String.eqb card "").
    + apply endGame_where. by eapply Hput.
    + intros [= <- <-]. by eapply Hput.
  - intros Hdone.
    destruct (get rooms roomId) as [r| |] eqn:Hget.
    + apply get_Own in Hget.
      destruct (submitOnomatopoeia_records _ _ _ _ _ _ _ _ _ Hget Hdone) as [-> _].
      apply registry_where_put; [done|]. apply Hsubmit. by eapply Hs.
    + unfold submitOnomatopoeia in Hdone. by rewrite Hget in Hdone.
    + unfold submitOnomatopoeia in Hdone. rewrite Hget in Hdone. by injection Hdone as <- <-.
  - unfold chooseOnomatopoeia.
    destruct (get rooms roomId) as [r| |] eqn:Hget; try by intros [= <- <-].
    apply get_Own in Hget. simpl.
    destruct (player_at _ _); [|done].
    intros [= <- <-]. by eapply Hput.
  - unfold nextTurn. destruct (get rooms roomId) as [r| |] eqn:Hget; try by intros [= <- <-].
    apply get_Own in Hget. intros [= <- <-]. by eapply Hput.
  - by intros [= <- <-].
  - unfold disconnect. intros [= <- <-].
    by apply (foldl_leave_where P sid (keys rooms) (rooms, [])).
  - unfold chooseOnomatopoeia_finally. destruct held as [|r0].
    + destruct (own rooms roomId) as [r|] eqn:Hown; [|by intros [= <- <-]]. simpl.
      destruct (_ =? _)%nat.
      * destruct (endGame _ _) as [rooms1 out1|] eqn:Hend; [|done].
        intros [= <- <-]. eapply endGame_where; [|done]. by eapply Hput.
      * intros [= <- <-]. by eapply Hput.
    + simpl. destruct (_ =? _)%nat; [|by intros [= <- <-]].
      destruct (endGame _ _) as [rooms1 out1|] eqn:Hend; [|done].
      intros [= <- <-]. by eapply endGame_where.
Qed.

Lemma record_submission_numeric sid word r :
  usage_numeric r → usage_numeric (record_submission sid word r).
Proof.
  intros Hr sid' word' Hw'. specialize (Hr sid' word' Hw'). unfold usageCount in *.
  assert (stats (record_submission sid word r)
          = <[sid := bump word (default empty (stats r !! sid))]> (stats r)) as ->.
  { unfold record_submission, record_group.
    destruct (find_group _ _) as [[i g]|]; [|done]. by case_bool_decide. }
  destruct (decide (sid = sid')) as [<-|Hsid]; [|by rewrite lookup_insert_ne].
  rewrite lookup_insert_eq. simpl.
  destruct (decide (word = word')) as [<-|Hword].
  - rewrite bump_count by done.
    destruct (own _ word) as [[n|]|]; [by eexists| |by eexists].
    by destruct Hr.
  - unfold bump. destruct (String.eqb word "__proto__"); [done|].
    by rewrite own_put_ne.
Qed.

Lemma run_keeps_numeric trace rooms0 rooms :
  registry_where usage_numeric rooms0 →
  run trace rooms0 = Some rooms →
  registry_where usage_numeric rooms.
Proof.
  revert rooms0. induction trace as [|[sid req] trace IH]; intros rooms0 H0; simpl.
  - by intros [= <-].
  - destruct (handle sid req rooms0) as [rooms1 out|] eqn:Hstep; [|done].
    apply IH.
    eapply (handle_keeps_stats_property usage_numeric); [| | |done|done].
    + intros r0 r0' Heq Hr0 s w Hw. unfold usageCount. rewrite Heq. by apply Hr0.
    + intros r0 Heq s w Hw. unfold usageCount. rewrite Heq, lookup_empty. by eexists.
    + intros. by apply record_submission_numeric.
Qed.

(** X27. In a room the server can reach, a text that is not inherited has
    a number, or nothing, in every usage object. *)
Theorem reachable_usage_numeric trace rooms roomId r sid word :
  run trace empty = Some rooms →
  own rooms roomId = Some r →
  inherited word = false →
  ∃ c, usageCount r sid word = Some c.
Proof.
  intros Hrun Hown Hword.
  assert (registry_where usage_numeric rooms) as Hnum
    by (by eapply (run_keeps_numeric trace empty)).
  exact (Hnum roomId r Hown sid word Hword).
Qed.

(** ** The scenario of the spec *)

(** Cyd answers "boing" as Bob did: Ann receives the one group of both.
    Ann chooses "boing": Bob and Cyd gain a point each and the choice goes
    to Firestore. Once it is saved the room is told, and, the deck being
    empty, the game ends with the two of them as winners and the room is
    removed. *)
Example boing_scenario :
  reply boing_round Cyd (submits Cyd "Cyd" "boing").2
  = Some [(ToFirestore, Event.answerDoc "r" 1 (Some "card1.png") "boing" Cyd "Cyd");
          (ToSocket Ann, Event.onomatopoeiaList [Group "boing" [Bob; Cyd]])]
  ∧ reply (boing_round ++ [submits Cyd "Cyd" "boing"])
          Ann (Request.chooseOnomatopoeia "r" "boing")
    = Some [(ToFirestore,
             Event.choiceDoc "r" 1 Ann "Ann" "boing" ["Bob"; "Cyd"] (Some "card1.png"))]
  ∧ ∃ usageStats,
      reply (boing_round ++ [submits Cyd "Cyd" "boing";
                             (Ann, Request.chooseOnomatopoeia "r" "boing")])
            Ann (Request.choiceSettled "r" ["Bob"; "Cyd"] Registered)
      = Some [(ToRoom "r",
               Event.onomatopoeiaChosen ["Bob"; "Cyd"]
                 [Player Ann "Ann" 0; Player Bob "Bob" 1; Player Cyd "Cyd" 1]);
              (ToRoom "r",
               Event.gameOver [Player Bob "Bob" 1; Player Cyd "Cyd" 1]
                 [Player Ann "Ann" 0; Player Bob "Bob" 1; Player Cyd "Cyd" 1]
                 usageStats)]
      ∧ usageStats !! Bob = Some (UsageSummary (Some "boing") 1)
      ∧ usageStats !! Ann = Some (UsageSummary None 0)
      ∧ run (boing_round ++ [submits Cyd "Cyd" "boing";
                             (Ann, Request.chooseOnomatopoeia "r" "boing");
                             (Ann, Request.choiceSettled "r" ["Bob"; "Cyd"] Registered)])
            empty
        = Some [].
Proof.
  split; [vm_compute; reflexivity|]. split; [vm_compute; reflexivity|].
  eexists. split; [vm_compute; reflexivity|].
  repeat split; vm_compute; reflexivity.
Qed.

(** X13. A name already present in the room is refused: the sender is
    told so and the registry, the players of the room included, is as it
    was. *)
Lemma joinRoom_name_taken sid roomId playerName rooms r :
  own rooms roomId = Some r →
  playerName ∈ name <$> players r →
  joinRoom sid roomId playerName rooms
  = Done rooms [(ToSender, Event.error "Name already taken in this room")].
Proof.
  intros Hown%get_Own Hname. unfold joinRoom. rewrite Hown.
  assert (existsb (λ p, String.eqb (name p) playerName) (players r) = true) as ->; [|done].
  apply existsb_exists. apply list_elem_of_fmap in Hname as (p & -> & Hp).
  exists p. split; [by apply list_elem_of_In|apply String.eqb_refl].
Qed.

(** ** Disconnections *)

Lemma without_Some sid r r' :
  without sid r = Some r' ↔
  r' = with_players (filter (λ p, id p ≠ sid) (players r)) r
  ∧ filter (λ p, id p ≠ sid) (players r) ≠ [].
Proof.
  unfold without. destruct (filter _ (players r)) as [|p ps] eqn:Hf; simpl.
  - split; [done|]. by intros [_ ?].
  - split; [by intros [= <-]|]. by intros [-> _].
Qed.

Lemma without_twice sid r r' : without sid r = Some r' → without sid r' = Some r'.
Proof.
  intros [-> Hne]%without_Some. unfold without. cbn [players with_players].
  rewrite list_filter_filter_l by done.
  destruct (filter _ (players r)) as [|p ps]; [done|]. done.
Qed.

Lemma without_None sid r :
  without sid r = None ↔ filter (λ p, id p ≠ sid) (players r) = [].
Proof.
  unfold without. destruct (filter _ (players r)) as [|p ps]; simpl; split; done.
Qed.

Lemma leave_own sid acc k0 k :
  own (leave sid acc k0).1 k
  = if decide (k = k0) then (own acc.1 k ≫= without sid) else own acc.1 k.
Proof.
  unfold leave. destruct (own acc.1 k0) as [r|] eqn:Hown.
  - cbn [players with_players].
    case_decide as Hk.
    + subst k. rewrite Hown. simpl. unfold without.
      destruct (length _ =? 0)%nat; cbn [fst];
        [by rewrite own_remove_eq|by rewrite own_put_eq].
    + destruct (length _ =? 0)%nat; cbn [fst];
        [by rewrite own_remove_ne|by rewrite own_put_ne].
  - case_decide as Hk; [subst k; by rewrite Hown|done].
Qed.

Lemma bind_without_twice sid (o : option room) :
  ((o ≫= without sid) ≫= without sid) = (o ≫= without sid).
Proof.
  destruct o as [r|]; [|done]. simpl.
  destruct (without sid r) as [r'|] eqn:Hw; [|done]. simpl. by eapply without_twice.
Qed.

Lemma keys_elem_of {V} (o : obj V) k : k ∈ keys o ↔ is_Some (own o k).
Proof. unfold keys. by rewrite enumeration_perm, own_is_Some. Qed.

Lemma foldl_leave_own sid ks rooms out k :
  own (foldl (leave sid) (rooms, out) ks).1 k
  = if decide (k ∈ ks) then (own rooms k ≫= without sid) else own rooms k.
Proof.
  revert k. induction ks as [|k0 ks IH] using rev_ind; intros k.
  { by destruct (decide (k ∈ [])) as [?%elem_of_nil|]. }
  rewrite foldl_snoc, leave_own, IH.
  destruct (decide (k = k0)) as [->|Hne].
  - destruct (decide (k0 ∈ ks ++ [k0])) as [_|Hn];
      [|destruct Hn; apply elem_of_app; right; apply list_elem_of_here].
    destruct (decide (k0 ∈ ks)); [apply bind_without_twice|done].
  - destruct (decide (k ∈ ks)) as [Hin|Hin];
      destruct (decide (k ∈ ks ++ [k0])) as [Hin'|Hin']; try done.
    + destruct Hin'. apply elem_of_app. by left.
    + apply elem_of_app in Hin' as [?|?%list_elem_of_singleton]; done.
Qed.

Lemma disconnect_own sid rooms k :
  own (registry_after rooms (disconnect sid rooms)) k = (own rooms k ≫= without sid).
Proof.
  unfold disconnect. simpl. rewrite foldl_leave_own.
  case_decide as Hk; [done|].
  rewrite keys_elem_of in Hk. by destruct (own rooms k) as [r|]; [destruct Hk; eauto|].
Qed.

(** ** Every event, room by room *)

Lemma step_put sid rooms roomId r x k r' :
  own rooms roomId = Some r →
  room_step sid r x →
  own (put roomId x rooms) k = Some r' →
  ∃ r0, own rooms k = Some r0 ∧ room_step sid r0 r'.
Proof.
  intros Hown Hstep. destruct (decide (roomId = k)) as [<-|Hne].
  - rewrite own_put_eq. intros [= <-]. eauto.
  - rewrite own_put_ne by done. intros Hk. exists r'. split; [done|constructor].
Qed.

Lemma step_remove sid (rooms : obj room) roomId k r' :
  own (remove roomId rooms) k = Some r' →
  ∃ r0, own rooms k = Some r0 ∧ room_step sid r0 r'.
Proof.
  destruct (decide (roomId = k)) as [<-|Hne]; [by rewrite own_remove_eq|].
  rewrite own_remove_ne by done. intros Hk. exists r'. split; [done|constructor].
Qed.

Lemma step_endGame sid roomId rooms rooms' out k r' :
  endGame roomId rooms = Done rooms' out →
  own rooms' k = Some r' →
  ∃ r0, own rooms k = Some r0 ∧ room_step sid r0 r'.
Proof.
  unfold endGame. destruct (get rooms roomId); intros [= <- <-]; [apply step_remove|].
  intros Hk. exists r'. split; [done|constructor].
Qed.

(** A room that is there after an event was there before and has taken one
    step, or is the room the event has just created. *)
Lemma handle_room_step sid req rooms rooms' out k r' :
  handle sid req rooms = Done rooms' out →
  own rooms' k = Some r' →
  (∃ r, own rooms k = Some r ∧ room_step sid r r')
  ∨ (own rooms k = None
     ∧ ∃ playerName deckName files rand, r' = new_room sid playerName deckName files rand).
Proof.
  assert (own rooms k = Some r' →
          ∃ r, own rooms k = Some r ∧ room_step sid r r') as Hsame.
  { intros Hk. exists r'. split; [done|constructor]. }
  destruct req; simpl.
  - (* createRoom *)
    unfold createRoom. destruct (get rooms roomId) as [r| |] eqn:Hget;
      try (intros [= <- <-] Hk; left; by apply Hsame).
    destruct listing as [files|]; [|intros [= <- <-] Hk; left; by apply Hsame].
    apply get_Undefined in Hget as [Hown _]. intros [= <- <-].
    destruct (decide (roomId = k)) as [<-|Hne].
    + rewrite own_put_eq. intros [= <-]. right. split; [done|]. by eexists _, _, _, _.
    + rewrite own_put_ne by done. intros Hk. left. by apply Hsame.
  - (* joinRoom *)
    unfold joinRoom. destruct (get rooms roomId) as [r| |] eqn:Hget; try done;
      [|intros [= <- <-] Hk; left; by apply Hsame].
    apply get_Own in Hget.
    destruct (existsb _ _) eqn:Hname; intros [= <- <-] Hk; left; [by apply Hsame|].
    eapply step_put; [done| |done]. constructor.
    intros (p & -> & Hp)%list_elem_of_fmap.
    assert (existsb (λ q, String.eqb (name q) (name p)) (players r) = true) as Hex; [|congruence].
    apply existsb_exists. exists p. split; [by apply list_elem_of_In|apply String.eqb_refl].
  - (* startGame *)
    unfold startGame. destruct (get rooms roomId) as [r| |] eqn:Hget; try done;
      [|intros [= <- <-] Hk; left; by apply Hsame].
    apply get_Own in Hget. intros [= <- <-] Hk. left.
    eapply step_put; [done|apply step_start|done].
  - (* drawCard *)
    unfold drawCard. destruct (get rooms roomId) as [r| |] eqn:Hget; try done;
      [|intros [= <- <-] Hk; left; by apply Hsame].
    apply get_Own in Hget.
    destruct (player_at _ _) as [parent|] eqn:Hparent; [|done].
    case_bool_decide as Hsid; [intros [= <- <-] Hk; left; by apply Hsame|].
    assert (sid = id parent) as Hid by (destruct (decide (sid = id parent)); done).
    destruct (last (deck r)) as [card|] eqn:Hlast;
      [|intros Hend Hk; left; by eapply step_endGame].
    apply last_Some in Hlast as [cards Hcards].
    rewrite Hcards, removelast_last.
    destruct (String.eqb card "") eqn:Hcard.
    + erewrite endGame_Own by apply own_put_eq. rewrite remove_put.
      intros [= <- <-] Hk. left. by eapply step_remove.
    + intros [= <- <-] Hk. left. eapply step_put; [done| |done].
      eapply step_draw; [done|done|done|]. by apply String.eqb_neq.
  - (* submitOnomatopoeia *)
    intros Hdone Hk. left.
    destruct (get rooms roomId) as [r| |] eqn:Hget.
    + apply get_Own in Hget.
      destruct (submitOnomatopoeia_records _ _ _ _ _ _ _ _ _ Hget Hdone) as [-> _].
      eapply step_put; [done|apply step_submit|done].
    + unfold submitOnomatopoeia in Hdone. by rewrite Hget in Hdone.
    + unfold submitOnomatopoeia in Hdone. rewrite Hget in Hdone.
      injection Hdone as <- <-. by apply Hsame.
  - (* chooseOnomatopoeia *)
    intros Hdone Hk. left.
    destruct (get rooms roomId) as [r| |] eqn:Hget.
    + apply get_Own in Hget.
      pose proof (chooseOnomatopoeia_outcome rooms roomId selected r Hget) as Hout.
      rewrite Hdone in Hout. destruct Hout as [Hparent ->].
      eapply step_put; [done| |done]. by apply step_choose.
    + unfold chooseOnomatopoeia in Hdone. by rewrite Hget in Hdone.
    + unfold chooseOnomatopoeia in Hdone. rewrite Hget in Hdone.
      injection Hdone as <- <-. by apply Hsame.
  - (* nextTurn *)
    unfold nextTurn. destruct (get rooms roomId) as [r| |] eqn:Hget; try done;
      [|intros [= <- <-] Hk; left; by apply Hsame].
    apply get_Own in Hget. intros [= <- <-] Hk. left.
    eapply step_put; [done|apply step_next|done].
  - (* getRooms *)
    intros [= <- <-] Hk. left. by apply Hsame.
  - (* disconnect *)
    intros Hdone Hk. left.
    assert (rooms' = registry_after rooms (disconnect sid rooms)) as ->
      by (by rewrite Hdone).
    rewrite disconnect_own in Hk.
    destruct (own rooms k) as [r|]; [|done]. simpl in Hk.
    exists r. split; [done|]. by apply step_leave.
  - (* the callback of chooseOnomatopoeia *)
    intros Hdone Hk. left. destruct held as [|r0].
    + destruct (own rooms roomId) as [r|] eqn:Hown.
      * rewrite (chooseOnomatopoeia_finally_spec rooms roomId chosenNames r Hown) in Hdone.
        destruct (deck r); injection Hdone as <- <-.
        -- by eapply step_remove.
        -- eapply step_put; [done|apply step_next|done].
      * unfold chooseOnomatopoeia_finally in Hdone. rewrite Hown in Hdone.
        injection Hdone as <- <-. by apply Hsame.
    + unfold chooseOnomatopoeia_finally in Hdone. simpl in Hdone.
      destruct (_ =? _)%nat.
      * destruct (endGame _ _) as [rooms1 out1|] eqn:Hend; [|done].
        injection Hdone as <- <-. by eapply step_endGame.
      * injection Hdone as <- <-. by apply Hsame.
Qed.

(** A property of rooms that holds of every new room and survives every
    step holds in every room of every reachable registry. *)
Lemma reachable_rooms (P : room → Prop) rooms k r :
  (∀ sid playerName deckName files rand, P (new_room sid playerName deckName files rand)) →
  (∀ sid r r', room_step sid r r' → P r → P r') →
  reachable rooms →
  own rooms k = Some r →
  P r.
Proof.
  intros Hnew Hstep [trace Hrun] Hown.
  assert (registry_where P rooms) as HP; [|by eapply HP].
  clear Hown. revert Hrun.
  assert (registry_where P (@empty room)) as H0 by done.
  revert H0. generalize (@empty room) as rooms0.
  induction trace as [|[sid req] trace IH]; intros rooms0 H0; simpl.
  - by intros [= <-].
  - destruct (handle sid req rooms0) as [rooms1 out|] eqn:Hhandle; [|done].
    apply IH. intros k1 r1 Hk1.
    destruct (handle_room_step sid req rooms0 rooms1 out k1 r1 Hhandle Hk1)
      as [(r0 & Hr0 & Hs)|(_ & ? & ? & ? & ? & ->)]; [|apply Hnew].
    eapply Hstep; [done|]. by eapply H0.
Qed.

(** ** Invariants of reachable rooms *)

Lemma reachable_opened : reachable opened.
Proof. exists two_player_game. reflexivity. Qed.

Lemma alive_step sid r r' : room_step sid r r' → alive r → alive r'.
Proof.
  intros Hstep [Hps [n Hn]]. destruct Hstep; simpl.
  - by split; [|exists n].
  - split; [by destruct (players r)|by exists n].
  - split; [done|by eexists].
  - split; [done|by exists n].
  - destruct (record_submission_frame sid word r) as (Hp & Hi & _).
    unfold alive. rewrite Hp, Hi. by split; [|exists n].
  - assert ((score selected r).1 ≠ []) as Hne.
    { intros Hnil. apply Hps, nil_length_inv.
      by rewrite <-(score_length selected r), Hnil. }
    split; [done|]. by exists n.
  - split; [done|]. simpl. rewrite Hn. destruct (players r); [done|]. by eexists.
  - apply without_Some in H as [-> Hne]. split; [done|by exists n].
Qed.

Lemma reachable_alive rooms k r : reachable rooms → own rooms k = Some r → alive r.
Proof.
  apply (reachable_rooms alive).
  - intros. split; [done|by exists 0].
  - apply alive_step.
Qed.

(** X2. In every registry the server can reach, every room has at least
    one player (a room is deleted as soon as its last player leaves) and its
    parent index is a number, never [NaN]. *)
Theorem reachable_rooms_are_alive (rooms : obj room) (k : string) (r : room) :
  reachable rooms →
  own rooms k = Some r →
  players r ≠ [] ∧ ∃ n, currentTurnPlayerIndex r = Idx n.
Proof. apply reachable_alive. Qed.

Lemma reachable_rooms_are_alive_witness :
  reachable opened ∧ own opened "r" = Some opened_room
  ∧ players opened_room ≠ [] ∧ ∃ n, currentTurnPlayerIndex opened_room = Idx n.
Proof.
  split; [exists two_player_game; reflexivity|]. split; [reflexivity|].
  apply (reachable_rooms_are_alive opened "r" opened_room).
  - exists two_player_game. reflexivity.
  - reflexivity.
Defined.

(** X3. In every registry the server can reach, the names of the players of
    a room are pairwise different: [joinRoom] refuses a name that is taken,
    and no other handler changes a name. *)
Theorem reachable_names_distinct (rooms : obj room) (k : string) (r : room) :
  reachable rooms →
  own rooms k = Some r →
  NoDup (name <$> players r).
Proof.
  apply (reachable_rooms (λ r, NoDup (name <$> players r))).
  - intros. simpl. apply NoDup_singleton.
  - intros sid r0 r' Hstep Hnd. destruct Hstep; simpl; try done.
    + rewrite fmap_app. apply NoDup_app. split; [done|].
      split; [|apply NoDup_singleton].
      by intros x Hx ->%list_elem_of_singleton.
    + by destruct (record_submission_frame sid word r0) as (-> & _).
    + by destruct (score_ids_names selected r0) as [_ ->].
    + apply without_Some in H as [-> _]. simpl.
      apply (sublist_NoDup _ (name <$> players r0)); [done|].
      apply fmap_sublist, sublist_filter.
Qed.

Lemma reachable_names_distinct_witness :
  reachable opened ∧ own opened "r" = Some opened_room
  ∧ NoDup (name <$> players opened_room).
Proof.
  split; [exists two_player_game; reflexivity|]. split; [reflexivity|].
  apply (reachable_names_distinct opened "r" opened_room).
  - exists two_player_game. reflexivity.
  - reflexivity.
Defined.

(** X1. A disconnection takes the players of the socket out of every room
    and touches nothing else: a room all of whose players belonged to the
    socket is deleted, every other room keeps its other players, in order,
    and the rest of its state, the parent index included. Afterwards no room
    holds a player of the socket and no room is empty. *)
Theorem disconnect_removes_socket (sid : socket_id) (rooms : obj room) :
  ∃ rooms' out,
    disconnect sid rooms = Done rooms' out
    ∧ (∀ k, own rooms' k = (own rooms k ≫= without sid))
    ∧ (∀ k r', own rooms' k = Some r' →
               (sid ∉ (id <$> players r')) ∧ players r' ≠ []
               ∧ ∃ r, own rooms k = Some r
                      ∧ players r' = filter (λ p, id p ≠ sid) (players r)
                      ∧ currentTurnPlayerIndex r' = currentTurnPlayerIndex r
                      ∧ deck r' = deck r
                      ∧ onomatopoeiaList r' = onomatopoeiaList r
                      ∧ stats r' = stats r).
Proof.
  eexists _, _. split; [reflexivity|].
  assert (∀ k, own (foldl (leave sid) (rooms, []) (keys rooms)).1 k
               = (own rooms k ≫= without sid)) as Hown
    by (intros k; apply (disconnect_own sid rooms k)).
  split; [done|]. intros k r'. rewrite Hown.
  destruct (own rooms k) as [r|]; [|done]. simpl.
  intros [-> Hne]%without_Some. simpl. split; [|split; [done|by exists r]].
  intros (p & Hid & Hp)%list_elem_of_fmap. apply list_elem_of_filter in Hp as [Hp _].
  by destruct Hp.
Qed.

(** X4. In every registry the server can reach, the groups of a room have
    pairwise different texts, no socket id twice in a group, and no group
    without a submitter. *)
Theorem reachable_groups_distinct (rooms : obj room) (k : string) (r : room) :
  reachable rooms →
  own rooms k = Some r →
  groups_distinct (onomatopoeiaList r)
  ∧ Forall (λ g, playerIds g ≠ []) (onomatopoeiaList r).
Proof.
  apply (reachable_rooms
           (λ r, groups_distinct (onomatopoeiaList r)
                 ∧ Forall (λ g, playerIds g ≠ []) (onomatopoeiaList r))).
  - intros. simpl. repeat split; constructor.
  - intros sid r0 r' Hstep [Hd Hne]. destruct Hstep; simpl; try done.
    + split; [by apply (record_group_distinct sid word (record_usage sid word r0))|].
      unfold record_submission. rewrite record_group_onomatopoeiaList. simpl.
      destruct (find_group word (onomatopoeiaList r0)) as [[i g]|].
      * case_bool_decide; [done|]. apply Forall_insert; [done|]. simpl.
        by destruct (playerIds g).
      * apply Forall_app. split; [done|]. by apply Forall_singleton.
    + repeat split; constructor.
    + by apply without_Some in H as [-> _].
Qed.

Lemma reachable_groups_distinct_witness :
  ∃ rooms r,
    reachable rooms
    ∧ own rooms "r" = Some r
    ∧ onomatopoeiaList r = [Group "x" [Bob; Cyd]; Group "y" [Bob]]
    ∧ groups_distinct (onomatopoeiaList r)
    ∧ Forall (λ g, playerIds g ≠ []) (onomatopoeiaList r).
Proof.
  eexists _, _.
  split; [exists grouped_answers; vm_compute; reflexivity|].
  split; [vm_compute; reflexivity|]. split; [reflexivity|].
  eapply (reachable_groups_distinct _ "r").
  - exists grouped_answers. vm_compute. reflexivity.
  - vm_compute. reflexivity.
Defined.

Lemma cards_are_images_step sid r r' :
  room_step sid r r' → cards_are_images r → cards_are_images r'.
Proof.
  intros Hstep [Hdeck Hcard]. destruct Hstep; simpl; try done.
  - rewrite H1 in Hdeck. apply Forall_app in Hdeck as [Hcards Hc].
    split; [done|]. simpl. intros c [= <-]. by rewrite Forall_singleton in Hc.
  - unfold cards_are_images, record_submission, record_group, record_usage.
    destruct (find_group _ _) as [[i g]|]; [|done]. by case_bool_decide.
  - by apply without_Some in H as [-> _].
Qed.

Lemma new_room_images sid playerName deckName files rand :
  cards_are_images (new_room sid playerName deckName files rand).
Proof.
  split; [|done]. unfold new_room. cbn [deck]. unfold shuffle.
  rewrite shuffle_from_perm.
  apply Forall_forall. intros c Hc%list_elem_of_In. by apply filter_In in Hc as [_ ?].
Qed.

Lemma reachable_images rooms k r :
  reachable rooms → own rooms k = Some r → cards_are_images r.
Proof.
  apply (reachable_rooms cards_are_images);
    [apply new_room_images|apply cards_are_images_step].
Qed.

(** X5. In every registry the server can reach, every card left in the deck
    of a room and the card on the table pass the image-file test of
    [createRoom]; in particular no card is the empty string. *)
Theorem reachable_cards_are_images (rooms : obj room) (k : string) (r : room) :
  reachable rooms →
  own rooms k = Some r →
  (∀ c, c ∈ deck r ∨ currentCard r = Some c → is_image c = true ∧ c ≠ "").
Proof.
  intros Hreach Hown c Hc.
  destruct (reachable_images rooms k r Hreach Hown) as [Hdeck Hcard].
  assert (is_image c = true) as Himg.
  { destruct Hc as [Hc|Hc]; [|by apply Hcard].
    rewrite Forall_forall in Hdeck. by apply Hdeck. }
  split; [done|]. by intros ->.
Qed.

Lemma reachable_cards_are_images_witness :
  reachable opened ∧ own opened "r" = Some opened_room
  ∧ (∀ c, c ∈ deck opened_room ∨ currentCard opened_room = Some c →
          is_image c = true ∧ c ≠ "").
Proof.
  split; [exists two_player_game; reflexivity|]. split; [reflexivity|].
  apply (reachable_cards_are_images opened "r" opened_room).
  - exists two_player_game. reflexivity.
  - reflexivity.
Defined.

(** X6. No event puts a card back or renames the deck: in a room that is
    there before and after an event, the deck name is the same, the deck is
    the old deck or the old deck without its last card, and the round count
    is the old one or one more. *)
Theorem handle_never_adds_cards sid req rooms rooms' out k r r' :
  handle sid req rooms = Done rooms' out →
  own rooms k = Some r →
  own rooms' k = Some r' →
  deckName r' = deckName r
  ∧ (deck r' = deck r ∨ ∃ card, deck r = deck r' ++ [card])
  ∧ (roundCount r' = roundCount r ∨ roundCount r' = roundCount r + 1).
Proof.
  intros Hhandle Hown Hown'.
  destruct (handle_room_step sid req rooms rooms' out k r' Hhandle Hown')
    as [(r0 & Hr0 & Hstep)|(Hnone & _)]; [|congruence].
  assert (r0 = r) as -> by congruence.
  destruct Hstep; simpl; try (by repeat split; left).
  - split; [done|]. split; [right; by exists card|by left].
  - destruct (record_submission_frame sid word r) as (_ & _ & ->).
    unfold record_submission, record_group, record_usage.
    destruct (find_group _ _) as [[i g]|]; [|by repeat split; left].
    case_bool_decide; by repeat split; left.
  - split; [done|]. split; [by left|by right].
  - apply without_Some in H as [-> _]. by repeat split; left.
Qed.

Lemma handle_never_adds_cards_witness :
  handle Bob (Request.drawCard "r") opened
  = Done [("r", with_currentCard (Some "c1.png") (with_deck ["c2.jpg"] opened_room))]
         [(ToRoom "r", Event.cardDrawn "c1.png")]
  ∧ own opened "r" = Some opened_room
  ∧ deckName (with_currentCard (Some "c1.png") (with_deck ["c2.jpg"] opened_room))
    = deckName opened_room.
Proof.
  split; [reflexivity|]. split; [reflexivity|].
  exact (proj1 (handle_never_adds_cards Bob (Request.drawCard "r") opened _ _ "r"
                  opened_room _ eq_refl eq_refl eq_refl)).
Defined.

(** ** Turns *)

Lemma opened_sound : registry_sound opened.
Proof.
  intros k r Hk. unfold opened in Hk. cbn [own] in Hk.
  destruct (String.eqb _ _); [|done]. injection Hk as <-. by eexists.
Qed.

Lemma handle_keeps_parent_witness :
  Request.drawCard "r" ≠ Request.disconnect
  ∧ registry_sound opened
  ∧ handle Bob (Request.drawCard "r") opened
    = Done [("r", with_currentCard (Some "c1.png") (with_deck ["c2.jpg"] opened_room))]
           [(ToRoom "r", Event.cardDrawn "c1.png")]
  ∧ registry_sound
      [("r", with_currentCard (Some "c1.png") (with_deck ["c2.jpg"] opened_room))].
Proof.
  assert (Request.drawCard "r" ≠ Request.disconnect) as Hreq by discriminate.
  split; [exact Hreq|]. split; [exact opened_sound|]. split; [reflexivity|].
  exact (handle_keeps_parent Bob (Request.drawCard "r") opened _ _ Hreq opened_sound eq_refl).
Defined.

Lemma handle_completes_witness :
  registry_sound opened
  ∧ (∀ roomId, addressed (Request.chooseOnomatopoeia "r" "x") = Some roomId →
               get opened roomId ≠ Inherited)
  ∧ ∃ rooms' out, handle Ann (Request.chooseOnomatopoeia "r" "x") opened = Done rooms' out.
Proof.
  assert (∀ roomId, addressed (Request.chooseOnomatopoeia "r" "x") = Some roomId →
                    get opened roomId ≠ Inherited) as Haddr.
  { intros roomId H. injection H as <-. discriminate. }
  split; [exact opened_sound|]. split; [exact Haddr|].
  exact (handle_completes Ann (Request.chooseOnomatopoeia "r" "x") opened opened_sound Haddr).
Defined.

Lemma nextTurn_advances (rooms : obj room) (roomId : string) (r : room) (n : nat) :
  own rooms roomId = Some r →
  players r ≠ [] →
  currentTurnPlayerIndex r = Idx n →
  ∃ parent,
    nextTurn roomId rooms
    = Done (put roomId (turned (players r) r) rooms)
           [(ToRoom roomId, Event.newTurn (Some parent))]
    ∧ currentTurnPlayerIndex (turned (players r) r) = Idx ((n + 1) `mod` length (players r))
    ∧ players r !! ((n + 1) `mod` length (players r)) = Some parent.
Proof.
  intros Hown%get_Own Hps Hn.
  assert (0 < length (players r)) as Hlen by (destruct (players r); [done|simpl; lia]).
  destruct (lookup_lt_is_Some_2 (players r) ((n + 1) `mod` length (players r)))
    as [parent Hparent]; [by apply Nat.mod_upper_bound, Nat.neq_0_lt_0|].
  exists parent. unfold nextTurn. rewrite Hown.
  destruct r as [ps d idx groups dn card rc st]. cbn in *. subst idx.
  destruct ps as [|p ps]; [done|]. cbn [next_index length player_at] in *.
  by rewrite Hparent.
Qed.

(** X9. [nextTurn] and [startGame] designate a player whatever the parent
    index was, past the end of [players] included: in a room with players
    and a numeric index [n], [nextTurn] moves the index to [(n + 1) mod
    players.length] and announces the player there; [startGame] announces a
    player of the room. *)
Theorem turn_is_repaired (rooms : obj room) (roomId : string) (r : room) (n : nat) :
  own rooms roomId = Some r →
  players r ≠ [] →
  currentTurnPlayerIndex r = Idx n →
  (∃ parent,
     nextTurn roomId rooms
     = Done (put roomId (turned (players r) r) rooms)
            [(ToRoom roomId, Event.newTurn (Some parent))]
     ∧ currentTurnPlayerIndex (turned (players r) r) = Idx ((n + 1) `mod` length (players r))
     ∧ players r !! ((n + 1) `mod` length (players r)) = Some parent)
  ∧ (∀ random, ∃ parent,
       startGame roomId random rooms
       = Done (put roomId
                 (with_currentTurnPlayerIndex
                    (Idx (floor_mul random (length (players r)))) r) rooms)
              [(ToRoom roomId, Event.updateRoomInfo (deckName r));
               (ToRoom roomId, Event.gameStarted (Some parent))]
       ∧ parent ∈ players r).
Proof.
  intros Hown Hps Hn. split; [by apply nextTurn_advances|].
  apply get_Own in Hown.
  assert (0 < length (players r)) as Hlen by (destruct (players r); [done|simpl; lia]).
  intros random.
  destruct (lookup_lt_is_Some_2 (players r) (floor_mul random (length (players r))))
    as [parent Hparent]; [by apply floor_mul_lt|].
  exists parent. unfold startGame. rewrite Hown. simpl. rewrite Hparent.
  split; [done|]. by eapply list_elem_of_lookup_2.
Qed.

Lemma turn_is_repaired_witness :
  own [("r", with_players [Player Ann "Ann" 0] opened_room)] "r"
  = Some (with_players [Player Ann "Ann" 0] opened_room)
  ∧ players (with_players [Player Ann "Ann" 0] opened_room) ≠ []
  ∧ currentTurnPlayerIndex (with_players [Player Ann "Ann" 0] opened_room) = Idx 1
  ∧ ∃ parent,
      nextTurn "r" [("r", with_players [Player Ann "Ann" 0] opened_room)]
      = Done (put "r" (turned [Player Ann "Ann" 0]
                         (with_players [Player Ann "Ann" 0] opened_room))
                [("r", with_players [Player Ann "Ann" 0] opened_room)])
             [(ToRoom "r", Event.newTurn (Some parent))]
      ∧ currentTurnPlayerIndex
          (turned [Player Ann "Ann" 0] (with_players [Player Ann "Ann" 0] opened_room))
        = Idx 0
      ∧ [Player Ann "Ann" 0] !! 0 = Some parent.
Proof.
  assert (players (with_players [Player Ann "Ann" 0] opened_room) ≠ []) as Hps
    by discriminate.
  split; [reflexivity|]. split; [exact Hps|]. split; [reflexivity|].
  exact (proj1 (turn_is_repaired [("r", with_players [Player Ann "Ann" 0] opened_room)]
                  "r" (with_players [Player Ann "Ann" 0] opened_room) 1
                  eq_refl Hps eq_refl)).
Defined.

(** X10. Forced turns go round the table: after [t + 1] [nextTurn] events a
    room with [n] players, unchanged, has its index at [(i + t + 1) mod n]
    and its round count [t + 1] higher; after exactly [n] of them a valid
    index is back where it was. *)
Theorem nextTurn_round_robin (sid : socket_id) (roomId : string) (t : nat)
    (rooms : obj room) (r : room) (i : nat) :
  own rooms roomId = Some r →
  players r ≠ [] →
  currentTurnPlayerIndex r = Idx i →
  ∃ rooms' r',
    run (replicate (S t) (sid, Request.nextTurn roomId)) rooms = Some rooms'
    ∧ own rooms' roomId = Some r'
    ∧ players r' = players r
    ∧ currentTurnPlayerIndex r' = Idx ((i + S t) `mod` length (players r))
    ∧ roundCount r' = roundCount r + S t
    ∧ (i < length (players r) → S t = length (players r) →
       currentTurnPlayerIndex r' = Idx i).
Proof.
  revert rooms r i. induction t as [|t IH]; intros rooms r i Hown Hps Hi.
  - destruct (nextTurn_advances rooms roomId r i Hown Hps Hi)
      as (parent & Hnext & Hidx & _).
    exists (put roomId (turned (players r) r) rooms), (turned (players r) r).
    cbn [replicate run handle]. rewrite Hnext.
    split; [done|]. split; [apply own_put_eq|]. split; [done|]. split; [done|].
    split; [done|]. intros Hlt Hlen. rewrite Hidx. rewrite <-Hlen in *.
    rewrite Nat.mod_1_r. f_equal. lia.
  - destruct (nextTurn_advances rooms roomId r i Hown Hps Hi)
      as (parent & Hnext & Hidx & _).
    destruct (IH (put roomId (turned (players r) r) rooms) (turned (players r) r)
                ((i + 1) `mod` length (players r)) (own_put_eq _ _ _) Hps Hidx)
      as (rooms' & r' & Hrun & Hown' & Hps' & Hidx' & Hround & _).
    exists rooms', r'. rewrite replicate_S. cbn [run handle]. rewrite Hnext.
    split; [done|]. split; [done|]. split; [done|].
    cbn [players turned] in Hidx'. cbn [roundCount turned] in Hround.
    assert ((i + S (S t)) `mod` length (players r)
            = ((i + 1) `mod` length (players r) + S t) `mod` length (players r)) as Hmod.
    { rewrite Nat.Div0.add_mod_idemp_l. f_equal. lia. }
    split; [by rewrite Hmod|]. split; [lia|].
    intros Hlt Hlen. rewrite Hidx', <-Hmod, <-Hlen.
    replace (i + S (S t)) with (i + 1 * S (S t)) by lia.
    rewrite Nat.Div0.mod_add. rewrite Nat.mod_small by lia. done.
Qed.

Lemma nextTurn_round_robin_witness :
  own opened "r" = Some opened_room
  ∧ players opened_room ≠ []
  ∧ currentTurnPlayerIndex opened_room = Idx 1
  ∧ ∃ rooms' r',
      run (replicate 2 (Ann, Request.nextTurn "r")) opened = Some rooms'
      ∧ own rooms' "r" = Some r'
      ∧ players r' = players opened_room
      ∧ currentTurnPlayerIndex r' = Idx ((1 + 2) `mod` length (players opened_room))
      ∧ roundCount r' = roundCount opened_room + 2
      ∧ (1 < length (players opened_room) → 2 = length (players opened_room) →
         currentTurnPlayerIndex r' = Idx 1).
Proof.
  assert (players opened_room ≠ []) as Hps by discriminate.
  split; [reflexivity|]. split; [exact Hps|]. split; [reflexivity|].
  exact (nextTurn_round_robin Ann "r" 1 opened opened_room 1 eq_refl Hps eq_refl).
Defined.

(** ** Scoring *)

Lemma total_points_insert ps i p :
  ps !! i = Some p → total_points (<[i := add_point p]> ps) = total_points ps + 1.
Proof.
  unfold total_points. revert i.
  induction ps as [|q ps IH]; intros [|i] Hi; simplify_eq/=; [lia|].
  rewrite (IH i Hi). lia.
Qed.

Lemma award_points acc playerId :
  total_points (award acc playerId).1 + length acc.2
  = total_points acc.1 + length (award acc playerId).2.
Proof.
  unfold award. destruct (list_find _ _) as [[i p]|] eqn:Hfind; [|done].
  apply list_find_Some in Hfind as (Hp & _). simpl.
  rewrite (total_points_insert _ _ _ Hp), length_app. simpl. lia.
Qed.

Lemma award_keeps_points acc playerId j p :
  acc.1 !! j = Some p →
  ∃ q, (award acc playerId).1 !! j = Some q ∧ (points p ≤ points q)%nat.
Proof.
  intros Hj. unfold award. destruct (list_find _ _) as [[i p']|] eqn:Hfind; [|by exists p].
  apply list_find_Some in Hfind as (Hp & _). simpl.
  destruct (decide (i = j)) as [->|Hne].
  - exists (add_point p'). rewrite list_lookup_insert_eq by (by eapply lookup_lt_Some).
    split; [done|]. simplify_eq. simpl. lia.
  - exists p. by rewrite list_lookup_insert_ne.
Qed.

Lemma award_names acc playerId x :
  x ∈ (award acc playerId).2 → x ∈ acc.2 ∨ x ∈ name <$> acc.1.
Proof.
  unfold award. destruct (list_find _ _) as [[i p]|] eqn:Hfind; [|by left].
  apply list_find_Some in Hfind as (Hp & _). simpl.
  intros [?|Hx%list_elem_of_singleton]%elem_of_app; [by left|right]. subst x.
  apply list_elem_of_fmap. exists p. split; [done|]. by eapply list_elem_of_lookup_2.
Qed.

Lemma foldl_award_points ids acc :
  total_points (foldl award acc ids).1 + length acc.2
  = total_points acc.1 + length (foldl award acc ids).2
  ∧ (∀ j p, acc.1 !! j = Some p →
            ∃ q, (foldl award acc ids).1 !! j = Some q ∧ (points p ≤ points q)%nat)
  ∧ (∀ x, x ∈ (foldl award acc ids).2 → x ∈ acc.2 ∨ x ∈ name <$> acc.1).
Proof.
  revert acc. induction ids as [|pid ids IH]; intros acc; simpl.
  - split; [done|]. split; [by eauto|by left].
  - destruct (IH (award acc pid)) as (Hsum & Hle & Hnames).
    pose proof (award_points acc pid) as Hone. split; [lia|]. split.
    + intros j p Hj. destruct (award_keeps_points acc pid j p Hj) as (q & Hq & Hpq).
      destruct (Hle j q Hq) as (q' & Hq' & Hqq'). exists q'. split; [done|lia].
    + intros x [Hx|Hx]%Hnames; [by apply award_names in Hx|].
      right. by rewrite <-(proj2 (award_ids_names acc pid)).
Qed.

(** X11. Scoring hands out exactly one point for every name it announces:
    the points of all players together grow by the length of
    [chosenNames]; no player loses a point, the players keep their ids,
    names and seats, and every announced name is the name of a player. *)
Theorem score_gives_one_point_per_name (selected : string) (r : room) :
  total_points (score selected r).1
  = total_points (players r) + length (score selected r).2
  ∧ id <$> (score selected r).1 = id <$> players r
  ∧ name <$> (score selected r).1 = name <$> players r
  ∧ (∀ j p, players r !! j = Some p →
            ∃ q, (score selected r).1 !! j = Some q ∧ (points p ≤ points q)%nat)
  ∧ (∀ x, x ∈ (score selected r).2 → x ∈ name <$> players r).
Proof.
  destruct (score_ids_names selected r) as [Hids Hnames].
  split; [|split; [done|split; [done|]]]; unfold score;
    destruct (find_group _ _) as [[i g]|]; simpl.
  - destruct (foldl_award_points (playerIds g) (players r, [])) as (Hsum & _).
    simpl in Hsum. lia.
  - lia.
  - destruct (foldl_award_points (playerIds g) (players r, [])) as (_ & Hle & Hin).
    split; [exact Hle|]. intros x [Hx|Hx]%Hin; [by apply elem_of_nil in Hx|done].
  - split; [by eauto|]. by intros x ?%elem_of_nil.
Qed.

(** ** Room creation and the deck *)

(** X12. A room created under a free id has the image files of the deck
    folder as its deck, each as often as the folder lists it and nothing
    else, the creator as its only player at index 0, round 1 and no usage
    yet; the other rooms are left alone and the new id is in the list sent
    to everyone. *)
Theorem createRoom_deals_the_images (sid : socket_id) (roomId playerName deckName : string)
    (files : list string) (rand : nat → fraction) (rooms : obj room) :
  get rooms roomId = Undefined →
  ∃ r,
    createRoom sid roomId playerName deckName (Some files) rand rooms
    = Done (put roomId r rooms)
           [(ToEveryone, Event.roomsList (keys (put roomId r rooms)));
            (ToRoom roomId, Event.updatePlayers [Player sid playerName 0])]
    ∧ own (put roomId r rooms) roomId = Some r
    ∧ deck r ≡ₚ List.filter is_image files
    ∧ (∀ c, c ∈ deck r ↔ c ∈ files ∧ is_image c = true)
    ∧ players r = [Player sid playerName 0]
    ∧ currentTurnPlayerIndex r = Idx 0
    ∧ onomatopoeiaList r = [] ∧ currentCard r = None ∧ roundCount r = 1 ∧ stats r = ∅
    ∧ roomId ∈ keys (put roomId r rooms)
    ∧ (∀ k, k ≠ roomId → own (put roomId r rooms) k = own rooms k).
Proof.
  intros Hget. exists (new_room sid playerName deckName files rand).
  assert (deck (new_room sid playerName deckName files rand) ≡ₚ List.filter is_image files)
    as Hdeck.
  { unfold new_room. cbn [deck]. unfold shuffle. apply shuffle_from_perm. }
  split; [unfold createRoom; by rewrite Hget|].
  split; [apply own_put_eq|]. split; [done|]. split.
  { intros c. rewrite Hdeck, list_elem_of_In, filter_In, <-list_elem_of_In. done. }
  do 6 (split; [done|]). split.
  - apply keys_elem_of. rewrite own_put_eq. by eexists.
  - intros k Hk. by rewrite own_put_ne.
Qed.

Lemma createRoom_deals_the_images_witness :
  get (@empty room) "r" = Undefined
  ∧ ∃ r,
      createRoom Ann "r" "Ann" "animals" (Some ["c1.png"; "notes.txt"; "c2.JPG"])
                 (λ _, zero) empty
      = Done (put "r" r empty)
             [(ToEveryone, Event.roomsList (keys (put "r" r empty)));
              (ToRoom "r", Event.updatePlayers [Player Ann "Ann" 0])]
      ∧ own (put "r" r empty) "r" = Some r
      ∧ deck r ≡ₚ List.filter is_image ["c1.png"; "notes.txt"; "c2.JPG"]
      ∧ (∀ c, c ∈ deck r ↔ c ∈ ["c1.png"; "notes.txt"; "c2.JPG"] ∧ is_image c = true)
      ∧ players r = [Player Ann "Ann" 0]
      ∧ currentTurnPlayerIndex r = Idx 0
      ∧ onomatopoeiaList r = [] ∧ currentCard r = None ∧ roundCount r = 1 ∧ stats r = ∅
      ∧ "r" ∈ keys (put "r" r empty)
      ∧ (∀ k, k ≠ "r" → own (put "r" r empty) k = own (@empty room) k).
Proof.
  split; [reflexivity|].
  exact (createRoom_deals_the_images Ann "r" "Ann" "animals"
           ["c1.png"; "notes.txt"; "c2.JPG"] (λ _, zero) empty eq_refl).
Defined.

(** ** The end of a round and of a game *)

(** X17. When the promise of a choice settles on a room that is still
    registered, has players and a deck that is not empty, the callback ends
    the round: it announces the chosen players, clears the groups, adds one
    to the round count and moves the index to the next seat round the table,
    also from an index past the end, and announces the player there as the
    new parent; deck, card, usage, players and the other rooms are as
    before. When no event is handled between the handler and its callback,
    the players are those the handler has just scored. *)
Theorem chooseOnomatopoeia_rotates (rooms : obj room) (roomId : string)
    (chosenNames : list string) (r : room) (n : nat) :
  own rooms roomId = Some r →
  currentTurnPlayerIndex r = Idx n →
  players r ≠ [] →
  deck r ≠ [] →
  ∃ r' next,
    chooseOnomatopoeia_finally roomId chosenNames Registered rooms
    = Done (put roomId r' rooms)
           [(ToRoom roomId, Event.onomatopoeiaChosen chosenNames (players r));
            (ToRoom roomId, Event.newTurn (Some next))]
    ∧ players r' = players r
    ∧ currentTurnPlayerIndex r' = Idx ((n + 1) `mod` length (players r))
    ∧ players r !! ((n + 1) `mod` length (players r)) = Some next
    ∧ roundCount r' = roundCount r + 1
    ∧ onomatopoeiaList r' = []
    ∧ deck r' = deck r ∧ currentCard r' = currentCard r ∧ stats r' = stats r
    ∧ (∀ k, k ≠ roomId → own (put roomId r' rooms) k = own rooms k)
    ∧ (∀ selected,
         has_parent r →
         ∃ choiceData rooms1 next1,
           chooseOnomatopoeia roomId selected rooms = Done rooms1 [(ToFirestore, choiceData)]
           ∧ chooseOnomatopoeia_finally roomId (score selected r).2 Registered rooms1
             = Done (put roomId (turned (score selected r).1 r) rooms)
                    [(ToRoom roomId,
                      Event.onomatopoeiaChosen (score selected r).2 (score selected r).1);
                     (ToRoom roomId, Event.newTurn (Some next1))]
           ∧ (score selected r).1 !! ((n + 1) `mod` length (players r)) = Some next1).
Proof.
  intros Hown Hn Hps Hdeck.
  assert (0 < length (players r)) as Hlen by (destruct (players r); [done|simpl; lia]).
  assert (next_index (Idx n) (length (players r))
          = Idx ((n + 1) `mod` length (players r))) as Hidx
    by (destruct (players r); [done|done]).
  destruct (lookup_lt_is_Some_2 (players r) ((n + 1) `mod` length (players r)))
    as [next Hnext]; [by apply Nat.mod_upper_bound, Nat.neq_0_lt_0|].
  exists (turned (players r) r), next.
  split.
  { rewrite (chooseOnomatopoeia_finally_spec rooms roomId chosenNames r Hown).
    destruct (deck r) as [|card cards]; [done|].
    rewrite Hn, Hidx. cbn [player_at]. by rewrite Hnext. }
  cbn [players currentTurnPlayerIndex roundCount onomatopoeiaList deck currentCard stats
       turned].
  split; [done|]. split; [by rewrite Hn|]. do 6 (split; [done|]). split.
  - intros k Hk. by rewrite own_put_ne.
  - intros selected Hparent.
    destruct (chooseOnomatopoeia_spec rooms roomId selected r Hown Hparent)
      as (parent & _ & Hchoose).
    destruct (lookup_lt_is_Some_2 (score selected r).1 ((n + 1) `mod` length (players r)))
      as [next1 Hnext1].
    { rewrite score_length. by apply Nat.mod_upper_bound, Nat.neq_0_lt_0. }
    eexists _, _, next1. split; [exact Hchoose|]. split; [|done].
    rewrite (chooseOnomatopoeia_finally_spec _ roomId _ (with_players (score selected r).1 r))
      by apply own_put_eq.
    cbn [deck players currentTurnPlayerIndex with_players].
    destruct (deck r) as [|card cards] eqn:Hd; [done|].
    rewrite put_put, score_length, Hn, Hidx. cbn [player_at]. rewrite Hnext1.
    unfold turned. cbn [deck players currentTurnPlayerIndex with_players deckName
                        currentCard roundCount stats].
    by rewrite score_length, Hn, Hd.
Qed.

Lemma chooseOnomatopoeia_rotates_witness :
  own opened "r" = Some opened_room
  ∧ currentTurnPlayerIndex opened_room = Idx 1
  ∧ players opened_room ≠ []
  ∧ deck opened_room ≠ []
  ∧ chooseOnomatopoeia_finally "r" ["Ann"] Registered opened
    = Done [("r", Room [Player Ann "Ann" 0; Player Bob "Bob" 0] ["c2.jpg"; "c1.png"]
                       (Idx 0) [] "animals" None 2 ∅)]
           [(ToRoom "r", Event.onomatopoeiaChosen ["Ann"] (players opened_room));
            (ToRoom "r", Event.newTurn (Some (Player Ann "Ann" 0)))]
  ∧ ∃ r' next,
      chooseOnomatopoeia_finally "r" ["Ann"] Registered opened
      = Done (put "r" r' opened)
             [(ToRoom "r", Event.onomatopoeiaChosen ["Ann"] (players opened_room));
              (ToRoom "r", Event.newTurn (Some next))]
      ∧ players r' = players opened_room
      ∧ currentTurnPlayerIndex r' = Idx ((1 + 1) `mod` length (players opened_room))
      ∧ players opened_room !! ((1 + 1) `mod` length (players opened_room)) = Some next.
Proof.
  assert (players opened_room ≠ []) as Hps by discriminate.
  assert (deck opened_room ≠ []) as Hdeck by discriminate.
  split; [reflexivity|]. split; [reflexivity|]. split; [exact Hps|]. split; [exact Hdeck|].
  split; [reflexivity|].
  destruct (chooseOnomatopoeia_rotates opened "r" ["Ann"] opened_room 1
              eq_refl eq_refl Hps Hdeck) as (r' & next & H1 & H2 & H3 & H4 & _).
  by exists r', next.
Defined.

(** X18. [endGame] announces as winners the players no one outscores, in
    seat order, at least one of them when the room has players; it gives a
    usage summary for the ids of the players and for no other id, deletes
    the room and leaves the other rooms alone. *)
Theorem endGame_announces_the_best (rooms : obj room) (roomId : string) (r : room) :
  own rooms roomId = Some r →
  ∃ winners usage,
    endGame roomId rooms
    = Done (remove roomId rooms)
           [(ToRoom roomId, Event.gameOver winners (players r) usage)]
    ∧ (∀ p, p ∈ winners ↔ p ∈ players r ∧ ∀ q, q ∈ players r → (points q ≤ points p)%nat)
    ∧ winners `sublist_of` players r
    ∧ (players r ≠ [] → winners ≠ [])
    ∧ (∀ sid, is_Some (usage !! sid) ↔ sid ∈ id <$> players r)
    ∧ own (remove roomId rooms) roomId = None
    ∧ (∀ k, k ≠ roomId → own (remove roomId rooms) k = own rooms k).
Proof.
  intros Hown. eexists _, _. split; [by apply endGame_Own|].
  split; [apply winners_are_the_best|]. split; [apply sublist_filter|]. split; [|split; [|split]].
  - intros Hps Hnil.
    assert (points <$> players r ≠ []) as Hne by (by destruct (players r)).
    apply max_list_elem_of, list_elem_of_fmap in Hne as (q & Hq & Hin).
    assert (q ∈ filter (λ p, points p = maxPoints (players r)) (players r)) as Hw
      by (by apply list_elem_of_filter).
    rewrite Hnil in Hw. by apply elem_of_nil in Hw.
  - intros sid. rewrite foldl_summarize_lookup.
    case_decide as Hin; [by split; [|eauto]|].
    rewrite lookup_empty. split; [by intros [? ?]|done].
  - apply own_remove_eq.
  - intros k Hk. by rewrite own_remove_ne.
Qed.

Lemma endGame_announces_the_best_witness :
  own opened "r" = Some opened_room
  ∧ ∃ winners usage,
      endGame "r" opened
      = Done (remove "r" opened)
             [(ToRoom "r", Event.gameOver winners (players opened_room) usage)]
      ∧ (∀ p, p ∈ winners ↔
              p ∈ players opened_room ∧ ∀ q, q ∈ players opened_room → (points q ≤ points p)%nat)
      ∧ winners `sublist_of` players opened_room
      ∧ (players opened_room ≠ [] → winners ≠ [])
      ∧ (∀ sid, is_Some (usage !! sid) ↔ sid ∈ id <$> players opened_room)
      ∧ own (remove "r" opened) "r" = None
      ∧ (∀ k, k ≠ "r" → own (remove "r" opened) k = own opened k).
Proof.
  split; [reflexivity|].
  exact (endGame_announces_the_best opened "r" opened_room eq_refl).
Defined.

(** ** Submissions *)

Lemma totalSubmissions_sum groups :
  totalSubmissions groups = sum_list ((λ g, length (playerIds g)) <$> groups).
Proof.
  unfold totalSubmissions.
  assert (∀ a, foldl (λ sum g, sum + length (playerIds g)) a groups
               = a + sum_list ((λ g, length (playerIds g)) <$> groups)) as H; [|apply H].
  induction groups as [|g groups IH]; intros a; csimpl; [lia|]. rewrite IH. lia.
Qed.

Lemma sum_list_snoc (l : list nat) (x : nat) : sum_list (l ++ [x]) = sum_list l + x.
Proof. induction l as [|y l IH]; simpl; [lia|]. rewrite IH. lia. Qed.

Lemma sum_list_insert_fmap {A} (f : A → nat) l i x y :
  l !! i = Some x →
  sum_list (f <$> <[i := y]> l) + f x = sum_list (f <$> l) + f y.
Proof.
  revert i. induction l as [|z l IH]; intros [|i] Hi; simplify_eq/=; [lia|].
  specialize (IH i Hi). lia.
Qed.

(** X19. What the grouping adds to [totalSubmissions], the sum the
    completion check compares with [players.length - 1]: with the texts of
    the groups distinct, a submission by a socket that a group of the text
    already lists adds nothing, and any other submission adds one. *)
Theorem record_group_counts_once (sid : socket_id) (word : string) (r : room) :
  groups_distinct (onomatopoeiaList r) →
  ((∃ g, g ∈ onomatopoeiaList r ∧ onomatopoeia g = word ∧ sid ∈ playerIds g) →
   totalSubmissions (onomatopoeiaList (record_group sid word r))
   = totalSubmissions (onomatopoeiaList r))
  ∧ ((∀ g, g ∈ onomatopoeiaList r → onomatopoeia g = word → sid ∉ playerIds g) →
     totalSubmissions (onomatopoeiaList (record_group sid word r))
     = totalSubmissions (onomatopoeiaList r) + 1).
Proof.
  intros [Htexts _]. rewrite record_group_onomatopoeiaList, !totalSubmissions_sum.
  destruct (find_group word (onomatopoeiaList r)) as [[i g]|] eqn:Hfind.
  - apply find_group_Some in Hfind as (Hg & Hword & _).
    case_bool_decide as Hin; split.
    + done.
    + intros Hnot. destruct (Hnot g); [by eapply list_elem_of_lookup_2|done|done].
    + intros (g' & Hg' & Hword' & Hin').
      apply list_elem_of_lookup in Hg' as [j Hj].
      assert (i = j) as <-.
      { eapply NoDup_lookup; [exact Htexts| |]; rewrite list_lookup_fmap.
        - by rewrite Hg.
        - rewrite Hj. simpl. by rewrite Hword, Hword'. }
      by simplify_eq.
    + intros _.
      pose proof (sum_list_insert_fmap (λ g, length (playerIds g)) _ i g
                    (Group (onomatopoeia g) (playerIds g ++ [sid])) Hg) as Hsum.
      simpl in Hsum. rewrite length_app in Hsum. simpl in Hsum. lia.
  - split.
    + intros (g & Hg & Hword & _). apply list_find_None in Hfind.
      rewrite Forall_forall in Hfind. by destruct (Hfind g Hg).
    + intros _. rewrite fmap_app. simpl. rewrite sum_list_snoc. simpl. lia.
Qed.

Lemma record_group_counts_once_witness :
  let r := with_onomatopoeiaList [Group "x" [Bob]] opened_room in
  groups_distinct (onomatopoeiaList r)
  ∧ (∃ g, g ∈ onomatopoeiaList r ∧ onomatopoeia g = "x" ∧ Bob ∈ playerIds g)
  ∧ totalSubmissions (onomatopoeiaList (record_group Bob "x" r))
    = totalSubmissions (onomatopoeiaList r).
Proof.
  assert (groups_distinct [Group "x" [Bob]]) as Hd.
  { split; [apply NoDup_singleton|]. apply Forall_singleton, NoDup_singleton. }
  assert (∃ g, g ∈ [Group "x" [Bob]] ∧ onomatopoeia g = "x" ∧ Bob ∈ playerIds g) as Hg.
  { exists (Group "x" [Bob]). split; [apply list_elem_of_here|].
    split; [reflexivity|apply list_elem_of_here]. }
  split; [exact Hd|]. split; [exact Hg|].
  exact (proj1 (record_group_counts_once Bob "x"
                  (with_onomatopoeiaList [Group "x" [Bob]] opened_room) Hd) Hg).
Defined.

(** X20. A submission of [word] by [sid] touches one counter only: the
    usage entry of every other text of [sid], and every usage entry of
    every other socket, is what it was; players, parent index and deck are
    untouched. *)
Theorem submission_counts_one_word (sid sid' : socket_id) (word word' : string) (r : room) :
  (sid', word') ≠ (sid, word) →
  own (default empty (stats (record_submission sid word r) !! sid')) word'
  = own (default empty (stats r !! sid')) word'
  ∧ usageCount (record_submission sid word r) sid' word' = usageCount r sid' word'
  ∧ players (record_submission sid word r) = players r
  ∧ currentTurnPlayerIndex (record_submission sid word r) = currentTurnPlayerIndex r
  ∧ deck (record_submission sid word r) = deck r.
Proof.
  intros Hne.
  assert (own (default empty (stats (record_submission sid word r) !! sid')) word'
          = own (default empty (stats r !! sid')) word') as Hown.
  { assert (stats (record_submission sid word r)
            = <[sid := bump word (default empty (stats r !! sid))]> (stats r)) as ->.
    { unfold record_submission, record_group.
      destruct (find_group _ _) as [[i g]|]; [|done]. by case_bool_decide. }
    destruct (decide (sid = sid')) as [<-|Hsid]; [|by rewrite lookup_insert_ne].
    rewrite lookup_insert_eq. simpl. unfold bump.
    destruct (String.eqb word "__proto__"); [done|].
    apply own_put_ne. intros ->. done. }
  split; [done|]. split; [unfold usageCount; by rewrite Hown|].
  apply record_submission_frame.
Qed.

Lemma submission_counts_one_word_witness :
  (Bob, "y") ≠ (Bob, "x")
  ∧ usageCount (record_submission Bob "x" opened_room) Bob "y"
    = usageCount opened_room Bob "y".
Proof.
  assert ((Bob, "y") ≠ (Bob, "x")) as Hne by discriminate.
  split; [exact Hne|].
  exact (proj1 (proj2 (submission_counts_one_word Bob Bob "x" "y" opened_room Hne))).
Defined.

(** ** Joining *)

(** X21. A player who joins under a free name takes the last seat with no
    points; the players already seated keep their seats, so the parent stays
    the parent, and the other rooms are left alone. *)
Theorem joinRoom_keeps_the_parent (sid : socket_id) (roomId playerName : string)
    (rooms : obj room) (r : room) (parent : player) :
  own rooms roomId = Some r →
  playerName ∉ name <$> players r →
  player_at (players r) (currentTurnPlayerIndex r) = Some parent →
  ∃ r',
    joinRoom sid roomId playerName rooms
    = Done (put roomId r' rooms) [(ToRoom roomId, Event.updatePlayers (players r'))]
    ∧ players r' = players r ++ [Player sid playerName 0]
    ∧ player_at (players r') (currentTurnPlayerIndex r') = Some parent
    ∧ (∀ j p, players r !! j = Some p → players r' !! j = Some p)
    ∧ deck r' = deck r ∧ onomatopoeiaList r' = onomatopoeiaList r ∧ stats r' = stats r
    ∧ (∀ k, k ≠ roomId → own (put roomId r' rooms) k = own rooms k).
Proof.
  intros Hown Hfree Hparent.
  exists (with_players (players r ++ [Player sid playerName 0]) r).
  assert (existsb (λ p, String.eqb (name p) playerName) (players r) = false) as Hex.
  { apply not_true_is_false. intros (p & Hp & Heq)%existsb_exists.
    apply String.eqb_eq in Heq. apply Hfree, list_elem_of_fmap.
    exists p. split; [done|]. by apply list_elem_of_In. }
  split.
  { unfold joinRoom. apply get_Own in Hown. by rewrite Hown, Hex. }
  split; [done|]. split.
  { cbn [players currentTurnPlayerIndex with_players].
    destruct (currentTurnPlayerIndex r) as [n|]; [|done]. simpl in *.
    by apply lookup_app_l_Some. }
  split.
  { intros j p Hj. cbn [players with_players]. by apply lookup_app_l_Some. }
  do 3 (split; [done|]). intros k Hk. by rewrite own_put_ne.
Qed.

Lemma joinRoom_keeps_the_parent_witness :
  own opened "r" = Some opened_room
  ∧ ("Cyd" ∉ (name <$> players opened_room))
  ∧ player_at (players opened_room) (currentTurnPlayerIndex opened_room)
    = Some (Player Bob "Bob" 0)
  ∧ ∃ r',
      joinRoom Cyd "r" "Cyd" opened
      = Done (put "r" r' opened) [(ToRoom "r", Event.updatePlayers (players r'))]
      ∧ players r' = players opened_room ++ [Player Cyd "Cyd" 0]
      ∧ player_at (players r') (currentTurnPlayerIndex r') = Some (Player Bob "Bob" 0)
      ∧ (∀ j p, players opened_room !! j = Some p → players r' !! j = Some p)
      ∧ deck r' = deck opened_room
      ∧ onomatopoeiaList r' = onomatopoeiaList opened_room
      ∧ stats r' = stats opened_room
      ∧ (∀ k, k ≠ "r" → own (put "r" r' opened) k = own opened k).
Proof.
  assert ("Cyd" ∉ name <$> players opened_room) as Hfree.
  { intros H. vm_compute in H. repeat (apply elem_of_cons in H as [H|H]; [discriminate H|]).
    by apply elem_of_nil in H. }
  split; [reflexivity|]. split; [exact Hfree|]. split; [reflexivity|].
  exact (joinRoom_keeps_the_parent Cyd "r" "Cyd" opened opened_room (Player Bob "Bob" 0)
           eq_refl Hfree eq_refl).
Defined.

Lemma joinRoom_name_taken_witness :
  own opened "r" = Some opened_room
  ∧ ("Bob" ∈ (name <$> players opened_room))
  ∧ joinRoom Cyd "r" "Bob" opened
    = Done opened [(ToSender, Event.error "Name already taken in this room")].
Proof.
  assert ("Bob" ∈ name <$> players opened_room) as Htaken.
  { apply elem_of_cons. right. apply list_elem_of_here. }
  split; [reflexivity|]. split; [exact Htaken|].
  exact (joinRoom_name_taken Cyd "r" "Bob" opened opened_room eq_refl Htaken).
Defined.

(** ** Room ids and the prototype *)

Lemma handle_own_new sid req (rooms rooms' : obj room) out k :
  handle sid req rooms = Done rooms' out →
  is_Some (own rooms' k) →
  is_Some (own rooms k) ∨ inherited k = false.
Proof.
  intros Hhandle Hk. pose proof (handle_keys _ _ _ _ _ Hhandle) as Hkeys.
  apply own_is_Some in Hk. rewrite Hkeys in Hk. unfold track in Hk.
  apply list_elem_of_filter in Hk as [Hafter [Hk|Hk]%elem_of_app];
    [left; by apply own_is_Some|right].
  destruct req; try (by apply elem_of_nil in Hk). simpl in Hk, Hhandle.
  case_bool_decide as Hnew; [|by apply elem_of_nil in Hk].
  apply list_elem_of_singleton in Hk as ->. destruct Hnew as [Hnone Hsome].
  unfold createRoom in Hhandle.
  destruct (get rooms roomId) as [r| |] eqn:Hget.
  - apply get_Own in Hget. congruence.
  - injection Hhandle as <- _. rewrite Hnone in Hsome. by destruct Hsome.
  - by apply get_Undefined in Hget as [_ ?].
Qed.

Lemma reachable_own_not_inherited rooms k :
  reachable rooms → is_Some (own rooms k) → inherited k = false.
Proof.
  intros [trace Hrun]. revert k.
  assert (∀ k, is_Some (own (@empty room) k) → inherited k = false) as H0
    by (by intros k [? ?]).
  revert Hrun H0. generalize (@empty room) as rooms0.
  induction trace as [|[sid req] trace IH]; intros rooms0; simpl.
  - by intros [= <-].
  - destruct (handle sid req rooms0) as [rooms1 out|] eqn:Hhandle; [|done].
    intros Hrun H0. apply (IH rooms1 Hrun). intros k Hk.
    destruct (handle_own_new _ _ _ _ _ _ Hhandle Hk) as [?|?]; [by apply H0|done].
Qed.

(** X22. No room is ever stored under a name that [Object.prototype]
    defines: in every registry the server can reach, [rooms[roomId]] of
    such a name is the inherited value, and of any other name it is the room
    stored under it, or [undefined]. *)
Theorem reachable_ids_not_inherited (rooms : obj room) (k : string) :
  reachable rooms →
  (is_Some (own rooms k) → inherited k = false)
  ∧ (inherited k = true → get rooms k = Inherited)
  ∧ (inherited k = false →
     get rooms k = match own rooms k with Some r => Own r | None => Undefined end).
Proof.
  intros Hreach. split; [by apply reachable_own_not_inherited|]. unfold get. split.
  - intros Hk. destruct (own rooms k) as [r|] eqn:Hown; [|by rewrite Hk].
    rewrite (reachable_own_not_inherited rooms k Hreach) in Hk; [done|by eexists].
  - intros ->. by destruct (own rooms k).
Qed.

Lemma reachable_ids_not_inherited_witness :
  reachable opened
  ∧ (is_Some (own opened "toString") → inherited "toString" = false)
  ∧ (inherited "toString" = true → get opened "toString" = Inherited)
  ∧ (inherited "toString" = false →
     get opened "toString"
     = match own opened "toString" with Some r => Own r | None => Undefined end).
Proof.
  split; [exists two_player_game; reflexivity|].
  apply (reachable_ids_not_inherited opened "toString").
  exists two_player_game. reflexivity.
Defined.

(** X23. A room that has ended is gone for good: once [endGame] has run
    on a room of a reachable registry, every later game event for its id is
    ignored without any message, a [joinRoom] is answered with "Room does
    not exist", and the id is free for a new [createRoom]. *)
Theorem ended_room_is_gone (rooms : obj room) (roomId : string) (r : room) :
  reachable rooms →
  own rooms roomId = Some r →
  ∃ out,
    endGame roomId rooms = Done (remove roomId rooms) out
    ∧ (∀ sid req, addressed req = Some roomId → plays req = true →
                  handle sid req (remove roomId rooms) = Done (remove roomId rooms) [])
    ∧ (∀ sid playerName,
         joinRoom sid roomId playerName (remove roomId rooms)
         = Done (remove roomId rooms) [(ToSender, Event.error "Room does not exist")])
    ∧ (∀ sid playerName deckName files rand,
         succeeds (createRoom sid roomId playerName deckName (Some files) rand
                     (remove roomId rooms))).
Proof.
  intros Hreach Hown. eexists. split; [by apply endGame_Own|].
  assert (get (remove roomId rooms) roomId = Undefined) as Hget.
  { apply get_Undefined. split; [apply own_remove_eq|].
    apply (reachable_own_not_inherited rooms); [done|by eexists]. }
  split; [|split].
  - intros sid req Haddr Hplays.
    destruct req; try discriminate Hplays; injection Haddr as ->; simpl.
    + unfold startGame. by rewrite Hget.
    + unfold drawCard. by rewrite Hget.
    + unfold submitOnomatopoeia. by rewrite Hget.
    + unfold chooseOnomatopoeia. by rewrite Hget.
    + unfold nextTurn. by rewrite Hget.
  - intros sid playerName. unfold joinRoom. by rewrite Hget.
  - intros sid playerName deckName files rand. unfold createRoom. rewrite Hget.
    intros reason Hin.
    apply elem_of_cons in Hin as [Hin|Hin]; [discriminate Hin|].
    apply elem_of_cons in Hin as [Hin|Hin]; [discriminate Hin|].
    by apply elem_of_nil in Hin.
Qed.

Lemma ended_room_is_gone_witness :
  reachable opened
  ∧ own opened "r" = Some opened_room
  ∧ ∃ out,
      endGame "r" opened = Done (remove "r" opened) out
      ∧ (∀ sid req, addressed req = Some "r" → plays req = true →
                    handle sid req (remove "r" opened) = Done (remove "r" opened) [])
      ∧ (∀ sid playerName,
           joinRoom sid "r" playerName (remove "r" opened)
           = Done (remove "r" opened) [(ToSender, Event.error "Room does not exist")])
      ∧ (∀ sid playerName deckName files rand,
           succeeds (createRoom sid "r" playerName deckName (Some files) rand
                       (remove "r" opened))).
Proof.
  split; [exists two_player_game; reflexivity|]. split; [reflexivity|].
  apply (ended_room_is_gone opened "r" opened_room).
  - exists two_player_game. reflexivity.
  - reflexivity.
Defined.

(** ** Drawing *)

(** X24. In a registry the server can reach, a draw by the parent from a
    deck that is not empty always reveals a card: the last card of the deck,
    an image file, leaves the deck and becomes the current card, announced
    to the room, and the game does not end; a draw by anyone else changes
    nothing and sends nothing. *)
Theorem drawCard_reveals_last_card (rooms : obj room) (roomId : string) (r : room)
    (parent : player) (cards : list string) (card : string) :
  reachable rooms →
  own rooms roomId = Some r →
  player_at (players r) (currentTurnPlayerIndex r) = Some parent →
  deck r = cards ++ [card] →
  drawCard (id parent) roomId rooms
  = Done (put roomId (with_currentCard (Some card) (with_deck cards r)) rooms)
         [(ToRoom roomId, Event.cardDrawn card)]
  ∧ is_image card = true
  ∧ (∀ sid, sid ≠ id parent → drawCard sid roomId rooms = Done rooms []).
Proof.
  intros Hreach Hown Hparent Hdeck.
  destruct (reachable_images rooms roomId r Hreach Hown) as [Himages _].
  assert (is_image card = true) as Hcard.
  { rewrite Forall_forall in Himages. apply Himages. rewrite Hdeck.
    apply elem_of_app. right. apply list_elem_of_here. }
  apply get_Own in Hown. unfold drawCard. rewrite Hown, Hparent.
  split; [|split; [done|]].
  - rewrite bool_decide_eq_false_2 by (by intros ?).
    rewrite Hdeck, last_snoc, removelast_last.
    destruct (String.eqb card "") eqn:E; [|done].
    apply String.eqb_eq in E as ->. discriminate Hcard.
  - intros sid Hsid. by rewrite bool_decide_eq_true_2.
Qed.

Lemma drawCard_reveals_last_card_witness :
  reachable opened
  ∧ own opened "r" = Some opened_room
  ∧ player_at (players opened_room) (currentTurnPlayerIndex opened_room)
    = Some (Player Bob "Bob" 0)
  ∧ deck opened_room = ["c2.jpg"] ++ ["c1.png"]
  ∧ drawCard Bob "r" opened
    = Done (put "r" (with_currentCard (Some "c1.png") (with_deck ["c2.jpg"] opened_room))
              opened)
           [(ToRoom "r", Event.cardDrawn "c1.png")]
  ∧ is_image "c1.png" = true
  ∧ (∀ sid, sid ≠ Bob → drawCard sid "r" opened = Done opened []).
Proof.
  split; [exists two_player_game; reflexivity|].
  split; [reflexivity|]. split; [reflexivity|]. split; [reflexivity|].
  apply (drawCard_reveals_last_card opened "r" opened_room (Player Bob "Bob" 0)
           ["c2.jpg"] "c1.png").
  - exists two_player_game. reflexivity.
  - reflexivity.
  - reflexivity.
  - reflexivity.
Defined.

Lemma drawCard_on_empty_deck_witness :
  let r := with_deck [] opened_room in
  own [("r", r)] "r" = Some r
  ∧ player_at (players r) (currentTurnPlayerIndex r) = Some (Player Bob "Bob" 0)
  ∧ deck r = []
  ∧ drawCard Bob "r" [("r", r)]
    = Done (remove "r" [("r", r)])
           [(ToRoom "r",
             Event.gameOver (filter (λ p, points p = maxPoints (players r)) (players r))
                            (players r) (foldl (summarize r) ∅ (players r)))]
  ∧ own (remove "r" [("r", r)]) "r" = None.
Proof.
  split; [reflexivity|]. split; [reflexivity|]. split; [reflexivity|].
  exact (drawCard_on_empty_deck [("r", with_deck [] opened_room)] "r"
           (with_deck [] opened_room) (Player Bob "Bob" 0) eq_refl eq_refl eq_refl).
Defined.

Lemma chooseOnomatopoeia_on_empty_deck_witness :
  let r := with_deck [] opened_room in
  own [("r", r)] "r" = Some r
  ∧ deck r = []
  ∧ chooseOnomatopoeia_finally "r" ["Ann"] Registered [("r", r)]
    = Done (remove "r" [("r", r)])
           [(ToRoom "r", Event.onomatopoeiaChosen ["Ann"] (players r));
            (ToRoom "r",
             Event.gameOver (filter (λ p, points p = maxPoints (players r)) (players r))
                            (players r) (foldl (summarize r) ∅ (players r)))]
  ∧ own (remove "r" [("r", r)]) "r" = None.
Proof.
  split; [reflexivity|]. split; [reflexivity|].
  destruct (chooseOnomatopoeia_on_empty_deck [("r", with_deck [] opened_room)] "r" ["Ann"]
              (with_deck [] opened_room) eq_refl eq_refl) as (H1 & H2 & _).
  by split.
Defined.

Lemma chooseOnomatopoeia_skips_stale_ids_witness :
  let r := with_onomatopoeiaList [Group "x" [Ann; Cyd]] opened_room in
  own [("r", r)] "r" = Some r
  ∧ has_parent r
  ∧ find_group "x" (onomatopoeiaList r) = Some (0, Group "x" [Ann; Cyd])
  ∧ chooseOnomatopoeia "r" "x" [("r", r)]
    = Done [("r", with_players [Player Ann "Ann" 1; Player Bob "Bob" 0] r)]
           [(ToFirestore, Event.choiceDoc "r" 1 Bob "Bob" "x" ["Ann"] None)]
  ∧ ∃ parent rooms1 updatedPlayers chosenNames rooms2 rest,
      chooseOnomatopoeia "r" "x" [("r", r)]
      = Done rooms1
             [(ToFirestore,
               Event.choiceDoc "r" (roundCount r) (id parent) (name parent) "x"
                               chosenNames (currentCard r))]
      ∧ own rooms1 "r" = Some (with_players updatedPlayers r)
      ∧ chooseOnomatopoeia_finally "r" chosenNames Registered rooms1
        = Done rooms2
               ((ToRoom "r", Event.onomatopoeiaChosen chosenNames updatedPlayers) :: rest)
      ∧ chosenNames
        = omap (λ pid, name <$> (seat (players r) pid ≫= (players r !!.))) [Ann; Cyd]
      ∧ (NoDup [Ann; Cyd] →
         ∀ j p, players r !! j = Some p →
                updatedPlayers !! j
                = Some (if bool_decide (id p ∈ [Ann; Cyd] ∧ seat (players r) (id p) = Some j)
                        then add_point p else p)).
Proof.
  assert (has_parent (with_onomatopoeiaList [Group "x" [Ann; Cyd]] opened_room)) as Hparent
    by (by eexists).
  split; [reflexivity|]. split; [exact Hparent|]. split; [reflexivity|].
  split; [reflexivity|].
  exact (chooseOnomatopoeia_skips_stale_ids
           [("r", with_onomatopoeiaList [Group "x" [Ann; Cyd]] opened_room)] "r" "x"
           (with_onomatopoeiaList [Group "x" [Ann; Cyd]] opened_room)
           0 (Group "x" [Ann; Cyd]) eq_refl Hparent eq_refl).
Defined.

Lemma reachable_usage_numeric_witness :
  ∃ rooms r,
    run tied_answers empty = Some rooms
    ∧ own rooms "r" = Some r
    ∧ inherited "b" = false
    ∧ usageCount r Bob "b" = Some 2
    ∧ ∃ c, usageCount r Bob "b" = Some c.
Proof.
  eexists _, _.
  split; [vm_compute; reflexivity|].
  split; [vm_compute; reflexivity|]. split; [reflexivity|].
  split; [vm_compute; reflexivity|].
  eapply (reachable_usage_numeric tied_answers _ "r" _ Bob "b").
  - vm_compute. reflexivity.
  - vm_compute. reflexivity.
  - reflexivity.
Defined.

Lemma submitOnomatopoeia_delivers_witness :
  let r1 := record_submission Ann "boing" opened_room in
  own opened "r" = Some opened_room
  ∧ player_at (players opened_room) (currentTurnPlayerIndex opened_room)
    = Some (Player Bob "Bob" 0)
  ∧ submitOnomatopoeia Ann "r" "boing" "Ann" (λ _, true) opened
    = Done (put "r" r1 opened)
           ((ToFirestore,
             Event.answerDoc "r" (roundCount r1) (currentCard r1) "boing" Ann "Ann")
            :: if (totalSubmissions (onomatopoeiaList r1) + 1
                   =? length (players opened_room))%nat
                  && (λ _ : socket_id, true) (id (Player Bob "Bob" 0))
               then [(ToSocket (id (Player Bob "Bob" 0)),
                      Event.onomatopoeiaList (onomatopoeiaList r1))]
               else []).
Proof.
  split; [reflexivity|]. split; [reflexivity|].
  exact (submitOnomatopoeia_delivers Ann "r" "boing" "Ann" (λ _, true) opened opened_room
           (Player Bob "Bob" 0) eq_refl eq_refl).
Defined.

(** ** What a disconnection and [getRooms] send *)

Lemma leave_out_mono sid acc k0 x : x ∈ acc.2 → x ∈ (leave sid acc k0).2.
Proof.
  intros Hx. unfold leave. destruct (own acc.1 k0) as [r|]; [|done].
  destruct (length _ =? 0)%nat; simpl; apply elem_of_app; by left.
Qed.

Lemma leave_out_length sid acc k0 : (length (leave sid acc k0).2 ≤ length acc.2 + 1)%nat.
Proof.
  unfold leave. destruct (own acc.1 k0) as [r|]; [|lia].
  destruct (length _ =? 0)%nat; simpl; rewrite length_app; simpl; lia.
Qed.

Lemma leave_out_here sid acc k r :
  own acc.1 k = Some r →
  match without sid r with
  | Some r' => (ToRoom k, Event.updatePlayers (players r')) ∈ (leave sid acc k).2
  | None => ∃ ids, (ToEveryone, Event.roomsList ids) ∈ (leave sid acc k).2 ∧ k ∉ ids
  end.
Proof.
  intros Hown. unfold leave, without. rewrite Hown. cbn [players with_players].
  destruct (length _ =? 0)%nat; cbn [snd].
  - eexists. split; [apply elem_of_app; right; apply list_elem_of_here|].
    rewrite keys_elem_of, own_remove_eq. by intros [? ?].
  - apply elem_of_app. right. apply list_elem_of_here.
Qed.

Lemma foldl_leave_out sid ks rooms out0 k r :
  k ∈ ks →
  own rooms k = Some r →
  match without sid r with
  | Some r' =>
      (ToRoom k, Event.updatePlayers (players r')) ∈ (foldl (leave sid) (rooms, out0) ks).2
  | None =>
      ∃ ids, (ToEveryone, Event.roomsList ids) ∈ (foldl (leave sid) (rooms, out0) ks).2
             ∧ k ∉ ids
  end.
Proof.
  intros Hin Hown. induction ks as [|k0 ks IH] using rev_ind; [by apply elem_of_nil in Hin|].
  rewrite foldl_snoc. destruct (decide (k ∈ ks)) as [Hks|Hks].
  - specialize (IH Hks). destruct (without sid r) as [r'|].
    + by apply leave_out_mono.
    + destruct IH as (ids & Hids & Hk). exists ids. split; [by apply leave_out_mono|done].
  - apply elem_of_app in Hin as [?|Hin%list_elem_of_singleton]; [done|]. subst k0.
    apply leave_out_here. rewrite foldl_leave_own. by rewrite decide_False.
Qed.

Lemma foldl_leave_out_length sid ks acc :
  (length (foldl (leave sid) acc ks).2 ≤ length acc.2 + length ks)%nat.
Proof.
  induction ks as [|k0 ks IH] using rev_ind; [simpl; lia|].
  rewrite foldl_snoc, length_app. simpl.
  pose proof (leave_out_length sid (foldl (leave sid) acc ks) k0). lia.
Qed.

(** X25. A disconnection notifies every room, the rooms the socket was
    never in included: for each room of the registry the server sends
    either [updatePlayers], with the players left, to the room, or, the
    room being deleted, a [roomsList] without its id to everyone; it sends
    at most one message per room. *)
Theorem disconnect_notifies_every_room (sid : socket_id) (rooms : obj room)
    (k : string) (r : room) :
  own rooms k = Some r →
  ∃ rooms' out,
    disconnect sid rooms = Done rooms' out
    ∧ (length out ≤ length (keys rooms))%nat
    ∧ match without sid r with
      | Some r' =>
          own rooms' k = Some r' ∧ (ToRoom k, Event.updatePlayers (players r')) ∈ out
      | None =>
          own rooms' k = None
          ∧ ∃ ids, (ToEveryone, Event.roomsList ids) ∈ out ∧ k ∉ ids
      end.
Proof.
  intros Hown. eexists _, _. split; [reflexivity|]. split.
  { apply (foldl_leave_out_length sid (keys rooms) (rooms, [])). }
  assert (k ∈ keys rooms) as Hk by (apply keys_elem_of; by eexists).
  pose proof (foldl_leave_out sid (keys rooms) rooms [] k r Hk Hown) as Hout.
  pose proof (disconnect_own sid rooms k) as Hafter.
  unfold disconnect in Hafter. cbn [registry_after] in Hafter.
  rewrite Hown in Hafter. simpl in Hafter.
  destruct (without sid r) as [r'|]; by split.
Qed.

Lemma disconnect_notifies_every_room_witness :
  own opened "r" = Some opened_room
  ∧ ∃ rooms' out,
      disconnect Cyd opened = Done rooms' out
      ∧ (length out ≤ length (keys opened))%nat
      ∧ match without Cyd opened_room with
        | Some r' =>
            own rooms' "r" = Some r'
            ∧ (ToRoom "r", Event.updatePlayers (players r')) ∈ out
        | None =>
            own rooms' "r" = None
            ∧ ∃ ids, (ToEveryone, Event.roomsList ids) ∈ out ∧ "r" ∉ ids
        end.
Proof.
  split; [reflexivity|].
  exact (disconnect_notifies_every_room Cyd opened "r" opened_room eq_refl).
Defined.

Lemma handle_ids_NoDup sid req (rooms rooms' : obj room) out :
  handle sid req rooms = Done rooms' out → NoDup rooms.*1 → NoDup rooms'.*1.
Proof.
  intros Hhandle Hnd. rewrite (handle_keys _ _ _ _ _ Hhandle). unfold track.
  apply NoDup_filter, NoDup_app. split; [done|]. split.
  - intros k Hk Hnew. destruct req; try (by apply elem_of_nil in Hnew). simpl in Hnew.
    case_bool_decide as Hc; [|by apply elem_of_nil in Hnew].
    apply list_elem_of_singleton in Hnew as ->. destruct Hc as [Hnone _].
    apply own_None in Hnone. done.
  - destruct req; try apply NoDup_nil_2. simpl.
    case_bool_decide; [apply NoDup_singleton|apply NoDup_nil_2].
Qed.

Lemma reachable_ids_NoDup rooms : reachable rooms → NoDup rooms.*1.
Proof.
  intros [trace Hrun].
  assert (NoDup (@empty room).*1) as H0 by apply NoDup_nil_2.
  revert Hrun H0. generalize (@empty room) as rooms0.
  induction trace as [|[sid req] trace IH]; intros rooms0; simpl.
  - by intros [= <-].
  - destruct (handle sid req rooms0) as [rooms1 out|] eqn:Hhandle; [|done].
    intros Hrun H0. apply (IH rooms1 Hrun). by eapply handle_ids_NoDup.
Qed.

(** X26. [getRooms] changes nothing and answers the sender alone with the
    ids of the rooms that exist: in every registry the server can reach,
    the list holds each of them once and no other id. *)
Theorem getRooms_lists_each_room_once (rooms : obj room) :
  reachable rooms →
  ∃ ids,
    getRooms rooms = Done rooms [(ToSender, Event.roomsList ids)]
    ∧ NoDup ids
    ∧ (∀ k, k ∈ ids ↔ is_Some (own rooms k))
    ∧ length ids = length rooms.
Proof.
  intros Hreach. exists (keys rooms). split; [done|]. split; [|split].
  - unfold keys. rewrite enumeration_perm. by apply reachable_ids_NoDup.
  - apply keys_elem_of.
  - unfold keys. by rewrite enumeration_perm, length_fmap.
Qed.

Lemma getRooms_lists_each_room_once_witness :
  reachable opened
  ∧ ∃ ids,
      getRooms opened = Done opened [(ToSender, Event.roomsList ids)]
      ∧ NoDup ids
      ∧ (∀ k, k ∈ ids ↔ is_Some (own opened k))
      ∧ length ids = length opened.
Proof.
  split; [exists two_player_game; reflexivity|].
  apply (getRooms_lists_each_room_once opened).
  exists two_player_game. reflexivity.
Defined.

(** ** The orders a shuffle can give *)

Lemma shuffle_from_ext {A} i (rand rand' : nat → fraction) k (a : list A) :
  (∀ m, (k ≤ m)%nat → rand m = rand' m) →
  shuffle_from i rand k a = shuffle_from i rand' k a.
Proof.
  revert k a. induction i as [|i IH]; intros k a Hext; [done|].
  cbn [shuffle_from]. rewrite (Hext k) by lia. apply IH. intros m Hm. apply Hext. lia.
Qed.

(** Every index below [n] is [Math.floor(r * n)] for some double [r]: the
    one nearest below [(2 j + 1) / (2 n)] will do. *)
Lemma floor_mul_reaches (j n : nat) :
  j < n → (N.of_nat n ≤ 2 ^ 32)%N → ∃ r, floor_mul r n = j.
Proof.
  intros Hj Hn.
  set (m := ((2 * N.of_nat j + 1) * 2 ^ 52 / N.of_nat n)%N).
  assert (m * N.of_nat n ≤ (2 * N.of_nat j + 1) * 2 ^ 52)%N as Hle.
  { unfold m. rewrite N.mul_comm. apply N.Div0.mul_div_le. }
  assert ((2 * N.of_nat j + 1) * 2 ^ 52 < m * N.of_nat n + N.of_nat n)%N as Hgt.
  { unfold m.
    pose proof (N.mod_lt ((2 * N.of_nat j + 1) * 2 ^ 52) (N.of_nat n) ltac:(lia)).
    pose proof (N.div_mod ((2 * N.of_nat j + 1) * 2 ^ 52) (N.of_nat n) ltac:(lia)). lia. }
  assert (m < 2 ^ 53)%N as Hbits.
  { change (2 ^ 53)%N with (2 * 2 ^ 52)%N.
    assert (m * N.of_nat n < 2 * 2 ^ 52 * N.of_nat n)%N; nia. }
  assert ((m <? 2 ^ 53)%N = true) as H1 by (by apply N.ltb_lt).
  exists (Fraction m 53 H1 H1 eq_refl). unfold floor_mul. cbn [mantissa exponent].
  destruct (round_double_close (m * N.of_nat n) (N.of_nat n)) as [Hup Hdown]; [lia|nia|].
  assert (round_double (m * N.of_nat n) / 2 ^ 53 = N.of_nat j)%N as ->; [|lia].
  symmetry. apply (N.div_unique _ _ _ (round_double (m * N.of_nat n) - 2 ^ 53 * N.of_nat j)).
  - change (2 ^ 32)%N with 4294967296%N in Hn. change (2 ^ 52)%N with 4503599627370496%N in *.
    change (2 ^ 53)%N with 9007199254740992%N in *. lia.
  - change (2 ^ 32)%N with 4294967296%N in Hn. change (2 ^ 52)%N with 4503599627370496%N in *.
    change (2 ^ 53)%N with 9007199254740992%N in *. lia.
Qed.

Lemma swap_lookup_l {A} i j (a : list A) y :
  i < length a → a !! j = Some y → swap i j a !! i = Some y.
Proof.
  intros Hi Hj. unfold swap. destruct (lookup_lt_is_Some_2 a i Hi) as [x Hx].
  rewrite Hx, Hj. destruct (decide (i = j)) as [->|Hne].
  - rewrite list_lookup_insert_eq by (by rewrite length_insert). congruence.
  - rewrite list_lookup_insert_ne by done. by rewrite list_lookup_insert_eq.
Qed.

Lemma swap_drop {A} i j n (a : list A) : i < n → j < n → drop n (swap i j a) = drop n a.
Proof.
  intros Hi Hj. unfold swap.
  destruct (a !! i) as [x|]; [|done]. destruct (a !! j) as [y|]; [|done].
  by rewrite !drop_insert_lt.
Qed.

Lemma swap_take {A} i j n (a : list A) :
  i < n → j < n → take n (swap i j a) ≡ₚ take n a.
Proof.
  intros Hi Hj. apply (Permutation_app_inv_r (drop n a)).
  rewrite <-(swap_drop i j n a Hi Hj) at 1. rewrite !take_drop. apply swap_perm.
Qed.

Lemma shuffle_from_reaches {A} i k (a b : list A) :
  (N.of_nat (length a) ≤ 2 ^ 32)%N →
  i < length a →
  length a = length b →
  take (S i) a ≡ₚ take (S i) b →
  drop (S i) a = drop (S i) b →
  ∃ rand, shuffle_from i rand k a = b.
Proof.
  revert k a. induction i as [|i IH]; intros k a Hmax Hi Hlen Htake Hdrop.
  - exists (λ _, zero). simpl.
    rewrite <-(take_drop 1 a), <-(take_drop 1 b), Hdrop. f_equal.
    destruct a as [|x a], b as [|y b]; simpl in *; try lia.
    rewrite !take_0 in Htake. by apply Permutation_singleton_inj in Htake as ->.
  - destruct (lookup_lt_is_Some_2 b (S i)) as [y Hy]; [lia|].
    assert (y ∈ take (S (S i)) a) as Hin.
    { rewrite Htake. apply list_elem_of_lookup. exists (S i).
      rewrite lookup_take_lt by lia. done. }
    apply list_elem_of_lookup in Hin as [j Hj].
    assert (j < S (S i)) as Hjlt.
    { apply lookup_lt_Some in Hj. rewrite length_take in Hj. lia. }
    rewrite lookup_take_lt in Hj by lia.
    set (a' := swap (S i) j a).
    assert (a' !! S i = Some y) as Hy' by (by apply swap_lookup_l).
    assert (drop (S (S i)) a' = drop (S (S i)) b) as Hdrop'.
    { unfold a'. rewrite swap_drop by lia. done. }
    destruct (IH (S k) a') as [rand' Hrand'].
    + unfold a'. by rewrite swap_length.
    + unfold a'. rewrite swap_length. lia.
    + unfold a'. by rewrite swap_length.
    + apply (Permutation_app_inv_r [y]).
      rewrite <-(take_S_r a' (S i) y Hy'), <-(take_S_r b (S i) y Hy).
      unfold a'. rewrite swap_take by lia. done.
    + rewrite (drop_S a' y (S i) Hy'), (drop_S b y (S i) Hy). by f_equal.
    + destruct (floor_mul_reaches j (S i + 1)) as [r Hr]; [lia|lia|].
      exists (λ m, if decide (m = k) then r else rand' m).
      cbn [shuffle_from]. rewrite decide_True by done. rewrite Hr.
      fold a'. rewrite <-Hrand'. apply shuffle_from_ext.
      intros m Hm. rewrite decide_False by lia. done.
Qed.

(** X29. The shuffle can deal the deck in every order: for any
    rearrangement of a deck (of an array, so of less than 2^32 cards) there
    are doubles that [Math.random] may return with which [shuffle] turns the
    deck into it. *)
Theorem shuffle_reaches_every_order {A} (a b : list A) :
  (N.of_nat (length a) < 2 ^ 32)%N →
  a ≡ₚ b → ∃ rand, shuffle rand a = b.
Proof.
  intros Hmax Hperm. pose proof (Permutation_length Hperm) as Hlen.
  destruct a as [|x a].
  - apply Permutation_nil_l in Hperm as <-. by exists (λ _, zero).
  - unfold shuffle. apply shuffle_from_reaches.
    + lia.
    + simpl. lia.
    + done.
    + replace (S (length (x :: a) - 1)) with (length (x :: a)) by (simpl; lia).
      rewrite firstn_all. rewrite Hlen, firstn_all. done.
    + replace (S (length (x :: a) - 1)) with (length (x :: a)) by (simpl; lia).
      rewrite drop_all. rewrite Hlen, drop_all. done.
Qed.

Lemma shuffle_reaches_every_order_witness :
  (N.of_nat (length ["c1.png"; "c2.jpg"; "c3.gif"]) < 2 ^ 32)%N
  ∧ ["c1.png"; "c2.jpg"; "c3.gif"] ≡ₚ ["c2.jpg"; "c3.gif"; "c1.png"]
  ∧ ∃ rand, shuffle rand ["c1.png"; "c2.jpg"; "c3.gif"] = ["c2.jpg"; "c3.gif"; "c1.png"].
Proof.
  assert (N.of_nat (length ["c1.png"; "c2.jpg"; "c3.gif"]) < 2 ^ 32)%N as Hmax
    by reflexivity.
  assert (["c1.png"; "c2.jpg"; "c3.gif"] ≡ₚ ["c2.jpg"; "c3.gif"; "c1.png"]) as Hperm.
  { etransitivity; [apply perm_swap|]. apply perm_skip, perm_swap. }
  split; [exact Hmax|]. split; [exact Hperm|].
  exact (shuffle_reaches_every_order ["c1.png"; "c2.jpg"; "c3.gif"]
           ["c2.jpg"; "c3.gif"; "c1.png"] Hmax Hperm).
Defined.

(** ** Image files *)

Lemma append_String (c : ascii) (s t : string) : String c s +:+ t = String c (s +:+ t).
Proof. reflexivity. Qed.

Lemma append_assoc (s t u : string) : (s +:+ t) +:+ u = s +:+ (t +:+ u).
Proof. induction s as [|c s IH]; [done|]. by rewrite !append_String, IH. Qed.

Lemma append_empty_r (s : string) : s +:+ "" = s.
Proof. induction s as [|c s IH]; [done|]. by rewrite append_String, IH. Qed.

Lemma rev_app_append (s t : string) : String.rev_app s t = String.rev s +:+ t.
Proof.
  unfold String.rev. revert t. induction s as [|c s IH]; intros t; simpl; [done|].
  rewrite (IH (String c t)), (IH (String c "")), append_assoc. done.
Qed.

Lemma rev_String (c : ascii) (s : string) :
  String.rev (String c s) = String.rev s +:+ String c "".
Proof. unfold String.rev at 1. simpl. apply rev_app_append. Qed.

Lemma rev_append (s t : string) : String.rev (s +:+ t) = String.rev t +:+ String.rev s.
Proof.
  induction s as [|c s IH].
  - by rewrite append_empty_r.
  - by rewrite append_String, !rev_String, IH, append_assoc.
Qed.

Lemma rev_rev (s : string) : String.rev (String.rev s) = s.
Proof.
  induction s as [|c s IH]; [done|]. by rewrite rev_String, rev_append, IH.
Qed.

Lemma prefix_append (p s : string) : String.prefix p s = true ↔ ∃ t, s = p +:+ t.
Proof.
  revert s. induction p as [|c p IH]; intros s.
  - split; [by exists s|]. by destruct s.
  - destruct s as [|d s]; simpl.
    + split; [done|]. by intros [t ?].
    + destruct (ascii_dec c d) as [->|Hne].
      * rewrite IH. split; intros [t Ht]; exists t; [by rewrite Ht|].
        rewrite append_String in Ht. congruence.
      * split; [done|]. intros [t Ht]. rewrite append_String in Ht. congruence.
Qed.

Lemma ends_with_append (ext s : string) :
  ends_with ext s = true ↔ ∃ stem, s = stem +:+ ext.
Proof.
  unfold ends_with. rewrite prefix_append. split.
  - intros [t Ht]. exists (String.rev t).
    by rewrite <-(rev_rev s), Ht, rev_append, rev_rev.
  - intros [stem ->]. exists (String.rev stem). apply rev_append.
Qed.

Lemma lowercase_append (s t : string) :
  lowercase (s +:+ t) = lowercase s +:+ lowercase t.
Proof.
  induction s as [|c s IH]; [done|]. rewrite !append_String. simpl.
  by rewrite IH, append_String.
Qed.

Lemma lowercase_split (f s t : string) :
  lowercase f = s +:+ t →
  ∃ f1 f2, f = f1 +:+ f2 ∧ lowercase f1 = s ∧ lowercase f2 = t.
Proof.
  revert f. induction s as [|c s IH]; intros f Hf.
  - by exists "", f.
  - destruct f as [|d f]; [done|]. rewrite append_String in Hf. injection Hf as Hd Hf.
    destruct (IH f Hf) as (f1 & f2 & -> & <- & <-).
    exists (String d f1), f2. simpl. by rewrite Hd.
Qed.

(** X30. The files that go into a deck are those whose name ends in
    [.jpg], [.jpeg], [.png] or [.gif], in any mix of upper and lower case:
    this is what the filter of [createRoom] accepts, and nothing else. *)
Theorem is_image_spec (file : string) :
  is_image file = true ↔
  ∃ stem ext, file = stem +:+ ext
              ∧ lowercase ext ∈ [".jpg"; ".jpeg"; ".png"; ".gif"].
Proof.
  unfold is_image. rewrite existsb_exists. split.
  - intros (e & He & [stem' Hends]%ends_with_append).
    destruct (lowercase_split file stem' e Hends) as (stem & ext & -> & _ & <-).
    exists stem, ext. split; [done|]. by apply list_elem_of_In.
  - intros (stem & ext & -> & Hext). exists (lowercase ext).
    split; [by apply list_elem_of_In|].
    apply ends_with_append. exists (lowercase stem). apply lowercase_append.
Qed.

Lemma is_image_spec_witness :
  is_image "Cat.PNG" = true ∧ is_image "png" = false.
Proof.
  split; [|reflexivity].
  apply (proj2 (is_image_spec "Cat.PNG")). exists "Cat", ".PNG".
  split; [reflexivity|]. apply elem_of_cons. right. apply elem_of_cons. right.
  apply list_elem_of_here.
Defined.
